(** * jclearn: Harville pool probabilities and multi-outcome Kelly staking

    A shallow embedding of [prob.py] (class [ProbProber]) and [kelly.py]
    (class [MultiKellyBettor]).

    Numbers.  The Python code computes with IEEE doubles through numpy.  The
    embedding computes with exact rationals [Q]: every statement below is a
    statement about the arithmetic the code performs, with rounding left
    out.  [np.power] with a real exponent has no rational value in general,
    so it is a parameter [power] of the model.

    Rounding is not always small.  Where a rank weight is within an ulp of
    1/2, or two of them add up to 1 but for an ulp, the differences
    [1 - p_i - p_j] of [prob.py] lose all their digits or are exactly 0 in
    doubles, and sums of very large weights overflow or wrap.  The theorems
    about the values of the outputs are therefore stated for weights in a
    range that keeps rounding small (module [Range]); module [Binary64]
    holds the level computations in doubles themselves, to evaluate the code
    outside that range.

    Arrays.  A numpy array of shape [dim^k] is a [k]-fold nested list; every
    numpy operation is written by its index rule, [tab n f] being the array
    whose entry [i] is [f i]. *)

From Stdlib Require Import QArith Qpower Qabs Qfield Lqa Lia List Bool Arith String.
From stdpp Require Import gmap strings list fin_maps.
From Stdlib Require Sorted Floats.
Import ListNotations.
Local Open Scope Q_scope.
#[local] Set Default Proof Using "Type".

(** ** numpy arrays as nested lists *)

Module NP.

Abbreviation vec := (list Q).
Abbreviation mat := (list (list Q)).
Abbreviation ten3 := (list (list (list Q))).
Abbreviation ten4 := (list (list (list (list Q)))).

Definition tab {A : Type} (n : nat) (f : nat -> A) : list A := map f (seq 0 n).
Definition tab2 {A : Type} (n : nat) (f : nat -> nat -> A) : list (list A) :=
  tab n (fun i => tab n (f i)).
Definition tab3 {A : Type} (n : nat) (f : nat -> nat -> nat -> A) :=
  tab n (fun i => tab2 n (f i)).
Definition tab4 {A : Type} (n : nat) (f : nat -> nat -> nat -> nat -> A) :=
  tab n (fun i => tab3 n (f i)).

Definition get1 (v : vec) (i : nat) : Q := nth i v 0.
Definition get2 (m : mat) (i j : nat) : Q := get1 (nth i m []) j.
Definition get3 (t : ten3) (i j k : nat) : Q := get2 (nth i t []) j k.
Definition get4 (t : ten4) (i j k l : nat) : Q := get3 (nth i t []) j k l.

(** [v.sum()] of a one-dimensional array. *)
Definition vsum (v : vec) : Q := fold_right Qplus 0 v.

(** The sum of [f 0 .. f (n-1)]; the reductions along one axis use it. *)
Fixpoint bigsum (n : nat) (f : nat -> Q) : Q :=
  match n with
  | O => 0
  | S m => bigsum m f + f m
  end.

(** [a.sum(axis = 1)] and [a.sum(axis = 0)] on two and three dimensions. *)
Definition sum2_axis1 (dim : nat) (m : mat) : vec :=
  tab dim (fun a => bigsum dim (fun b => get2 m a b)).
Definition sum2_axis0 (dim : nat) (m : mat) : vec :=
  tab dim (fun b => bigsum dim (fun a => get2 m a b)).
Definition sum3_axis0 (dim : nat) (t : ten3) : mat :=
  tab2 dim (fun j k => bigsum dim (fun i => get3 t i j k)).
Definition sum3_axis1 (dim : nat) (t : ten3) : mat :=
  tab2 dim (fun i k => bigsum dim (fun j => get3 t i j k)).

(** Elementwise sums. *)
Definition add1 (dim : nat) (a b : vec) : vec :=
  tab dim (fun i => get1 a i + get1 b i).
Definition add2 (dim : nat) (a b : mat) : mat :=
  tab2 dim (fun i j => get2 a i j + get2 b i j).
Definition add3 (dim : nat) (a b : ten3) : ten3 :=
  tab3 dim (fun i j k => get3 a i j k + get3 b i j k).
Definition add4 (dim : nat) (a b : ten4) : ten4 :=
  tab4 dim (fun i j k l => get4 a i j k l + get4 b i j k l).

(** Position of axis [a] in the list [axes]. *)
Fixpoint index_of (a : nat) (axes : list nat) : nat :=
  match axes with
  | [] => O
  | x :: r => if (x =? a)%nat then O else S (index_of a r)
  end.

(** [a.transpose(axes)]: axis [m] of the result is axis [axes[m]] of [a], so
    the entry at [x] of the result is the entry of [a] at the index [y] with
    [y[axes[m]] = x[m]]. *)
Definition src (axes x : list nat) (a : nat) : nat := nth (index_of a axes) x O.

Definition transpose2 (dim : nat) (m : mat) : mat :=
  tab2 dim (fun x0 x1 => get2 m x1 x0).
Definition transpose3 (dim : nat) (axes : list nat) (t : ten3) : ten3 :=
  tab3 dim (fun x0 x1 x2 =>
    let y := src axes [x0; x1; x2] in get3 t (y 0%nat) (y 1%nat) (y 2%nat)).
Definition transpose4 (dim : nat) (axes : list nat) (t : ten4) : ten4 :=
  tab4 dim (fun x0 x1 x2 x3 =>
    let y := src axes [x0; x1; x2; x3] in
    get4 t (y 0%nat) (y 1%nat) (y 2%nat) (y 3%nat)).

(** [itertools.permutations], in its order of generation. *)
Fixpoint remove_at (i : nat) (l : list nat) : list nat :=
  match l, i with
  | [], _ => []
  | _ :: r, O => r
  | x :: r, S i' => x :: remove_at i' r
  end.

Fixpoint perms_of (fuel : nat) (l : list nat) : list (list nat) :=
  match fuel with
  | O => [[]]
  | S fuel' =>
      flat_map (fun i => map (cons (nth i l O)) (perms_of fuel' (remove_at i l)))
               (seq 0 (length l))
  end.

Definition permutations (l : list nat) : list (list nat) := perms_of (length l) l.

(** An index tuple is pairwise distinct. *)
Fixpoint distinct (l : list nat) : bool :=
  match l with
  | [] => true
  | x :: r => negb (existsb (Nat.eqb x) r) && distinct r
  end.

(** Sums of the entries at pairwise-distinct index tuples. *)
Definition sum_distinct2 (n : nat) (m : mat) : Q :=
  bigsum n (fun i => bigsum n (fun j =>
    if distinct [i; j] then get2 m i j else 0)).
Definition sum_distinct3 (n : nat) (t : ten3) : Q :=
  bigsum n (fun i => bigsum n (fun j => bigsum n (fun k =>
    if distinct [i; j; k] then get3 t i j k else 0))).
Definition sum_distinct4 (n : nat) (t : ten4) : Q :=
  bigsum n (fun i => bigsum n (fun j => bigsum n (fun k => bigsum n (fun l =>
    if distinct [i; j; k; l] then get4 t i j k l else 0)))).

(** Sums over all index triples and quadruples. *)
Definition sum3 (n : nat) (f : nat -> nat -> nat -> Q) : Q :=
  bigsum n (fun i => bigsum n (fun j => bigsum n (fun k => f i j k))).
Definition sum4 (n : nat) (f : nat -> nat -> nat -> nat -> Q) : Q :=
  bigsum n (fun i => bigsum n (fun j => bigsum n (fun k => bigsum n (fun l =>
    f i j k l)))).

(** A vector of [n] positive entries that sum to 1. *)
Definition prob_vec (n : nat) (v : vec) : Prop :=
  (forall i, (i < n)%nat -> 0 < get1 v i) /\ bigsum n (get1 v) == 1.

(** Every entry of [v] is within [tol] of the entry of [expected]. *)
Definition within (tol : Q) (expected v : vec) : bool :=
  forallb (fun i => Qle_bool (Qabs (get1 v i - get1 expected i)) tol)
          (seq 0 (length expected)).

End NP.

(** ** prob.py: class ProbProber *)

Module Prob.
Import NP.

(** Python list objects live in a heap, addressed by location: the
    constructor keeps a reference to the caller's coefficient list and
    extends that very object. *)
Abbreviation loc := nat (only parsing).
Abbreviation heap := (gmap nat (list Q)).

Definition deref (h : heap) (l : loc) : list Q := default [] (h !! l).

(** [l.extend(extra)], in place. *)
Definition list_extend (l : loc) (extra : list Q) (h : heap) : heap :=
  alter (fun cs => cs ++ extra) l h.

(** The instance: [wos] is an array of its own ([np.array(wos)]), [c] is the
    reference it was given, the four order tensors are cache slots. *)
Record ProbProber : Type := mkProbProber {
  wos : vec;
  c : loc;
  p_i : option vec;
  p_ij : option mat;
  p_ijk : option ten3;
  p_ijkl : option ten4
}.

Definition pools : list string :=
  ["win"; "quinella"; "tierce"; "trio"; "place"; "place_q"; "quartet"; "first_4"]%string.

(** [__init__(self, wos, c)] (prob.py 26-35). *)
Definition init (h : heap) (wos_arg : vec) (c_arg : loc) : heap * ProbProber :=
  let len_c := length (deref h c_arg) in
  let h' := if (len_c <? 4)%nat
            then list_extend c_arg (repeat 1 (4 - len_c)) h
            else h in
  (h', mkProbProber wos_arg c_arg None None None None).

(** The default argument [c = [1, 1, 1, 1]] is one list object, created when
    the class body is run. *)
Definition default_c : loc := O.
Definition heap0 : heap := {[ default_c := [1; 1; 1; 1] ]}.

Inductive error : Type :=
| InvalidPool (pool : string)              (* ValueError('Invalid pool: ...') *)
| NotEnoughCompetitors (least_dim : nat)   (* ValueError('Not enough competitors, ...') *)
| IndexError.                              (* self.c[k] past the end of the list *)

Inductive ndarray : Type :=
| Arr1 (v : vec)
| Arr2 (m : mat)
| Arr3 (t : ten3)
| Arr4 (t : ten4)
| PyNone.

(** State and error monad of the methods: the instance is threaded through,
    an exception leaves the instance as it was when it was raised. *)
Definition M (A : Type) : Type := ProbProber -> ProbProber * (error + A).

Definition ret {A : Type} (a : A) : M A := fun s => (s, inr a).
Definition raise {A : Type} (e : error) : M A := fun s => (s, inl e).
Definition bind {A B : Type} (m : M A) (k : A -> M B) : M B :=
  fun s => match m s with
           | (s', inl e) => (s', inl e)
           | (s', inr a) => k a s'
           end.
Definition gets {A : Type} (f : ProbProber -> A) : M A := fun s => (s, inr (f s)).
Definition modify (f : ProbProber -> ProbProber) : M unit := fun s => (f s, inr tt).

Notation "x <- m ;; k" := (bind m (fun x => k))
  (at level 100, m at next level, right associativity).
Notation "m ;;; k" := (bind m (fun _ => k))
  (at level 100, right associativity).

(** [_check_dim] and [_check_pool] (prob.py 37-43). *)
Definition _check_dim (dim least_dim : nat) : M unit :=
  if (dim <=? least_dim)%nat then raise (NotEnoughCompetitors least_dim) else ret tt.

Definition _check_pool (pool : string) : M unit :=
  if existsb (String.eqb pool) pools then ret tt else raise (InvalidPool pool).

Section Transform.

(** [np.power] on scalars. *)
Variable power : Q -> Q -> Q.

(** [np.divide(a, b, where = mask)] without [out] allocates its result with
    [np.empty] and writes only where the mask holds: elsewhere the result
    keeps what the memory held.  [uninit2] and [uninit3] are those
    contents, for the call at level 3 and the call at level 4. *)
Variable uninit2 : nat -> nat -> Q.
Variable uninit3 : nat -> nat -> nat -> Q.

(** [nppow = np.power(self.wos, c_k); nppow / nppow.sum()]
    (prob.py 50-51, 59-60, 70-71, 100). *)
Definition rank_weight (ws : vec) (ck : Q) : vec :=
  let nppow := map (fun w => power w ck) ws in
  let s := vsum nppow in
  map (fun x => x / s) nppow.

(** prob.py 61-62. *)
Definition level2 (dim : nat) (pi p_i2 : vec) : mat :=
  (* self.p_i / (1 - p_i2) *)
  let ratio := tab dim (fun b => get1 pi b / (1 - get1 p_i2 b)) in
  (* p_i2.reshape(-1, 1) * ratio *)
  let prod := tab2 dim (fun a b => get1 p_i2 a * get1 ratio b) in
  (* self.p_ij[np.diag_indices(dim, ndim = 2)] = 0 *)
  tab2 dim (fun a b => if (a =? b)%nat then 0 else get2 prod a b).

(** [view = t.transpose(axes); view[np.diag_indices(dim, ndim = 2)] = 0]:
    the view's entry [x] is [t]'s entry [y] with [x[m] = y[axes[m]]], and
    the assignment clears the view's entries with [x[0] = x[1]]. *)
Definition clear_view_diag (dim : nat) (axes : list nat) (t : ten3) : ten3 :=
  tab3 dim (fun i j k =>
    let y := [i; j; k] in
    if (nth (nth 0 axes O) y O =? nth (nth 1 axes O) y O)%nat
    then 0 else get3 t i j k).

(** prob.py 72-77. *)
Definition level3 (dim : nat) (pij : mat) (p_i3 : vec) : ten3 :=
  (* comp = np.tile(p_i3.reshape(-1, 1), dim) *)
  let tile := tab2 dim (fun i j => get1 p_i3 i) in
  (* comp = 1 - comp - comp.T *)
  let comp := tab2 dim (fun i j =>
                1 - get2 tile i j - get2 (transpose2 dim tile) i j) in
  (* comp = np.divide(self.p_ij, comp, where = comp != 0) *)
  let quot := tab2 dim (fun i j =>
                if Qeq_bool (get2 comp i j) 0 then uninit2 i j
                else get2 pij i j / get2 comp i j) in
  (* self.p_ijk = comp.reshape( *comp.shape, -1) * p_i3.reshape(1, dim) *)
  let prod := tab3 dim (fun i j k => get2 quot i j * get1 p_i3 k) in
  clear_view_diag dim [2; 0; 1]%nat (clear_view_diag dim [2; 1; 0]%nat prod).

(** One turn of the loop of prob.py 105-111. *)
Definition clear4 (dim : nat) (hit : nat -> nat -> nat -> nat -> bool)
    (t : ten4) : ten4 :=
  tab4 dim (fun a b c d => if hit a b c d then 0 else get4 t a b c d).

Definition clear_slices (dim : nat) (t : ten4) (i : nat) : ten4 :=
  let t1 := clear4 dim (fun a b c d => (a =? i)%nat && (d =? i)%nat) t in
  let t2 := clear4 dim (fun a b c d => (b =? i)%nat && (d =? i)%nat) t1 in
  let t3 := clear4 dim (fun a b c d => (c =? i)%nat && (d =? i)%nat) t2 in
  let t4 := clear4 dim (fun a b c d => (a =? i)%nat && (c =? i)%nat) t3 in
  let t5 := clear4 dim (fun a b c d => (b =? i)%nat && (c =? i)%nat) t4 in
  clear4 dim (fun a b c d => (a =? i)%nat && (b =? i)%nat) t5.

(** prob.py 100-111. *)
Definition level4 (dim : nat) (pijk : ten3) (p_i4 : vec) : ten4 :=
  (* comp = np.tile(p_i4, (dim, dim, 1)) *)
  let tile := tab3 dim (fun a b d => get1 p_i4 d) in
  (* comp = 1 - comp - comp.T - comp.transpose([0, 2, 1]) *)
  let comp := tab3 dim (fun a b d =>
                1 - get3 tile a b d
                  - get3 (transpose3 dim [2; 1; 0]%nat tile) a b d
                  - get3 (transpose3 dim [0; 2; 1]%nat tile) a b d) in
  (* comp = np.divide(self.p_ijk, comp, where = comp != 0) *)
  let quot := tab3 dim (fun a b d =>
                if Qeq_bool (get3 comp a b d) 0 then uninit3 a b d
                else get3 pijk a b d / get3 comp a b d) in
  (* self.p_ijkl = comp.reshape( *comp.shape, -1) * p_i4.reshape(1, dim) *)
  let prod := tab4 dim (fun a b d l => get3 quot a b d * get1 p_i4 l) in
  fold_left (clear_slices dim) (seq 0 dim) prod.

(** [self.c[k]]. *)
Definition coef (h : heap) (k : nat) : M Q :=
  fun s => match deref h (c s) !! k with
           | Some x => (s, inr x)
           | None => (s, inl IndexError)
           end.

(** The four compute-if-absent blocks of [transform]. *)
Definition load_p_i (h : heap) : M vec :=
  cached <- gets p_i ;;
  match cached with
  | Some v => ret v
  | None =>
      ck <- coef h 0 ;;
      ws <- gets wos ;;
      let v := rank_weight ws ck in
      modify (fun s => mkProbProber (wos s) (c s) (Some v) (p_ij s) (p_ijk s) (p_ijkl s)) ;;;
      ret v
  end.

Definition load_p_ij (h : heap) (dim : nat) : M mat :=
  cached <- gets p_ij ;;
  match cached with
  | Some m => ret m
  | None =>
      ck <- coef h 1 ;;
      ws <- gets wos ;;
      pi <- gets p_i ;;
      let m := level2 dim (default [] pi) (rank_weight ws ck) in
      modify (fun s => mkProbProber (wos s) (c s) (p_i s) (Some m) (p_ijk s) (p_ijkl s)) ;;;
      ret m
  end.

Definition load_p_ijk (h : heap) (dim : nat) : M ten3 :=
  cached <- gets p_ijk ;;
  match cached with
  | Some t => ret t
  | None =>
      ck <- coef h 2 ;;
      ws <- gets wos ;;
      pij <- gets p_ij ;;
      let t := level3 dim (default [] pij) (rank_weight ws ck) in
      modify (fun s => mkProbProber (wos s) (c s) (p_i s) (p_ij s) (Some t) (p_ijkl s)) ;;;
      ret t
  end.

Definition load_p_ijkl (h : heap) (dim : nat) : M ten4 :=
  cached <- gets p_ijkl ;;
  match cached with
  | Some t => ret t
  | None =>
      ck <- coef h 3 ;;
      ws <- gets wos ;;
      pijk <- gets p_ijk ;;
      let t := level4 dim (default [] pijk) (rank_weight ws ck) in
      modify (fun s => mkProbProber (wos s) (c s) (p_i s) (p_ij s) (p_ijk s) (Some t)) ;;;
      ret t
  end.

(** The pool outputs. *)
Definition quinella_of (dim : nat) (pij : mat) : mat :=
  add2 dim pij (transpose2 dim pij).

Definition trio_of (dim : nat) (pijk : ten3) : ten3 :=
  fold_left (fun trio perm => add3 dim trio (transpose3 dim perm pijk))
            (permutations (seq 0 3))
            (tab3 dim (fun _ _ _ => 0)).

Definition place_of (dim : nat) (pi : vec) (pij : mat) (pijk : ten3) : vec :=
  let p_rk2 := sum2_axis1 dim pij in
  let p_rk3 := sum2_axis0 dim (sum3_axis1 dim pijk) in
  add1 dim (add1 dim pi p_rk2) p_rk3.

Definition place_q_of (dim : nat) (pij : mat) (pijk : ten3) : mat :=
  let p_dot_i_j := sum3_axis0 dim pijk in
  let p_i_dot_j := sum3_axis1 dim pijk in
  add2 dim (add2 dim (add2 dim (add2 dim (add2 dim
    pij (transpose2 dim pij))
    p_i_dot_j) (transpose2 dim p_i_dot_j))
    p_dot_i_j) (transpose2 dim p_dot_i_j).

Definition first_4_of (dim : nat) (pijkl : ten4) : ten4 :=
  fold_left (fun first_4 perm => add4 dim first_4 (transpose4 dim perm pijkl))
            (permutations (seq 0 4))
            (tab4 dim (fun _ _ _ _ => 0)).

(** [transform(self, pool)] (prob.py 45-122). *)
Definition transform (h : heap) (pool : string) : M ndarray :=
  _check_pool pool ;;;
  dim <- gets (fun s => length (wos s)) ;;
  pi <- load_p_i h ;;
  if (pool =? "win")%string then ret (Arr1 pi) else
  _check_dim dim 2 ;;;
  pij <- load_p_ij h dim ;;
  if (pool =? "quinella")%string then ret (Arr2 (quinella_of dim pij)) else
  _check_dim dim 3 ;;;
  pijk <- load_p_ijk h dim ;;
  if (pool =? "tierce")%string then ret (Arr3 pijk) else
  if (pool =? "trio")%string then ret (Arr3 (trio_of dim pijk)) else
  if (pool =? "place")%string then ret (Arr1 (place_of dim pi pij pijk)) else
  if (pool =? "place_q")%string then ret (Arr2 (place_q_of dim pij pijk)) else
  _check_dim dim 4 ;;;
  pijkl <- load_p_ijkl h dim ;;
  if (pool =? "quartet")%string then ret (Arr4 pijkl) else
  if (pool =? "first_4")%string then ret (Arr4 (first_4_of dim pijkl)) else
  ret PyNone.

(** *** The instances that calls of [transform] produce *)

(** The order tensors of the weights [ws] under the coefficients [cs]. *)
Definition order1 (ws : vec) (cs : list Q) : vec :=
  rank_weight ws (nth 0 cs 1).
Definition order2 (ws : vec) (cs : list Q) : mat :=
  level2 (length ws) (order1 ws cs) (rank_weight ws (nth 1 cs 1)).
Definition order3 (ws : vec) (cs : list Q) : ten3 :=
  level3 (length ws) (order2 ws cs) (rank_weight ws (nth 2 cs 1)).
Definition order4 (ws : vec) (cs : list Q) : ten4 :=
  level4 (length ws) (order3 ws cs) (rank_weight ws (nth 3 cs 1)).

(** The instance with its first [k] cache slots filled. *)
Definition state_at (ws : vec) (cref : loc) (cs : list Q) (k : nat) : ProbProber :=
  mkProbProber ws cref
    (if (1 <=? k)%nat then Some (order1 ws cs) else None)
    (if (2 <=? k)%nat then Some (order2 ws cs) else None)
    (if (3 <=? k)%nat then Some (order3 ws cs) else None)
    (if (4 <=? k)%nat then Some (order4 ws cs) else None).

(** How many levels [transform(pool)] gets to with [n] competitors, and
    what it returns or raises. *)
Definition reach (pool : string) (n : nat) : nat :=
  if (pool =? "win")%string then 1%nat else
  if (n <=? 2)%nat then 1%nat else
  if (pool =? "quinella")%string then 2%nat else
  if (n <=? 3)%nat then 2%nat else
  if existsb (String.eqb pool) ["tierce"; "trio"; "place"; "place_q"]%string
  then 3%nat else
  if (n <=? 4)%nat then 3%nat else 4%nat.

Definition outcome (ws : vec) (cs : list Q) (pool : string) : error + ndarray :=
  let n := length ws in
  if (pool =? "win")%string then inr (Arr1 (order1 ws cs)) else
  if (n <=? 2)%nat then inl (NotEnoughCompetitors 2) else
  if (pool =? "quinella")%string then inr (Arr2 (quinella_of n (order2 ws cs))) else
  if (n <=? 3)%nat then inl (NotEnoughCompetitors 3) else
  if (pool =? "tierce")%string then inr (Arr3 (order3 ws cs)) else
  if (pool =? "trio")%string then inr (Arr3 (trio_of n (order3 ws cs))) else
  if (pool =? "place")%string
  then inr (Arr1 (place_of n (order1 ws cs) (order2 ws cs) (order3 ws cs))) else
  if (pool =? "place_q")%string
  then inr (Arr2 (place_q_of n (order2 ws cs) (order3 ws cs))) else
  if (n <=? 4)%nat then inl (NotEnoughCompetitors 4) else
  if (pool =? "quartet")%string then inr (Arr4 (order4 ws cs)) else
  inr (Arr4 (first_4_of n (order4 ws cs))).

(** The instances one gets from a new instance [s0] by calls of
    [transform], with any pool names, while the heap stays as it is. *)
Inductive reachable (h : heap) (s0 : ProbProber) : ProbProber -> Prop :=
| reach_new : reachable h s0 s0
| reach_call (s : ProbProber) (pool : string) :
    reachable h s0 s -> reachable h s0 (fst (transform h pool s)).

(** [np.power] keeps positive numbers positive. *)
Definition power_pos : Prop := forall x e, 0 < x -> 0 < power x e.

End Transform.

(** The weights are positive. *)
Definition all_pos (ws : vec) : Prop := Forall (fun w => 0 < w) ws.

(** The entry [i] of the loop of prob.py 105-111 clears the index tuple. *)
Definition hits (i a b c d : nat) : bool :=
  ((a =? i) && (b =? i) || (b =? i) && (c =? i) || (a =? i) && (c =? i) ||
   (c =? i) && (d =? i) || (b =? i) && (d =? i) || (a =? i) && (d =? i))%nat.

(** The bound that [transform] passes to [_check_dim] last on the way to
    the pool's output; [win] is returned before any check. *)
Definition least_dim_of (pool : string) : option nat :=
  if (pool =? "win")%string then None else
  if (pool =? "quinella")%string then Some 2%nat else
  if existsb (String.eqb pool) ["tierce"; "trio"; "place"; "place_q"]%string
  then Some 3%nat else Some 4%nat.

(** [np.power] at integer exponents, to run the model on concrete inputs. *)
Definition ipower (x e : Q) : Q := Qpower x (Qnum e).

End Prob.

(** ** kelly.py: class MultiKellyBettor *)

Module Kelly.
Import NP.

(** A competitor label: an integer (the default labels [range(len(odds))])
    or a string. *)
Abbreviation name := (nat + string)%type.

(** What the caller may pass for [odds] and [prob]: [np.array] makes an
    array of 0, 1 or 2 dimensions of it. *)
Inductive array_like : Type :=
| Scalar (x : Q)
| Seq1 (v : list Q)
| Seq2 (rows : list (list Q)).

Inductive error : Type :=
| DimensionNot1     (* 'The dimension of odds and prob must be 1.' *)
| LengthMismatch    (* 'The length of odds does not match the length of prob.' *)
| ProbSum           (* 'prob does not sum up to 1.' *)
| OddsRange         (* 'odds must be all larger than 1.' *)
| LabelLength       (* 'The length of label does not match.' *)
| IndexError        (* an index past the end of an array or list *)
| EmptyMin.         (* tmp.min() of an empty array *)

Record MultiKellyBettor : Type := mkMultiKellyBettor {
  odds : vec;
  prob : vec;
  label : list name
}.

Definition Qgt_bool (x y : Q) : bool := negb (Qle_bool x y).
Definition Qlt_bool (x y : Q) : bool := negb (Qle_bool y x).

(** [__init__(self, odds, prob, label)] (kelly.py 25-42). *)
Definition init (odds_arg prob_arg : array_like) (label_arg : list name)
    : error + MultiKellyBettor :=
  match odds_arg, prob_arg with
  | Seq1 o, Seq1 p =>
      if negb (length o =? length p)%nat then inl LengthMismatch
      else if Qgt_bool (vsum p - 1) 1e6 then inl ProbSum
      else if existsb (fun x => Qle_bool x 1) o then inl OddsRange
      else match label_arg with
           | [] => inr (mkMultiKellyBettor o p (map inl (seq 0 (length o))))
           | _ :: _ =>
               if negb (length o =? length label_arg)%nat then inl LabelLength
               else inr (mkMultiKellyBettor o p label_arg)
           end
  | _, _ => inl DimensionNot1
  end.

(** [np.argsort]: the indices that sort the keys in ascending order, by
    insertion; numpy leaves the order of equal keys open, here they keep
    their order. *)
Fixpoint insert_by (keys : vec) (i : nat) (sorted : list nat) : list nat :=
  match sorted with
  | [] => [i]
  | j :: r =>
      if Qlt_bool (get1 keys i) (get1 keys j) then i :: j :: r
      else j :: insert_by keys i r
  end.

Definition argsort (keys : vec) : list nat :=
  fold_left (fun sorted i => insert_by keys i sorted) (seq 0 (length keys)) [].

(** [a[indices]]. *)
Definition take_at (a : vec) (indices : list nat) : vec :=
  map (fun i => get1 a i) indices.

Fixpoint cumsum_from (acc : Q) (l : vec) : vec :=
  match l with
  | [] => []
  | x :: r => (acc + x) :: cumsum_from (acc + x) r
  end.

Definition cumsum (l : vec) : vec := cumsum_from 0 l.

(** The value of a float division: a number, or what IEEE gives when the
    divisor is zero. *)
Inductive ext : Type :=
| Fin (q : Q)
| PosInf
| NegInf
| NaN.

Definition fdiv (a b : Q) : ext :=
  if Qeq_bool b 0 then
    if Qeq_bool a 0 then NaN else if Qlt_bool 0 a then PosInf else NegInf
  else Fin (a / b).

Definition ext_pos (x : ext) : bool :=
  match x with
  | Fin q => Qlt_bool 0 q
  | PosInf => true
  | NegInf | NaN => false
  end.

(** Minimum of values that pass [ext_pos]. *)
Definition ext_min (x y : ext) : ext :=
  match x, y with
  | Fin a, Fin b => if Qle_bool a b then Fin a else Fin b
  | Fin a, _ => Fin a
  | _, Fin b => Fin b
  | _, _ => PosInf
  end.

(** [np.where(bf < 0, 0, bf)] of [bf = prob - v / odds]; with [v] infinite
    every entry of [bf] is minus infinity. *)
Definition bet_fraction (v : ext) (p o : Q) : Q :=
  match v with
  | Fin q => let bf := p - q / o in if Qlt_bool bf 0 then 0 else bf
  | _ => 0
  end.

(** [prop[self.label[indices[k]]] = bf[k]] for [k] in [ks]. *)
Fixpoint assign (labels : list name) (indices : list nat) (bf : vec)
    (ks : list nat) (prop : gmap name Q) : error + gmap name Q :=
  match ks with
  | [] => inr prop
  | k :: ks' =>
      match indices !! k with
      | None => inl IndexError
      | Some i =>
          match labels !! i, bf !! k with
          | Some lbl, Some b => assign labels indices bf ks' (<[lbl := b]> prop)
          | _, _ => inl IndexError
          end
      end
  end.

(** [{self.label[k] : 0 for k in range(len(self.odds))}]. *)
Fixpoint zero_prop (labels : list name) (ks : list nat) (prop : gmap name Q)
    : error + gmap name Q :=
  match ks with
  | [] => inr prop
  | k :: ks' =>
      match labels !! k with
      | None => inl IndexError
      | Some lbl => zero_prop labels ks' (<[lbl := 0]> prop)
      end
  end.

(** [transform(self)] (kelly.py 44-66). *)
Definition transform (self : MultiKellyBettor) : error + gmap name Q :=
  match zero_prop (label self) (seq 0 (length (odds self))) ∅ with
  | inl e => inl e
  | inr prop =>
      let eret := map (fun op => fst op * snd op) (combine (odds self) (prob self)) in
      let indices := rev (argsort eret) in
      let odds' := take_at (odds self) indices in
      let prob' := take_at (prob self) indices in
      let eret' := take_at eret indices in
      match eret' with
      | [] => inl IndexError
      | e0 :: _ =>
          if Qle_bool e0 1 then inr prop
          else
            let rodds := map (fun o => 1 / o) odds' in
            let csprob := cumsum prob' in
            let csrodds := cumsum rodds in
            let tmp := map (fun ab => fdiv (1 - fst ab) (1 - snd ab))
                           (combine csprob csrodds) in
            let tmp' := filter (fun x => ext_pos x = true) tmp in
            match tmp' with
            | [] => inl EmptyMin
            | t0 :: ts =>
                let v := fold_left ext_min ts t0 in
                let bf := map (fun po => bet_fraction v (fst po) (snd po))
                              (combine prob' odds') in
                assign (label self) indices bf (seq 0 (length tmp')) prop
            end
      end
  end.

(** The largest entry of a vector, if it has one. *)
Definition maximum (l : vec) : option Q :=
  match l with
  | [] => None
  | x :: r => Some (fold_left (fun a b => if Qle_bool a b then b else a) r x)
  end.

Definition eret_of (self : MultiKellyBettor) : vec :=
  map (fun op => fst op * snd op) (combine (odds self) (prob self)).

End Kelly.

(** ** Arrays up to the equality of rationals *)

Module Reduced.
Import NP Prob.

(** Arrays that agree entry by entry, up to [==]. *)
Definition veq (n : nat) (a b : vec) : Prop :=
  forall i, (i < n)%nat -> get1 a i == get1 b i.
Definition meq (n : nat) (a b : mat) : Prop :=
  forall i j, (i < n)%nat -> (j < n)%nat -> get2 a i j == get2 b i j.
Definition teq (n : nat) (a b : ten3) : Prop :=
  forall i j k, (i < n)%nat -> (j < n)%nat -> (k < n)%nat ->
    get3 a i j k == get3 b i j k.

(** The same arrays with every entry in lowest terms. *)
Definition red1 (v : vec) : vec := map Qred v.
Definition red2 (m : mat) : mat := map red1 m.
Definition red3 (t : ten3) : ten3 := map red2 t.

(** The win weights and the place probabilities of the example at the end of
    prob.py (lines 126-129), and the three order tensors of these weights in
    lowest terms. *)
Definition place_ws : vec := [0.1; 0.2; 0.2; 0.05; 0.05; 0.3; 0.1].
Definition place_expected : vec :=
  [0.3485; 0.5954; 0.5954; 0.1854; 0.1854; 0.7414; 0.3485].
Definition place_r1 : vec :=
  Eval vm_compute in red1 (rank_weight ipower place_ws 1).
Definition place_r2 : mat :=
  Eval vm_compute in red2 (level2 7 place_r1 place_r1).
Definition place_r3 : ten3 :=
  Eval vm_compute in red3 (level3 (fun _ _ => 0) 7 place_r2 place_r1).

End Reduced.

(** ** The orders of an index quadruple *)

Module Orders.
Import NP.

(** The sum of the entries of a four-dimensional array at the 24 orders of
    an index quadruple: what an entry of [first_4] is made of. *)
Definition orders4 (t : ten4) (a b c d : nat) : Q :=
  get4 t a b c d + get4 t a b d c + get4 t a c b d + get4 t a c d b +
  get4 t a d b c + get4 t a d c b + get4 t b a c d + get4 t b a d c +
  get4 t b c a d + get4 t b c d a + get4 t b d a c + get4 t b d c a +
  get4 t c a b d + get4 t c a d b + get4 t c b a d + get4 t c b d a +
  get4 t c d a b + get4 t c d b a + get4 t d a b c + get4 t d a c b +
  get4 t d b a c + get4 t d b c a + get4 t d c a b + get4 t d c b a.

End Orders.

(** ** The range of weights where rounding stays small *)

Module Range.
Import NP Prob.

(** The powers of the weights at the coefficient [ck] lie between 2^-40 and
    2^40, so that neither their sum nor a quotient overflows, underflows or,
    for integer weights, wraps; and no rank weight is below 2^-20, so that a
    difference [1 - p_i - p_j] (or [1 - p_i - p_j - p_k]) at different
    indices, at least the rank weight of any other competitor, keeps 30
    bits of its digits in doubles. *)
Definition well_scaled (power : Q -> Q -> Q) (ws : vec) (ck : Q) : bool :=
  forallb (fun w => Qle_bool (1 # 1099511627776) (power w ck) &&
                    Qle_bool (power w ck) 1099511627776) ws &&
  forallb (fun r => Qle_bool (1 # 1048576) r) (rank_weight power ws ck).

(** The same for the four coefficients that [transform] reads. *)
Definition well_conditioned (power : Q -> Q -> Q) (ws : vec) (cs : list Q) : bool :=
  forallb (fun k => well_scaled power ws (nth k cs 1)) (seq 0 4).

(** No level-3 rank weight is within 2^-20 of 1/2: the difference
    [1 - p_i - p_i] on the diagonal of [comp] (prob.py 73) is not 0, in
    doubles as in exact arithmetic. *)
Definition away_from_half (power : Q -> Q -> Q) (ws : vec) (cs : list Q) : bool :=
  forallb (fun r => Qle_bool (1 # 1048576) (Qabs (r - (1 # 2))))
          (rank_weight power ws (nth 2 cs 1)).

End Range.

(** ** The levels of prob.py in binary64 *)

Module Binary64.
Import NP PrimFloat.
Local Open Scope float_scope.

(** The computations of prob.py 50-51 and 59-77 once more, with the
    operations of IEEE doubles in the place of the exact ones, for the
    default coefficients: [np.power(x, 1)] is [x]. *)
Definition get1 (v : list float) (i : nat) : float := nth i v 0.
Definition get2 (m : list (list float)) (i j : nat) : float := get1 (nth i m []) j.
Definition get3 (t : list (list (list float))) (i j k : nat) : float :=
  get2 (nth i t []) j k.

(** [a.sum()] of a one-dimensional array of fewer than 8 doubles: numpy
    adds them from the left. *)
Definition vsum (v : list float) : float := fold_left add v (-0).

(** [nppow = np.power(self.wos, 1); nppow / nppow.sum()]. *)
Definition rank_weight (ws : list float) : list float :=
  let nppow := ws in
  let s := vsum nppow in
  map (fun x => x / s) nppow.

(** prob.py 61-62. *)
Definition level2 (dim : nat) (pi p_i2 : list float) : list (list float) :=
  let ratio := tab dim (fun b => get1 pi b / (1 - get1 p_i2 b)) in
  let prod := tab2 dim (fun a b => get1 p_i2 a * get1 ratio b) in
  tab2 dim (fun a b => if (a =? b)%nat then 0 else get2 prod a b).

(** [comp = 1 - comp - comp.T] of prob.py 72-73. *)
Definition comp3 (dim : nat) (p_i3 : list float) : list (list float) :=
  tab2 dim (fun i j => 1 - get1 p_i3 i - get1 p_i3 j).

(** prob.py 74-77; [uninit2] is what the memory holds where
    [np.divide(..., where = comp != 0)] does not write. *)
Definition level3 (uninit2 : nat -> nat -> float) (dim : nat)
    (pij : list (list float)) (p_i3 : list float) : list (list (list float)) :=
  let comp := comp3 dim p_i3 in
  let quot := tab2 dim (fun i j =>
                if eqb (get2 comp i j) 0 then uninit2 i j
                else get2 pij i j / get2 comp i j) in
  let prod := tab3 dim (fun i j k => get2 quot i j * get1 p_i3 k) in
  tab3 dim (fun i j k =>
    if ((k =? i)%nat || (k =? j)%nat)%bool then 0 else get3 prod i j k).

(** [transform('tierce')] on a new instance with the default coefficients. *)
Definition tierce (uninit2 : nat -> nat -> float) (ws : list float)
    : list (list (list float)) :=
  let dim := length ws in
  let p := rank_weight ws in
  level3 uninit2 dim (level2 dim p p) p.

(** The sum of the entries at pairwise different index triples. *)
Fixpoint bigsum (n : nat) (f : nat -> float) : float :=
  match n with
  | O => 0
  | S m => bigsum m f + f m
  end.

Definition sum_distinct3 (n : nat) (t : list (list (list float))) : float :=
  bigsum n (fun i => bigsum n (fun j => bigsum n (fun k =>
    if distinct [i; j; k] then get3 t i j k else 0))).

(** No entry of [comp] is 0. *)
Definition all_nonzero (m : list (list float)) : bool :=
  forallb (forallb (fun x => negb (eqb x 0))) m.

End Binary64.

(** ** Facts about the array operations *)

Module NPFacts.
Import NP.

Lemma length_tab {A : Type} (n : nat) (f : nat -> A) : length (tab n f) = n.
Proof. unfold tab. now rewrite List.length_map, List.length_seq. Qed.

Lemma nth_tab {A : Type} (n : nat) (f : nat -> A) (d : A) (i : nat) :
  (i < n)%nat -> nth i (tab n f) d = f i.
Proof.
  intros Hi. unfold tab.
  rewrite (nth_indep _ d (f O)) by (rewrite List.length_map, List.length_seq; lia).
  rewrite (map_nth f (seq 0 n) O i), seq_nth by lia. reflexivity.
Qed.

Lemma get1_tab (n : nat) (f : nat -> Q) (i : nat) :
  (i < n)%nat -> get1 (tab n f) i = f i.
Proof. apply nth_tab. Qed.

Lemma get2_tab2 (n : nat) (f : nat -> nat -> Q) (i j : nat) :
  (i < n)%nat -> (j < n)%nat -> get2 (tab2 n f) i j = f i j.
Proof.
  intros Hi Hj. unfold get2, tab2. rewrite nth_tab by lia. now apply get1_tab.
Qed.

Lemma get3_tab3 (n : nat) (f : nat -> nat -> nat -> Q) (i j k : nat) :
  (i < n)%nat -> (j < n)%nat -> (k < n)%nat -> get3 (tab3 n f) i j k = f i j k.
Proof.
  intros Hi Hj Hk. unfold get3, tab3. rewrite nth_tab by lia. now apply get2_tab2.
Qed.

Lemma get4_tab4 (n : nat) (f : nat -> nat -> nat -> nat -> Q) (i j k l : nat) :
  (i < n)%nat -> (j < n)%nat -> (k < n)%nat -> (l < n)%nat ->
  get4 (tab4 n f) i j k l = f i j k l.
Proof.
  intros Hi Hj Hk Hl. unfold get4, tab4. rewrite nth_tab by lia. now apply get3_tab3.
Qed.

(** *** Finite sums *)

Lemma bigsum_ext (n : nat) (f g : nat -> Q) :
  (forall i, (i < n)%nat -> f i == g i) -> bigsum n f == bigsum n g.
Proof.
  induction n as [|n IH]; intros H; simpl; [reflexivity|].
  rewrite IH, (H n) by (intros; try apply H; lia). reflexivity.
Qed.

Lemma bigsum_zero (n : nat) (f : nat -> Q) :
  (forall i, (i < n)%nat -> f i == 0) -> bigsum n f == 0.
Proof.
  induction n as [|n IH]; intros H; simpl; [reflexivity|].
  rewrite IH, (H n) by (intros; try apply H; lia). reflexivity.
Qed.

Lemma bigsum_scale (n : nat) (a : Q) (f : nat -> Q) :
  bigsum n (fun i => a * f i) == a * bigsum n f.
Proof. induction n as [|n IH]; simpl; [ring | rewrite IH; ring]. Qed.

Lemma bigsum_plus (n : nat) (f g : nat -> Q) :
  bigsum n (fun i => f i + g i) == bigsum n f + bigsum n g.
Proof. induction n as [|n IH]; simpl; [ring | rewrite IH; ring]. Qed.

Lemma bigsum_minus (n : nat) (f g : nat -> Q) :
  bigsum n (fun i => f i - g i) == bigsum n f - bigsum n g.
Proof. induction n as [|n IH]; simpl; [ring | rewrite IH; ring]. Qed.

Lemma bigsum_swap (n m : nat) (f : nat -> nat -> Q) :
  bigsum n (fun i => bigsum m (fun j => f i j)) ==
  bigsum m (fun j => bigsum n (fun i => f i j)).
Proof.
  induction n as [|n IH]; simpl.
  - symmetry. apply bigsum_zero. reflexivity.
  - rewrite IH, <- bigsum_plus. reflexivity.
Qed.

(** A sum that keeps one term. *)
Lemma bigsum_delta (n i : nat) (f : nat -> Q) :
  (i < n)%nat -> bigsum n (fun k => if (k =? i)%nat then f k else 0) == f i.
Proof.
  induction n as [|n IH]; intros Hi; [lia|]. simpl.
  destruct (Nat.eqb_spec n i) as [->|Hne].
  - rewrite bigsum_zero; [ring|].
    intros k Hk. destruct (Nat.eqb_spec k i); [lia | reflexivity].
  - rewrite IH by lia. ring.
Qed.

Lemma bigsum_nonneg (n : nat) (f : nat -> Q) :
  (forall i, (i < n)%nat -> 0 <= f i) -> 0 <= bigsum n f.
Proof.
  induction n as [|n IH]; intros H; simpl; [apply Qle_refl|].
  assert (0 <= bigsum n f) by (apply IH; intros; apply H; lia).
  assert (0 <= f n) by (apply H; lia). lra.
Qed.

Lemma bigsum_ge_term (n i : nat) (f : nat -> Q) :
  (forall k, (k < n)%nat -> 0 <= f k) -> (i < n)%nat -> f i <= bigsum n f.
Proof.
  induction n as [|n IH]; intros H Hi; [lia|]. simpl.
  assert (0 <= bigsum n f) by (apply bigsum_nonneg; intros; apply H; lia).
  assert (0 <= f n) by (apply H; lia).
  destruct (Nat.eq_dec i n) as [->|Hne]; [lra|].
  assert (f i <= bigsum n f) by (apply IH; [intros; apply H|]; lia). lra.
Qed.

Lemma bigsum_shift (n : nat) (f : nat -> Q) :
  bigsum (S n) f == f O + bigsum n (fun i => f (S i)).
Proof.
  induction n as [|n IH]; [simpl; ring|].
  change (bigsum (S (S n)) f) with (bigsum (S n) f + f (S n)).
  rewrite IH. simpl. ring.
Qed.

Lemma vsum_bigsum (v : vec) : vsum v == bigsum (length v) (get1 v).
Proof.
  induction v as [|x v IH]; [reflexivity|].
  change (length (x :: v)) with (S (length v)).
  rewrite bigsum_shift. simpl. rewrite IH. reflexivity.
Qed.

Lemma vsum_scale (v : vec) (s : Q) : vsum (map (fun x => x / s) v) == vsum v / s.
Proof.
  induction v as [|x v IH]; simpl.
  - unfold Qdiv. ring.
  - rewrite IH. unfold Qdiv. ring.
Qed.

(** *** Pairwise-distinct index tuples *)

Lemma distinct2 (i j : nat) : distinct [i; j] = negb (i =? j)%nat.
Proof. simpl. now rewrite orb_false_r, !andb_true_r. Qed.

Lemma distinct3 (i j k : nat) :
  distinct [i; j; k] = negb (i =? j)%nat && negb (i =? k)%nat && negb (j =? k)%nat.
Proof.
  simpl. rewrite !orb_false_r, !andb_true_r, negb_orb. reflexivity.
Qed.

Lemma distinct4 (i j k l : nat) :
  distinct [i; j; k; l] =
  negb (i =? j)%nat && negb (i =? k)%nat && negb (i =? l)%nat &&
  negb (j =? k)%nat && negb (j =? l)%nat && negb (k =? l)%nat.
Proof.
  simpl. rewrite !orb_false_r, !andb_true_r, !negb_orb, !andb_assoc. reflexivity.
Qed.

Lemma distinct2_spec (i j : nat) : distinct [i; j] = true <-> i <> j.
Proof. rewrite distinct2. destruct (Nat.eqb_spec i j); simpl; split; congruence. Qed.

Lemma distinct3_spec (i j k : nat) :
  distinct [i; j; k] = true <-> i <> j /\ i <> k /\ j <> k.
Proof.
  rewrite distinct3.
  destruct (Nat.eqb_spec i j), (Nat.eqb_spec i k), (Nat.eqb_spec j k); simpl;
    split; intros; try congruence; try lia; tauto.
Qed.

Lemma distinct4_spec (i j k l : nat) :
  distinct [i; j; k; l] = true <->
  i <> j /\ i <> k /\ i <> l /\ j <> k /\ j <> l /\ k <> l.
Proof.
  rewrite distinct4.
  destruct (Nat.eqb_spec i j), (Nat.eqb_spec i k), (Nat.eqb_spec i l),
    (Nat.eqb_spec j k), (Nat.eqb_spec j l), (Nat.eqb_spec k l); simpl;
    split; intros; try congruence; try lia; tauto.
Qed.

(** Leaving one, two or three indices out of a sum. *)
Lemma bigsum_except1 (n i : nat) (f : nat -> Q) :
  (i < n)%nat ->
  bigsum n (fun k => if distinct [i; k] then f k else 0) == bigsum n f - f i.
Proof.
  intros Hi.
  rewrite <- (bigsum_delta n i f Hi), <- bigsum_minus.
  apply bigsum_ext. intros k _. rewrite distinct2, Nat.eqb_sym.
  destruct (k =? i)%nat; simpl; ring.
Qed.

Lemma bigsum_except2 (n i j : nat) (f : nat -> Q) :
  (i < n)%nat -> (j < n)%nat -> i <> j ->
  bigsum n (fun k => if distinct [i; j; k] then f k else 0) ==
  bigsum n f - f i - f j.
Proof.
  intros Hi Hj Hij.
  rewrite <- (bigsum_delta n i f Hi), <- (bigsum_delta n j f Hj), <- !bigsum_minus.
  apply bigsum_ext. intros k _. rewrite distinct3.
  destruct (Nat.eqb_spec i j), (Nat.eqb_spec i k), (Nat.eqb_spec j k),
    (Nat.eqb_spec k i), (Nat.eqb_spec k j); simpl; try lia; ring.
Qed.

Lemma bigsum_except3 (n i j k : nat) (f : nat -> Q) :
  (i < n)%nat -> (j < n)%nat -> (k < n)%nat -> i <> j -> i <> k -> j <> k ->
  bigsum n (fun l => if distinct [i; j; k; l] then f l else 0) ==
  bigsum n f - f i - f j - f k.
Proof.
  intros Hi Hj Hk Hij Hik Hjk.
  rewrite <- (bigsum_delta n i f Hi), <- (bigsum_delta n j f Hj),
    <- (bigsum_delta n k f Hk), <- !bigsum_minus.
  apply bigsum_ext. intros l _. rewrite distinct4.
  destruct (Nat.eqb_spec i j), (Nat.eqb_spec i k), (Nat.eqb_spec j k),
    (Nat.eqb_spec i l), (Nat.eqb_spec j l), (Nat.eqb_spec k l),
    (Nat.eqb_spec l i), (Nat.eqb_spec l j), (Nat.eqb_spec l k);
    simpl; try lia; ring.
Qed.

End NPFacts.

(** ** Facts about the order tensors *)

Module LevelFacts.
Import NP Prob NPFacts.

Lemma get1_map (g : Q -> Q) (v : vec) (i : nat) :
  (i < length v)%nat -> get1 (map g v) i = g (get1 v i).
Proof.
  intros Hi. unfold get1.
  rewrite (nth_indep _ 0 (g 0)) by (rewrite List.length_map; lia).
  apply map_nth.
Qed.

Lemma vsum_pos (v : vec) :
  v <> [] -> (forall i, (i < length v)%nat -> 0 < get1 v i) -> 0 < vsum v.
Proof.
  intros Hne Hpos. rewrite vsum_bigsum.
  destruct v as [|x v]; [congruence|].
  apply Qlt_le_trans with (get1 (x :: v) O).
  - apply Hpos. simpl. lia.
  - apply bigsum_ge_term; [|simpl; lia].
    intros k Hk. apply Qlt_le_weak. now apply Hpos.
Qed.

Lemma bigsum_pos_term (n i : nat) (f : nat -> Q) :
  (forall k, (k < n)%nat -> 0 <= f k) -> (i < n)%nat -> 0 < f i -> 0 < bigsum n f.
Proof.
  intros Hf Hi Hpos. apply Qlt_le_trans with (f i); [assumption|].
  now apply bigsum_ge_term.
Qed.

(** What is left of a probability vector after one, two or three entries
    are taken out is positive, as long as one more entry remains. *)
Lemma prob_vec_rest1 (n : nat) (v : vec) (i : nat) :
  prob_vec n v -> (2 <= n)%nat -> (i < n)%nat -> 0 < 1 - get1 v i.
Proof.
  intros [Hpos Hsum] Hn Hi.
  rewrite <- Hsum, <- (bigsum_except1 n i (get1 v) Hi).
  assert (Hk : exists k, (k < n)%nat /\ k <> i)
    by (destruct (Nat.eq_dec i O); [exists 1%nat | exists O]; lia).
  destruct Hk as (k & Hk & Hki).
  apply (bigsum_pos_term n k); [|assumption|].
  - intros m Hm. destruct (distinct [i; m]); [|apply Qle_refl].
    apply Qlt_le_weak. now apply Hpos.
  - replace (distinct [i; k]) with true
      by (symmetry; apply distinct2_spec; lia).
    now apply Hpos.
Qed.

Lemma prob_vec_rest2 (n : nat) (v : vec) (i j : nat) :
  prob_vec n v -> (3 <= n)%nat -> (i < n)%nat -> (j < n)%nat -> i <> j ->
  0 < 1 - get1 v i - get1 v j.
Proof.
  intros [Hpos Hsum] Hn Hi Hj Hij.
  rewrite <- Hsum, <- (bigsum_except2 n i j (get1 v) Hi Hj Hij).
  assert (Hk : exists k, (k < n)%nat /\ k <> i /\ k <> j).
  { assert (H : ((0 <> i /\ 0 <> j) \/ (1 <> i /\ 1 <> j) \/
                 (2 <> i /\ 2 <> j))%nat) by lia.
    destruct H as [H|[H|H]];
      [exists 0%nat | exists 1%nat | exists 2%nat]; lia. }
  destruct Hk as (k & Hk & Hki & Hkj).
  apply (bigsum_pos_term n k); [|assumption|].
  - intros m Hm. destruct (distinct [i; j; m]); [|apply Qle_refl].
    apply Qlt_le_weak. now apply Hpos.
  - replace (distinct [i; j; k]) with true
      by (symmetry; apply distinct3_spec; lia).
    now apply Hpos.
Qed.

Lemma prob_vec_rest3 (n : nat) (v : vec) (i j k : nat) :
  prob_vec n v -> (4 <= n)%nat -> (i < n)%nat -> (j < n)%nat -> (k < n)%nat ->
  i <> j -> i <> k -> j <> k ->
  0 < 1 - get1 v i - get1 v j - get1 v k.
Proof.
  intros [Hpos Hsum] Hn Hi Hj Hk Hij Hik Hjk.
  rewrite <- Hsum, <- (bigsum_except3 n i j k (get1 v) Hi Hj Hk Hij Hik Hjk).
  assert (Hl : exists l, (l < n)%nat /\ l <> i /\ l <> j /\ l <> k).
  { assert (H : ((0 <> i /\ 0 <> j /\ 0 <> k) \/ (1 <> i /\ 1 <> j /\ 1 <> k) \/
                 (2 <> i /\ 2 <> j /\ 2 <> k) \/
                 (3 <> i /\ 3 <> j /\ 3 <> k))%nat) by lia.
    destruct H as [H|[H|[H|H]]];
      [exists 0%nat | exists 1%nat | exists 2%nat | exists 3%nat]; lia. }
  destruct Hl as (l & Hl & Hli & Hlj & Hlk).
  apply (bigsum_pos_term n l); [|assumption|].
  - intros m Hm. destruct (distinct [i; j; k; m]); [|apply Qle_refl].
    apply Qlt_le_weak. now apply Hpos.
  - replace (distinct [i; j; k; l]) with true
      by (symmetry; apply distinct4_spec; lia).
    now apply Hpos.
Qed.

(** The loop that clears the slices of level 4. *)

Lemma clear4_entry (n : nat) (hit : nat -> nat -> nat -> nat -> bool) (t : ten4)
    (a b c d : nat) :
  (a < n)%nat -> (b < n)%nat -> (c < n)%nat -> (d < n)%nat ->
  get4 (clear4 n hit t) a b c d = if hit a b c d then 0 else get4 t a b c d.
Proof. intros. unfold clear4. now rewrite get4_tab4. Qed.

Lemma clear_slices_entry (n : nat) (t : ten4) (i a b c d : nat) :
  (a < n)%nat -> (b < n)%nat -> (c < n)%nat -> (d < n)%nat ->
  get4 (clear_slices n t i) a b c d =
  if hits i a b c d then 0 else get4 t a b c d.
Proof.
  intros Ha Hb Hc Hd. unfold clear_slices, hits.
  rewrite !clear4_entry by assumption.
  destruct (a =? i)%nat, (b =? i)%nat, (c =? i)%nat, (d =? i)%nat; reflexivity.
Qed.

Lemma clear_loop_entry (n : nat) (l : list nat) (t : ten4) (a b c d : nat) :
  (a < n)%nat -> (b < n)%nat -> (c < n)%nat -> (d < n)%nat ->
  get4 (fold_left (clear_slices n) l t) a b c d =
  if existsb (fun i => hits i a b c d) l then 0 else get4 t a b c d.
Proof.
  intros Ha Hb Hc Hd. revert t.
  induction l as [|i l IH]; intros t; simpl; [reflexivity|].
  rewrite IH, clear_slices_entry by assumption.
  destruct (hits i a b c d), (existsb _ l); reflexivity.
Qed.

Lemma hits_distinct (n : nat) (a b c d : nat) :
  (a < n)%nat -> (b < n)%nat -> (c < n)%nat -> (d < n)%nat ->
  existsb (fun i => hits i a b c d) (seq 0 n) = negb (distinct [a; b; c; d]).
Proof.
  intros Ha Hb Hc Hd.
  destruct (distinct [a; b; c; d]) eqn:Hdis; simpl.
  - apply distinct4_spec in Hdis.
    apply not_true_is_false. intros Hex.
    apply existsb_exists in Hex. destruct Hex as (i & _ & Hi).
    unfold hits in Hi.
    destruct (Nat.eqb_spec a i), (Nat.eqb_spec b i), (Nat.eqb_spec c i),
      (Nat.eqb_spec d i); simpl in Hi; try discriminate; lia.
  - apply existsb_exists.
    assert (Hne : ~ (a <> b /\ a <> c /\ a <> d /\ b <> c /\ b <> d /\ c <> d))
      by (intros H; apply distinct4_spec in H; congruence).
    assert (Hi : exists i, (i < n)%nat /\
               ((a = i /\ b = i) \/ (b = i /\ c = i) \/ (a = i /\ c = i) \/
                (c = i /\ d = i) \/ (b = i /\ d = i) \/ (a = i /\ d = i))).
    { destruct (Nat.eq_dec a b); [exists a; lia|].
      destruct (Nat.eq_dec a c); [exists a; lia|].
      destruct (Nat.eq_dec a d); [exists a; lia|].
      destruct (Nat.eq_dec b c); [exists b; lia|].
      destruct (Nat.eq_dec b d); [exists b; lia|].
      destruct (Nat.eq_dec c d); [exists c; lia|]. tauto. }
    destruct Hi as (i & Hilt & Hi). exists i. split.
    + apply in_seq. lia.
    + unfold hits.
      destruct (Nat.eqb_spec a i), (Nat.eqb_spec b i), (Nat.eqb_spec c i),
        (Nat.eqb_spec d i); simpl; try reflexivity; lia.
Qed.

Section Levels.

Variable power : Q -> Q -> Q.
Variable uninit2 : nat -> nat -> Q.
Variable uninit3 : nat -> nat -> nat -> Q.

Lemma all_pos_entry (ws : vec) (i : nat) :
  all_pos ws -> (i < length ws)%nat -> 0 < get1 ws i.
Proof.
  intros Hws. revert i. induction Hws as [|w ws Hw _ IH]; intros i Hi; simpl in Hi.
  - lia.
  - destruct i as [|i]; [exact Hw | apply IH; lia].
Qed.

Lemma length_rank_weight (ws : vec) (ck : Q) :
  length (rank_weight power ws ck) = length ws.
Proof. unfold rank_weight. now rewrite !List.length_map. Qed.

Lemma rank_weight_entry (ws : vec) (ck : Q) (i : nat) :
  (i < length ws)%nat ->
  get1 (rank_weight power ws ck) i =
  power (get1 ws i) ck / vsum (map (fun w => power w ck) ws).
Proof.
  intros Hi. unfold rank_weight.
  rewrite get1_map by (rewrite List.length_map; lia).
  now rewrite (get1_map (fun w => power w ck)).
Qed.

Lemma rank_weight_prob_vec (ws : vec) (ck : Q) :
  power_pos power -> all_pos ws -> ws <> [] ->
  prob_vec (length ws) (rank_weight power ws ck).
Proof.
  intros Hpow Hws Hne.
  assert (Hs : 0 < vsum (map (fun w => power w ck) ws)).
  { apply vsum_pos.
    - destruct ws; [congruence | discriminate].
    - intros i Hi. rewrite List.length_map in Hi.
      rewrite (get1_map (fun w => power w ck)) by assumption.
      apply Hpow. now apply all_pos_entry. }
  split.
  - intros i Hi. rewrite rank_weight_entry by assumption.
    apply Qlt_shift_div_l; [assumption|]. rewrite Qmult_0_l.
    apply Hpow. now apply all_pos_entry.
  - rewrite <- (length_rank_weight ws ck) at 1. rewrite <- vsum_bigsum.
    unfold rank_weight. rewrite vsum_scale. field. lra.
Qed.

(** *** Level 2 *)

Lemma level2_entry (n : nat) (pi p_i2 : vec) (i j : nat) :
  (i < n)%nat -> (j < n)%nat ->
  get2 (level2 n pi p_i2) i j =
  if (i =? j)%nat then 0 else get1 p_i2 i * (get1 pi j / (1 - get1 p_i2 j)).
Proof.
  intros Hi Hj. unfold level2.
  rewrite !get2_tab2, get1_tab by assumption. reflexivity.
Qed.

Lemma level2_sum (n : nat) (pi p_i2 : vec) :
  (2 <= n)%nat -> bigsum n (get1 pi) == 1 -> prob_vec n p_i2 ->
  sum_distinct2 n (level2 n pi p_i2) == 1.
Proof.
  intros Hn Hpi Hp2. unfold sum_distinct2.
  rewrite bigsum_swap, <- Hpi.
  apply bigsum_ext. intros j Hj.
  transitivity (bigsum n (fun i =>
    (get1 pi j / (1 - get1 p_i2 j)) * (if distinct [j; i] then get1 p_i2 i else 0))).
  { apply bigsum_ext. intros i Hi.
    rewrite level2_entry, !distinct2, (Nat.eqb_sym j i) by assumption.
    destruct (i =? j)%nat; simpl; ring. }
  rewrite bigsum_scale, (bigsum_except1 n j (get1 p_i2) Hj).
  destruct Hp2 as [Hpos Hsum]. rewrite Hsum.
  assert (0 < 1 - get1 p_i2 j) by (apply (prob_vec_rest1 n); [split| |]; assumption).
  field. lra.
Qed.

(** *** Level 3 *)

Lemma level3_entry (n : nat) (pij : mat) (p_i3 : vec) (i j k : nat) :
  (i < n)%nat -> (j < n)%nat -> (k < n)%nat ->
  get3 (level3 uninit2 n pij p_i3) i j k =
  if (k =? i)%nat then 0 else
  if (k =? j)%nat then 0 else
  (if Qeq_bool (1 - get1 p_i3 i - get1 p_i3 j) 0 then uninit2 i j
   else get2 pij i j / (1 - get1 p_i3 i - get1 p_i3 j)) * get1 p_i3 k.
Proof.
  intros Hi Hj Hk. unfold level3, clear_view_diag, transpose2.
  rewrite !get3_tab3 by assumption. simpl.
  rewrite !get2_tab2 by assumption. reflexivity.
Qed.

Lemma level3_sum (n : nat) (pij : mat) (p_i3 : vec) :
  (3 <= n)%nat -> sum_distinct2 n pij == 1 -> prob_vec n p_i3 ->
  sum_distinct3 n (level3 uninit2 n pij p_i3) == 1.
Proof.
  intros Hn Hpij Hp3. unfold sum_distinct3.
  rewrite <- Hpij. unfold sum_distinct2.
  apply bigsum_ext. intros i Hi. apply bigsum_ext. intros j Hj.
  destruct (distinct [i; j]) eqn:Hd.
  - apply distinct2_spec in Hd.
    assert (HD : 0 < 1 - get1 p_i3 i - get1 p_i3 j)
      by (now apply (prob_vec_rest2 n)).
    transitivity (bigsum n (fun k =>
      (get2 pij i j / (1 - get1 p_i3 i - get1 p_i3 j)) *
      (if distinct [i; j; k] then get1 p_i3 k else 0))).
    { apply bigsum_ext. intros k Hk.
      rewrite level3_entry by assumption.
      destruct (Qeq_bool _ 0) eqn:Hz; [apply Qeq_bool_eq in Hz; lra|].
      rewrite distinct3, (Nat.eqb_sym i k), (Nat.eqb_sym j k).
      destruct (i =? j)%nat, (k =? i)%nat, (k =? j)%nat; simpl; ring. }
    rewrite bigsum_scale, (bigsum_except2 n i j (get1 p_i3) Hi Hj Hd).
    destruct Hp3 as [_ Hsum]. rewrite Hsum. field. lra.
  - apply bigsum_zero. intros k _.
    rewrite distinct3. rewrite distinct2 in Hd.
    destruct (i =? j)%nat; [reflexivity | discriminate].
Qed.

(** *** Level 4 *)

Lemma level4_entry (n : nat) (pijk : ten3) (p_i4 : vec) (a b c d : nat) :
  (a < n)%nat -> (b < n)%nat -> (c < n)%nat -> (d < n)%nat ->
  get4 (level4 uninit3 n pijk p_i4) a b c d =
  if distinct [a; b; c; d] then
    (if Qeq_bool (1 - get1 p_i4 c - get1 p_i4 a - get1 p_i4 b) 0 then uninit3 a b c
     else get3 pijk a b c / (1 - get1 p_i4 c - get1 p_i4 a - get1 p_i4 b))
    * get1 p_i4 d
  else 0.
Proof.
  intros Ha Hb Hc Hd. unfold level4.
  rewrite clear_loop_entry, hits_distinct by assumption.
  destruct (distinct [a; b; c; d]); simpl; [|reflexivity].
  unfold transpose3. rewrite get4_tab4, !get3_tab3 by assumption.
  simpl. rewrite ?get3_tab3 by assumption. reflexivity.
Qed.

Lemma level4_sum (n : nat) (pijk : ten3) (p_i4 : vec) :
  (4 <= n)%nat -> sum_distinct3 n pijk == 1 -> prob_vec n p_i4 ->
  sum_distinct4 n (level4 uninit3 n pijk p_i4) == 1.
Proof.
  intros Hn Hpijk Hp4. unfold sum_distinct4.
  rewrite <- Hpijk. unfold sum_distinct3.
  apply bigsum_ext. intros i Hi. apply bigsum_ext. intros j Hj.
  apply bigsum_ext. intros k Hk.
  destruct (distinct [i; j; k]) eqn:Hd.
  - apply distinct3_spec in Hd. destruct Hd as (Hij & Hik & Hjk).
    assert (HD : 0 < 1 - get1 p_i4 i - get1 p_i4 j - get1 p_i4 k)
      by (now apply (prob_vec_rest3 n)).
    transitivity (bigsum n (fun l =>
      (get3 pijk i j k / (1 - get1 p_i4 k - get1 p_i4 i - get1 p_i4 j)) *
      (if distinct [i; j; k; l] then get1 p_i4 l else 0))).
    { apply bigsum_ext. intros l Hl.
      rewrite level4_entry by assumption.
      destruct (Qeq_bool _ 0) eqn:Hz; [apply Qeq_bool_eq in Hz; lra|].
      destruct (distinct [i; j; k; l]); ring. }
    rewrite bigsum_scale,
      (bigsum_except3 n i j k (get1 p_i4) Hi Hj Hk Hij Hik Hjk).
    destruct Hp4 as [_ Hsum]. rewrite Hsum. field. lra.
  - apply bigsum_zero. intros l _.
    rewrite distinct4. rewrite distinct3 in Hd.
    destruct (i =? j)%nat, (i =? k)%nat, (j =? k)%nat, (i =? l)%nat;
      simpl in Hd |- *; try reflexivity; discriminate.
Qed.

End Levels.
End LevelFacts.

(** ** Running [transform] *)

Module RunFacts.
Import NP Prob NPFacts LevelFacts.

Section Run.

Variable power : Q -> Q -> Q.
Variable uninit2 : nat -> nat -> Q.
Variable uninit3 : nat -> nat -> nat -> Q.

Lemma transform_state_at (h : heap) (ws : vec) (cref : nat) (cs : list Q)
    (pool : string) (k : nat) :
  deref h cref = cs -> (4 <= length cs)%nat -> In pool pools -> (k <= 4)%nat ->
  transform power uninit2 uninit3 h pool (state_at power uninit2 uninit3 ws cref cs k) =
  (state_at power uninit2 uninit3 ws cref cs (Nat.max k (reach pool (length ws))),
   outcome power uninit2 uninit3 ws cs pool).
Proof.
  intros Hc Hlen Hpool Hk.
  destruct cs as [|c1 [|c2 [|c3 [|c4 rest]]]]; simpl in Hlen; try lia.
  assert (Hk' : k = 0%nat \/ k = 1%nat \/ k = 2%nat \/ k = 3%nat \/ k = 4%nat) by lia.
  unfold pools in Hpool. simpl in Hpool.
  unfold transform, outcome, reach, state_at, load_p_i, load_p_ij, load_p_ijk,
    load_p_ijkl, coef, _check_dim, _check_pool, bind, gets, modify, ret, raise.
  destruct (length ws <=? 2)%nat eqn:E2, (length ws <=? 3)%nat eqn:E3,
    (length ws <=? 4)%nat eqn:E4;
    try (exfalso;
         repeat match goal with
                | H : (_ <=? _)%nat = true |- _ => apply Nat.leb_le in H
                | H : (_ <=? _)%nat = false |- _ => apply Nat.leb_gt in H
                end; lia);
    destruct Hk' as [->|[->|[->|[->| ->]]]];
    destruct Hpool as [<-|[<-|[<-|[<-|[<-|[<-|[<-|[<-|[]]]]]]]]];
    do 8 (cbn [existsb String.eqb Ascii.eqb Bool.eqb pools orb andb negb
               wos c p_i p_ij p_ijk p_ijkl Nat.leb Nat.max fst snd
               lookup list_lookup default nth];
          rewrite ?Hc, ?E2, ?E3, ?E4);
    reflexivity.
Qed.

Lemma state_at_slots (ws : vec) (cref : nat) (cs : list Q) (k : nat) :
  let s := state_at power uninit2 uninit3 ws cref cs k in
  ((1 <= k)%nat -> p_i s = Some (order1 power ws cs)) /\
  ((2 <= k)%nat -> p_ij s = Some (order2 power ws cs)) /\
  ((3 <= k)%nat -> p_ijk s = Some (order3 power uninit2 ws cs)) /\
  ((4 <= k)%nat -> p_ijkl s = Some (order4 power uninit2 uninit3 ws cs)).
Proof.
  unfold state_at. cbn [p_i p_ij p_ijk p_ijkl].
  repeat split; intros Hk;
    match goal with
    | |- (if (?a <=? k)%nat then _ else _) = _ =>
        destruct (Nat.leb_spec a k); [reflexivity | lia]
    end.
Qed.

Lemma transform_invalid_pool (h : heap) (pool : string) (s : ProbProber) :
  ~ In pool pools ->
  transform power uninit2 uninit3 h pool s = (s, inl (InvalidPool pool)).
Proof.
  intros Hnot. unfold transform, _check_pool, bind.
  replace (existsb (String.eqb pool) pools) with false; [reflexivity|].
  symmetry. apply not_true_is_false. intros Hex.
  apply existsb_exists in Hex. destruct Hex as (p & Hin & Heq).
  apply String.eqb_eq in Heq. now subst p.
Qed.

Lemma reach_bound (pool : string) (n : nat) :
  (reach pool n <= 4)%nat /\ (reach pool n <= 1 \/ reach pool n < n)%nat.
Proof.
  unfold reach.
  destruct (pool =? "win")%string; [lia|].
  destruct (Nat.leb_spec n 2); [lia|].
  destruct (pool =? "quinella")%string; [lia|].
  destruct (Nat.leb_spec n 3); [lia|].
  destruct (existsb _ _); [lia|].
  destruct (Nat.leb_spec n 4); lia.
Qed.

(** *** The constructor *)

Lemma init_instance (h : heap) (ws : vec) (cref : nat) (cs : list Q) :
  snd (init h ws cref) = state_at power uninit2 uninit3 ws cref cs 0.
Proof. reflexivity. Qed.

Lemma init_coefficients (h : heap) (ws : vec) (cref : nat) (cs : list Q) :
  h !! cref = Some cs ->
  fst (init h ws cref) !! cref = Some (cs ++ repeat 1 (4 - length cs)).
Proof.
  intros Hc. unfold init, deref, list_extend. rewrite Hc. simpl.
  destruct (Nat.ltb_spec (length cs) 4) as [Hlt|Hge]; simpl.
  - now rewrite lookup_alter_eq, Hc.
  - replace (4 - length cs)%nat with 0%nat by lia. simpl.
    now rewrite app_nil_r.
Qed.

Lemma init_coefficients_length (h : heap) (ws : vec) (cref : nat) (cs : list Q) :
  h !! cref = Some cs ->
  (4 <= length (deref (fst (init h ws cref)) cref))%nat.
Proof.
  intros Hc. unfold deref. rewrite (init_coefficients h ws cref cs Hc). simpl.
  rewrite List.length_app, repeat_length. lia.
Qed.

(** *** Reachable instances *)

Lemma reachable_state_at (h : heap) (ws : vec) (cref : nat) (cs : list Q)
    (s : ProbProber) :
  deref h cref = cs -> (4 <= length cs)%nat ->
  reachable power uninit2 uninit3 h (state_at power uninit2 uninit3 ws cref cs 0) s ->
  exists k, (k <= 4)%nat /\ (k <= 1 \/ k < length ws)%nat /\
            s = state_at power uninit2 uninit3 ws cref cs k.
Proof.
  intros Hc Hlen Hreach.
  induction Hreach as [|s pool _ (k & Hk & Hkn & ->)].
  - exists 0%nat. split; [lia | split; [lia | reflexivity]].
  - destruct (in_dec string_dec pool pools) as [Hin|Hnot].
    + rewrite (transform_state_at h ws cref cs pool k Hc Hlen Hin Hk). simpl.
      destruct (reach_bound pool (length ws)) as [H4 Hn].
      exists (Nat.max k (reach pool (length ws))).
      split; [lia | split; [lia | reflexivity]].
    + rewrite transform_invalid_pool by assumption. simpl.
      exists k. split; [assumption | split; [assumption | reflexivity]].
Qed.

(** *** The order tensors sum to 1 *)

Section Sums.

Variable ws : vec.
Variable cs : list Q.

Lemma order1_prob_vec :
  power_pos power -> all_pos ws -> (1 <= length ws)%nat ->
  prob_vec (length ws) (order1 power ws cs).
Proof.
  intros Hpow Hws Hn. apply rank_weight_prob_vec; try assumption.
  destruct ws; [simpl in Hn; lia | discriminate].
Qed.

Lemma order1_sum :
  power_pos power -> all_pos ws -> (1 <= length ws)%nat ->
  vsum (order1 power ws cs) == 1.
Proof.
  intros Hpow Hws Hn. rewrite vsum_bigsum.
  unfold order1 at 1. rewrite length_rank_weight.
  now apply order1_prob_vec.
Qed.

Lemma order2_sum :
  power_pos power -> all_pos ws -> (2 <= length ws)%nat ->
  sum_distinct2 (length ws) (order2 power ws cs) == 1.
Proof.
  intros Hpow Hws Hn. apply level2_sum; [assumption | |].
  - apply order1_prob_vec; try assumption. lia.
  - apply rank_weight_prob_vec; try assumption.
    destruct ws; [simpl in Hn; lia | discriminate].
Qed.

Lemma order3_sum :
  power_pos power -> all_pos ws -> (3 <= length ws)%nat ->
  sum_distinct3 (length ws) (order3 power uninit2 ws cs) == 1.
Proof.
  intros Hpow Hws Hn. apply level3_sum; [assumption | |].
  - apply order2_sum; try assumption. lia.
  - apply rank_weight_prob_vec; try assumption.
    destruct ws; [simpl in Hn; lia | discriminate].
Qed.

Lemma order4_sum :
  power_pos power -> all_pos ws -> (4 <= length ws)%nat ->
  sum_distinct4 (length ws) (order4 power uninit2 uninit3 ws cs) == 1.
Proof.
  intros Hpow Hws Hn. apply level4_sum; [assumption | |].
  - apply order3_sum; try assumption. lia.
  - apply rank_weight_prob_vec; try assumption.
    destruct ws; [simpl in Hn; lia | discriminate].
Qed.

End Sums.

End Run.

Lemma ipower_pos : power_pos ipower.
Proof. intros x e Hx. unfold ipower. now apply Qpower_0_lt. Qed.

Lemma reach_lower (pool : string) (n : nat) :
  In pool pools ->
  (pool <> "win"%string -> 2 < n -> 2 <= reach pool n)%nat /\
  (In pool ["tierce"; "trio"; "place"; "place_q"; "quartet"; "first_4"]%string ->
   3 < n -> 3 <= reach pool n)%nat /\
  (In pool ["quartet"; "first_4"]%string -> 4 < n -> 4 <= reach pool n)%nat.
Proof.
  intros Hin. unfold pools in Hin. simpl in Hin.
  destruct Hin as [<-|[<-|[<-|[<-|[<-|[<-|[<-|[<-|[]]]]]]]]];
    unfold reach; simpl;
    destruct (Nat.leb_spec n 2), (Nat.leb_spec n 3), (Nat.leb_spec n 4);
    repeat split; intros; try lia; try congruence;
    repeat match goal with
           | H : _ \/ _ |- _ => destruct H
           | H : False |- _ => destruct H
           end; try discriminate; try lia.
Qed.

Section Calls.

Variable power : Q -> Q -> Q.
Variable uninit2 : nat -> nat -> Q.
Variable uninit3 : nat -> nat -> nat -> Q.

(** A call of [transform] on a reachable instance: where the instance gets
    to and what the call gives. *)
Lemma transform_reachable (h : heap) (ws : vec) (cref : nat) (cs : list Q)
    (s : ProbProber) (pool : string) :
  h !! cref = Some cs ->
  let h1 := fst (init h ws cref) in
  let cs1 := deref h1 cref in
  reachable power uninit2 uninit3 h1 (snd (init h ws cref)) s ->
  In pool pools ->
  exists k, (reach pool (length ws) <= k <= 4)%nat /\
    transform power uninit2 uninit3 h1 pool s =
    (state_at power uninit2 uninit3 ws cref cs1 k,
     outcome power uninit2 uninit3 ws cs1 pool).
Proof.
  intros Hc h1 cs1 Hreach Hin.
  assert (Hlen : (4 <= length cs1)%nat) by (now apply (init_coefficients_length h ws cref cs)).
  rewrite (init_instance power uninit2 uninit3 h ws cref cs1) in Hreach.
  destruct (reachable_state_at power uninit2 uninit3 h1 ws cref cs1 s eq_refl Hlen Hreach)
    as (k & Hk & _ & ->).
  exists (Nat.max k (reach pool (length ws))).
  destruct (reach_bound pool (length ws)) as [H4 _].
  split; [lia|].
  now apply transform_state_at.
Qed.

End Calls.

End RunFacts.

(** ** The range hypotheses *)

Module RangeFacts.
Import NP Prob Range NPFacts LevelFacts.

Lemma away_from_half_spec (power : Q -> Q -> Q) (ws : vec) (cs : list Q) (i : nat) :
  away_from_half power ws cs = true -> (i < length ws)%nat ->
  ~ get1 (rank_weight power ws (nth 2 cs 1)) i == 1 # 2.
Proof.
  intros Hh Hi Heq. unfold away_from_half in Hh. rewrite forallb_forall in Hh.
  assert (Hin : In (get1 (rank_weight power ws (nth 2 cs 1)) i)
                   (rank_weight power ws (nth 2 cs 1)))
    by (apply nth_In; now rewrite length_rank_weight).
  specialize (Hh _ Hin). apply Qle_bool_iff in Hh.
  assert (Hz : get1 (rank_weight power ws (nth 2 cs 1)) i - (1 # 2) == 0) by lra.
  rewrite Hz in Hh. vm_compute in Hh. now apply Hh.
Qed.

End RangeFacts.

Module OrderClaims.
Import NP Prob Range NPFacts LevelFacts RunFacts.

Section Claims.

Variable power : Q -> Q -> Q.
Variable uninit2 : nat -> nat -> Q.
Variable uninit3 : nat -> nat -> nat -> Q.

(** The entries of [p_ij] in exact arithmetic.  For positive weights, at
    least three competitors and any coefficient list, [p_ij[i,j]] is
    [p_i2[i] * p_i[j] / (1 - p_i2[j])] for [i <> j], with a nonzero
    denominator, and the diagonal is exactly 0: the competitor whose rank
    weight is taken out of the denominator is the index of axis 1. *)
Lemma level2_entries (h : heap) (ws : vec) (cref : nat) (cs : list Q)
    (s : ProbProber) (pool : string) :
  power_pos power -> all_pos ws -> h !! cref = Some cs ->
  let h1 := fst (init h ws cref) in
  reachable power uninit2 uninit3 h1 (snd (init h ws cref)) s ->
  let n := length ws in
  (2 < n)%nat -> In pool pools -> pool <> "win"%string ->
  let s1 := fst (transform power uninit2 uninit3 h1 pool s) in
  let rw2 := rank_weight power ws (nth 1 (deref h1 cref) 1) in
  exists v m, p_i s1 = Some v /\ p_ij s1 = Some m /\
    forall i j, (i < n)%nat -> (j < n)%nat ->
      get2 m i i = 0 /\
      ~ 1 - get1 rw2 j == 0 /\
      (i <> j -> get2 m i j == get1 rw2 i * get1 v j / (1 - get1 rw2 j)).
Proof.
  intros Hpow Hws Hc h1 Hreach n Hn Hin Hwin s1 rw2.
  destruct (transform_reachable power uninit2 uninit3 h ws cref cs s pool Hc Hreach Hin)
    as (k & Hk & Hrun).
  destruct (reach_lower pool (length ws) Hin) as (H2 & _ & _).
  specialize (H2 Hwin Hn).
  subst s1. unfold h1 in *. rewrite Hrun. cbn [fst].
  destruct (state_at_slots power uninit2 uninit3 ws cref
              (deref (fst (init h ws cref)) cref) k) as (S1 & S2 & _).
  eexists _, _. split; [apply S1; lia | split; [apply S2; lia|]].
  intros i j Hi Hj. unfold order2.
  assert (Hrw : prob_vec n rw2).
  { apply rank_weight_prob_vec; try assumption.
    intros Hnil. subst n. rewrite Hnil in Hn. simpl in Hn. lia. }
  assert (HD : 0 < 1 - get1 rw2 j) by (apply (prob_vec_rest1 n); [assumption | lia | assumption]).
  split; [|split].
  - rewrite level2_entry by assumption. now rewrite Nat.eqb_refl.
  - lra.
  - intros Hij. rewrite level2_entry by assumption.
    destruct (Nat.eqb_spec i j); [contradiction|].
    fold rw2. field. lra.
Qed.

(** C2, for weights in the range where rounding stays small.  For positive
    weights in that range and any coefficients, every order tensor that
    [transform] computes sums to 1 over the index tuples with pairwise
    distinct entries: level 1 with at least one competitor, level 2 with
    more than 2, level 3 with more than 3 and level 4 with more than 4
    competitors, for the pools that need the level.  The proof is in exact
    arithmetic and makes no use of the range, which says where the doubles
    of the code are the exact values but for rounding: there the
    differences [1 - p_i - p_j] at different indices are at least 2^-20,
    not 0 and not eaten by cancellation. *)
Theorem order_tensors_sum_to_one (h : heap) (ws : vec) (cref : nat) (cs : list Q)
    (s : ProbProber) (pool : string) :
  power_pos power -> all_pos ws -> h !! cref = Some cs ->
  let h1 := fst (init h ws cref) in
  well_conditioned power ws (deref h1 cref) = true ->
  reachable power uninit2 uninit3 h1 (snd (init h ws cref)) s ->
  let n := length ws in
  In pool pools ->
  let s1 := fst (transform power uninit2 uninit3 h1 pool s) in
  ((1 <= n)%nat -> exists v, p_i s1 = Some v /\ vsum v == 1) /\
  ((2 < n)%nat -> pool <> "win"%string ->
   exists m, p_ij s1 = Some m /\ sum_distinct2 n m == 1) /\
  ((3 < n)%nat ->
   In pool ["tierce"; "trio"; "place"; "place_q"; "quartet"; "first_4"]%string ->
   exists t, p_ijk s1 = Some t /\ sum_distinct3 n t == 1) /\
  ((4 < n)%nat -> In pool ["quartet"; "first_4"]%string ->
   exists t, p_ijkl s1 = Some t /\ sum_distinct4 n t == 1).
Proof.
  intros Hpow Hws Hc h1 _ Hreach n Hin s1.
  destruct (transform_reachable power uninit2 uninit3 h ws cref cs s pool Hc Hreach Hin)
    as (k & Hk & Hrun).
  destruct (reach_lower pool (length ws) Hin) as (H2 & H3 & H4).
  assert (H1 : (1 <= reach pool n)%nat).
  { unfold reach. destruct (pool =? "win")%string; [lia|].
    destruct (n <=? 2)%nat; [lia|]. destruct (pool =? "quinella")%string; [lia|].
    destruct (n <=? 3)%nat; [lia|]. destruct (existsb _ _); [lia|].
    destruct (n <=? 4)%nat; lia. }
  subst s1. unfold h1 in *. rewrite Hrun. cbn [fst]. fold n in H1, H2, H3, H4, Hk.
  destruct (state_at_slots power uninit2 uninit3 ws cref
              (deref (fst (init h ws cref)) cref) k) as (S1 & S2 & S3 & S4).
  split; [|split; [|split]].
  - intros Hn. eexists. split; [apply S1; lia|]. now apply order1_sum.
  - intros Hn Hwin. specialize (H2 Hwin Hn).
    eexists. split; [apply S2; lia|]. apply order2_sum; try assumption. fold n. lia.
  - intros Hn Hp. specialize (H3 Hp Hn).
    eexists. split; [apply S3; lia|]. apply order3_sum; try assumption. fold n. lia.
  - intros Hn Hp. specialize (H4 Hp Hn).
    eexists. split; [apply S4; lia|]. apply order4_sum; try assumption. fold n. lia.
Qed.

End Claims.

(** C1.  The comment of prob.py 31 (and the example of prob.py 131-132)
    put the competitor that is first on the first index: [p_ij[i,j]] is to
    be the probability that [i] is first and [j] second.  The product of
    prob.py 61 is the other way round.  For the weights 1, 2, 3 and the
    coefficients 1, 2, 1, 1 the win probabilities are 1/6, 1/3, 1/2 and the
    level-2 rank weights 1/14, 4/14, 9/14.  Harville's probability that 0 is
    first and 1 second is [1/6 * (4/14) / (1 - 1/14) = 2/39], and that 1 is
    first and 0 second is [1/3 * (1/14) / (1 - 4/14) = 1/30].  The code has
    1/30 at [0,1] and 2/39 at [1,0]; the formula of the claim gives 1/15 at
    [0,1]. *)
Theorem level2_winner_on_axis_1 :
  let h := <[1%nat := [1; 2]]> heap0 in
  let ws := [1; 2; 3] in
  let h1 := fst (init h ws 1%nat) in
  let s1 := fst (transform ipower (fun _ _ => 0) (fun _ _ _ => 0) h1 "quinella"
                   (snd (init h ws 1%nat))) in
  let rw2 := rank_weight ipower ws (nth 1 (deref h1 1%nat) 1) in
  exists v m, p_i s1 = Some v /\ p_ij s1 = Some m /\
    get1 v 0 * (get1 rw2 1 / (1 - get1 rw2 0)) == 2 # 39 /\
    get1 v 1 * (get1 rw2 0 / (1 - get1 rw2 1)) == 1 # 30 /\
    get2 m 0 1 == 1 # 30 /\ get2 m 1 0 == 2 # 39 /\
    get1 rw2 1 * get1 v 0 / (1 - get1 rw2 1) == 1 # 15.
Proof.
  eexists _, _. split; [reflexivity | split; [reflexivity|]].
  repeat split; vm_compute; reflexivity.
Qed.

End OrderClaims.

(** ** The sums of the order tensors in doubles *)

Module Binary64Claims.
Import NP PrimFloat.

(** C2 as it is stated, on the code's own numbers.  The weights 2^53, 2^53,
    3, 3 are positive and, with the default coefficients, no denominator
    [1 - p_i2] of level 2 and no entry of [comp = 1 - p_i3 - p_i3.T] of
    level 3 is 0 in doubles, so [np.divide] writes every place and the
    memory plays no part.  The rank weights of the first two competitors
    are just below 1/2, [1 - p_0 - p_1] is [4.44e-16] in doubles where the
    exact value is [3.33e-16], and the entries of [p_ijk] at pairwise
    different indices sum to [0.7499999999999996]: more than 1/4 away
    from 1. *)
Lemma order3_sum_in_doubles :
  let ws := [0x1p+53; 0x1p+53; 3; 3]%float in
  let p := Binary64.rank_weight ws in
  forallb (fun x => negb (eqb (1 - x) 0)) p = true /\
  Binary64.all_nonzero (Binary64.comp3 4 p) = true /\
  forall uninit2,
    let total := Binary64.sum_distinct3 4 (Binary64.tierce uninit2 ws) in
    total = 0x1.7fffffffffffcp-1%float /\
    ltb 0x1p-2 (abs (total - 1)) = true.
Proof.
  split; [|split; [|intros u; split]]; vm_compute; reflexivity.
Qed.

End Binary64Claims.

Module InstanceClaims.
Import NP Prob NPFacts LevelFacts RunFacts OrderClaims.

Lemma rank_weight_ext (power power' : Q -> Q -> Q) (ws : vec) (ck : Q) :
  (forall x, power x ck = power' x ck) ->
  rank_weight power ws ck = rank_weight power' ws ck.
Proof.
  intros Hext. unfold rank_weight.
  assert (Hmap : map (fun w => power w ck) ws = map (fun w => power' w ck) ws)
    by (apply map_ext; intros; apply Hext).
  now rewrite Hmap.
Qed.

Section Claims.

Variable power : Q -> Q -> Q.
Variable uninit2 : nat -> nat -> Q.
Variable uninit3 : nat -> nat -> nat -> Q.

(** C7, as the code has it.  On an instance made by the constructor and
    used by any calls of [transform], a call with a valid pool raises the
    not-enough-competitors error exactly when the pool has a bound and the
    number of competitors is not above it: 2 for [quinella], 3 for [tierce],
    [trio], [place] and [place_q], 4 for [quartet] and [first_4].  [win] has
    no bound and never raises it.  No other error is raised. *)
Theorem not_enough_competitors_iff (h : heap) (ws : vec) (cref : nat)
    (cs : list Q) (s : ProbProber) (pool : string) :
  h !! cref = Some cs ->
  let h1 := fst (init h ws cref) in
  reachable power uninit2 uninit3 h1 (snd (init h ws cref)) s ->
  In pool pools ->
  let r := snd (transform power uninit2 uninit3 h1 pool s) in
  ((exists b, r = inl (NotEnoughCompetitors b)) <->
   (exists b, least_dim_of pool = Some b /\ (length ws <= b)%nat)) /\
  (forall e, r = inl e -> exists b, e = NotEnoughCompetitors b).
Proof.
  intros Hc h1 Hreach Hin r.
  destruct (transform_reachable power uninit2 uninit3 h ws cref cs s pool Hc Hreach Hin)
    as (k & _ & Hrun).
  subst r. unfold h1 in *. rewrite Hrun. cbn [snd].
  unfold pools in Hin. simpl in Hin.
  destruct Hin as [<-|[<-|[<-|[<-|[<-|[<-|[<-|[<-|[]]]]]]]]];
    unfold outcome, least_dim_of; simpl;
    destruct (Nat.leb_spec (length ws) 2), (Nat.leb_spec (length ws) 3),
      (Nat.leb_spec (length ws) 4); try lia;
    (split; [split|];
    [ intros (b & Hb); try discriminate Hb;
      try (eexists; split; [reflexivity | lia])
    | intros (b & Hb1 & Hb2); try discriminate Hb1;
      try (injection Hb1 as <-; first [lia | eexists; reflexivity])
    | intros e He; try discriminate He;
      try (injection He as <-; eexists; reflexivity) ]).
Qed.

(** C10.  When the caller's coefficient list has fewer than 4 entries, the
    constructor extends that list object in place with entries 1 up to
    length 4: afterwards the caller's list has length 4, the instance holds
    the same reference and so reads the padded list, and no other list
    object has changed. *)
Theorem init_extends_callers_list (h : heap) (ws : vec) (cref : nat) (cs : list Q) :
  h !! cref = Some cs -> (length cs < 4)%nat ->
  let h1 := fst (init h ws cref) in
  let self := snd (init h ws cref) in
  h1 !! cref = Some (cs ++ repeat 1 (4 - length cs)) /\
  length (deref h1 cref) = 4%nat /\
  c self = cref /\
  deref h1 (c self) = cs ++ repeat 1 (4 - length cs) /\
  (forall k, (k < 4)%nat ->
     fst (coef h1 k self) = self /\
     snd (coef h1 k self) = inr (nth k (cs ++ repeat 1 (4 - length cs)) 1)) /\
  (forall l, l <> cref -> h1 !! l = h !! l).
Proof.
  intros Hc Hlen h1 self.
  assert (H1 : h1 !! cref = Some (cs ++ repeat 1 (4 - length cs)))
    by (now apply init_coefficients).
  assert (Hd : deref h1 cref = cs ++ repeat 1 (4 - length cs))
    by (unfold deref; now rewrite H1).
  assert (Hl : length (cs ++ repeat 1 (4 - length cs)) = 4%nat)
    by (rewrite List.length_app, repeat_length; lia).
  split; [exact H1|]. split; [now rewrite Hd|]. split; [reflexivity|].
  split; [exact Hd|]. split.
  - intros k Hk. unfold coef. change (c self) with cref. rewrite Hd.
    destruct (_ !! k) as [x|] eqn:Hx.
    + split; [reflexivity|]. cbn [snd]. f_equal.
      symmetry. apply nth_lookup_Some with (d := 1) in Hx. exact Hx.
    + apply lookup_ge_None in Hx. lia.
  - intros l Hne. subst h1. unfold init, deref, list_extend. rewrite Hc. simpl.
    destruct (Nat.ltb_spec (length cs) 4); simpl; [|reflexivity].
    now rewrite lookup_alter_ne.
Qed.

End Claims.

Lemma not_enough_competitors_iff_witness :
  let ws := [1; 2; 3] in
  let h1 := fst (init heap0 ws default_c) in
  let r := snd (transform ipower (fun _ _ => 0) (fun _ _ _ => 0) h1 "tierce"
                  (snd (init heap0 ws default_c))) in
  ((exists b, r = inl (NotEnoughCompetitors b)) <->
   (exists b, least_dim_of "tierce" = Some b /\ (length ws <= b)%nat)) /\
  (forall e, r = inl e -> exists b, e = NotEnoughCompetitors b).
Proof.
  apply (not_enough_competitors_iff ipower (fun _ _ => 0) (fun _ _ _ => 0)
           heap0 [1; 2; 3] default_c [1; 1; 1; 1]
           (snd (init heap0 [1; 2; 3] default_c)) "tierce").
  - reflexivity.
  - constructor.
  - simpl. tauto.
Defined.

(** [win] with no competitor at all returns the empty array: there is no
    check on the way to it. *)
Lemma win_without_competitors :
  let r := snd (transform ipower (fun _ _ => 0) (fun _ _ _ => 0)
                  (fst (init heap0 [] default_c)) "win"
                  (snd (init heap0 [] default_c))) in
  r = inr (Arr1 []) /\ ~ (exists b, r = inl (NotEnoughCompetitors b)).
Proof.
  split; [reflexivity|]. intros (b & Hb). discriminate Hb.
Qed.

Lemma init_extends_callers_list_witness :
  let h := <[1%nat := [0.9; 0.81]]> heap0 in
  let h1 := fst (init h [2; 3; 4] 1%nat) in
  let self := snd (init h [2; 3; 4] 1%nat) in
  h1 !! 1%nat = Some [0.9; 0.81; 1; 1] /\
  length (deref h1 1%nat) = 4%nat /\
  c self = 1%nat /\
  deref h1 (c self) = [0.9; 0.81; 1; 1] /\
  (forall k, (k < 4)%nat ->
     fst (coef h1 k self) = self /\
     snd (coef h1 k self) = inr (nth k [0.9; 0.81; 1; 1] 1)) /\
  (forall l, l <> 1%nat -> h1 !! l = h !! l).
Proof.
  apply (init_extends_callers_list (<[1%nat := [0.9; 0.81]]> heap0) [2; 3; 4]
           1%nat [0.9; 0.81]).
  - reflexivity.
  - simpl. lia.
Defined.

End InstanceClaims.

Module ScenarioClaims.
Import NP Prob Reduced NPFacts LevelFacts RunFacts OrderClaims InstanceClaims.

Lemma orders_ext (power power' : Q -> Q -> Q) (uninit2 : nat -> nat -> Q)
    (uninit3 : nat -> nat -> nat -> Q) (ws : vec) (cs : list Q) :
  (forall k x, power x (nth k cs 1) = power' x (nth k cs 1)) ->
  order1 power ws cs = order1 power' ws cs /\
  order2 power ws cs = order2 power' ws cs /\
  order3 power uninit2 ws cs = order3 power' uninit2 ws cs /\
  order4 power uninit2 uninit3 ws cs = order4 power' uninit2 uninit3 ws cs.
Proof.
  intros Hext.
  assert (H1 : order1 power ws cs = order1 power' ws cs)
    by (apply rank_weight_ext, Hext).
  assert (H2 : order2 power ws cs = order2 power' ws cs)
    by (unfold order2; rewrite H1; f_equal; apply rank_weight_ext, Hext).
  assert (H3 : order3 power uninit2 ws cs = order3 power' uninit2 ws cs)
    by (unfold order3; rewrite H2; f_equal; apply rank_weight_ext, Hext).
  repeat split; try assumption.
  unfold order4. rewrite H3. f_equal. apply rank_weight_ext, Hext.
Qed.

Lemma within_spec (tol : Q) (expected v : vec) (i : nat) :
  within tol expected v = true -> (i < length expected)%nat ->
  Qabs (get1 v i - get1 expected i) <= tol.
Proof.
  intros Hw Hi. unfold within in Hw. rewrite forallb_forall in Hw.
  apply Qle_bool_iff, Hw, in_seq. lia.
Qed.

Lemma red1_entry (v : vec) (i : nat) : get1 (red1 v) i == get1 v i.
Proof.
  unfold get1, red1. change 0 with (Qred 0) at 1. rewrite map_nth. apply Qred_correct.
Qed.

Lemma red2_entry (m : mat) (i j : nat) : get2 (red2 m) i j == get2 m i j.
Proof.
  unfold get2, red2. change (@nil Q) with (red1 []) at 1. rewrite map_nth.
  apply red1_entry.
Qed.

Lemma red3_entry (t : ten3) (i j k : nat) : get3 (red3 t) i j k == get3 t i j k.
Proof.
  unfold get3, red3. change (@nil (list Q)) with (red2 []) at 1. rewrite map_nth.
  apply red2_entry.
Qed.

Lemma Qeq_bool_comp (x y : Q) : x == y -> Qeq_bool x 0 = Qeq_bool y 0.
Proof.
  intros H. destruct (Qeq_bool y 0) eqn:E.
  - apply Qeq_bool_iff. rewrite H. now apply Qeq_bool_iff.
  - destruct (Qeq_bool x 0) eqn:E'; [|reflexivity].
    apply Qeq_bool_iff in E'. rewrite H in E'. apply Qeq_bool_iff in E'. congruence.
Qed.

Lemma level2_comp (n : nat) (pi pi' r r' : vec) :
  veq n pi pi' -> veq n r r' -> meq n (level2 n pi r) (level2 n pi' r').
Proof.
  intros Hp Hr i j Hi Hj. rewrite !level2_entry by assumption.
  destruct (i =? j)%nat; [reflexivity|].
  rewrite (Hr i Hi), (Hr j Hj), (Hp j Hj). reflexivity.
Qed.

Lemma level3_comp (u : nat -> nat -> Q) (n : nat) (m m' : mat) (r r' : vec) :
  meq n m m' -> veq n r r' -> teq n (level3 u n m r) (level3 u n m' r').
Proof.
  intros Hm Hr i j k Hi Hj Hk. rewrite !level3_entry by assumption.
  destruct (k =? i)%nat; [reflexivity|]. destruct (k =? j)%nat; [reflexivity|].
  assert (Hd : 1 - get1 r i - get1 r j == 1 - get1 r' i - get1 r' j)
    by (rewrite (Hr i Hi), (Hr j Hj); reflexivity).
  rewrite (Qeq_bool_comp _ _ Hd).
  destruct (Qeq_bool _ 0); rewrite (Hr k Hk); [reflexivity|].
  rewrite (Hm i j Hi Hj), Hd. reflexivity.
Qed.

Lemma place_of_comp (n : nat) (pi pi' : vec) (m m' : mat) (t t' : ten3) :
  veq n pi pi' -> meq n m m' -> teq n t t' ->
  veq n (place_of n pi m t) (place_of n pi' m' t').
Proof.
  intros Hp Hm Ht i Hi.
  unfold place_of, add1, sum2_axis1, sum2_axis0, sum3_axis1.
  rewrite !get1_tab by assumption.
  rewrite (Hp i Hi).
  apply Qplus_comp; [apply Qplus_comp; [reflexivity|]|].
  - apply bigsum_ext. intros j Hj. now apply Hm.
  - apply bigsum_ext. intros a Ha. rewrite !get2_tab2 by assumption.
    apply bigsum_ext. intros j Hj. now apply Ht.
Qed.

Lemma within_comp (tol : Q) (expected v v' : vec) :
  veq (length expected) v v' -> within tol expected v' = true ->
  within tol expected v = true.
Proof.
  unfold within. intros Hv Hw. rewrite forallb_forall in *.
  intros i Hi. specialize (Hw i Hi). apply in_seq in Hi.
  apply Qle_bool_iff. apply Qle_bool_iff in Hw.
  rewrite (Hv i) by lia. exact Hw.
Qed.

Lemma place_r1_spec : veq 7 (rank_weight ipower place_ws 1) place_r1.
Proof.
  intros i _.
  assert (E : place_r1 = red1 (rank_weight ipower place_ws 1))
    by (vm_compute; reflexivity).
  rewrite E. symmetry. apply red1_entry.
Qed.

Lemma place_r2_spec :
  meq 7 (level2 7 (rank_weight ipower place_ws 1) (rank_weight ipower place_ws 1))
        place_r2.
Proof.
  intros i j Hi Hj.
  rewrite (level2_comp 7 _ place_r1 _ place_r1 place_r1_spec place_r1_spec i j Hi Hj).
  assert (E : place_r2 = red2 (level2 7 place_r1 place_r1))
    by (vm_compute; reflexivity).
  rewrite E. symmetry. apply red2_entry.
Qed.

Lemma place_r3_spec (u : nat -> nat -> Q) :
  teq 7 (level3 u 7
           (level2 7 (rank_weight ipower place_ws 1) (rank_weight ipower place_ws 1))
           (rank_weight ipower place_ws 1))
        place_r3.
Proof.
  intros i j k Hi Hj Hk.
  rewrite (level3_comp u 7 _ place_r2 _ place_r1 place_r2_spec place_r1_spec
             i j k Hi Hj Hk).
  assert (E : place_r3 = red3 (level3 u 7 place_r2 place_r1))
    by (vm_compute; reflexivity).
  rewrite E. symmetry. apply red3_entry.
Qed.

Lemma place_reduced :
  within 1e-4 place_expected (place_of 7 place_r1 place_r2 place_r3) = true.
Proof. vm_compute. reflexivity. Qed.

Section Claims.

Variable power : Q -> Q -> Q.
Variable uninit2 : nat -> nat -> Q.
Variable uninit3 : nat -> nat -> nat -> Q.

(** C6.  With the win weights 0.1, 0.2, 0.2, 0.05, 0.05, 0.3, 0.1 and the
    default coefficients, [transform('place')] on a new instance returns a
    vector of 7 entries, each within 1e-4 of 0.3485, 0.5954, 0.5954, 0.1854,
    0.1854, 0.7414, 0.3485.  All that is asked of [np.power] is that the
    exponent 1 leaves a number as it is. *)
Theorem place_scenario :
  (forall x, power x 1 = x) ->
  let ws := [0.1; 0.2; 0.2; 0.05; 0.05; 0.3; 0.1] in
  let expected := [0.3485; 0.5954; 0.5954; 0.1854; 0.1854; 0.7414; 0.3485] in
  let h1 := fst (init heap0 ws default_c) in
  let r := snd (transform power uninit2 uninit3 h1 "place"
                  (snd (init heap0 ws default_c))) in
  exists v, r = inr (Arr1 v) /\ length v = 7%nat /\
    forall i, (i < 7)%nat -> Qabs (get1 v i - get1 expected i) <= 1e-4.
Proof.
  intros Hpow ws expected h1 r.
  assert (Hc : heap0 !! default_c = Some [1; 1; 1; 1]) by reflexivity.
  destruct (transform_reachable power uninit2 uninit3 heap0 ws default_c
              [1; 1; 1; 1] (snd (init heap0 ws default_c)) "place" Hc
              (reach_new _ _ _ _ _)) as (k & _ & Hrun); [simpl; tauto|].
  subst r. unfold h1. rewrite Hrun. cbn [snd].
  change (deref (fst (init heap0 ws default_c)) default_c) with [1; 1; 1; 1].
  destruct (orders_ext power ipower uninit2 uninit3 ws [1; 1; 1; 1])
    as (E1 & E2 & E3 & _).
  { intros j x. destruct j as [|[|[|[|[|j]]]]]; simpl; rewrite Hpow; reflexivity. }
  unfold outcome. rewrite E1, E2, E3.
  change (length ws) with 7%nat. cbn [String.eqb Ascii.eqb Bool.eqb Nat.leb].
  eexists. split; [reflexivity|]. split.
  - unfold place_of, add1. apply length_tab.
  - intros i Hi. apply (within_spec 1e-4 expected); [|exact Hi].
    apply (within_comp _ _ _ (place_of 7 place_r1 place_r2 place_r3));
      [|exact place_reduced].
    apply place_of_comp.
    + exact place_r1_spec.
    + exact place_r2_spec.
    + exact (place_r3_spec uninit2).
Qed.

End Claims.

Lemma place_scenario_witness :
  let ws := [0.1; 0.2; 0.2; 0.05; 0.05; 0.3; 0.1] in
  let expected := [0.3485; 0.5954; 0.5954; 0.1854; 0.1854; 0.7414; 0.3485] in
  let h1 := fst (init heap0 ws default_c) in
  let r := snd (transform ipower (fun _ _ => 0) (fun _ _ _ => 0) h1 "place"
                  (snd (init heap0 ws default_c))) in
  exists v, r = inr (Arr1 v) /\ length v = 7%nat /\
    forall i, (i < 7)%nat -> Qabs (get1 v i - get1 expected i) <= 1e-4.
Proof.
  apply (place_scenario ipower (fun _ _ => 0) (fun _ _ _ => 0)).
  intros x. reflexivity.
Defined.

(** C3 at the weights 8, 4, 2, 2 with the default coefficients.  The rank
    weights are 1/2, 1/4, 1/8, 1/8, so the level-3 denominator at [0,0] is
    [1 - 1/2 - 1/2 = 0]; [np.divide] leaves that place of its result as the
    memory was, and prob.py 76-77 clear the entries with [j = k] and with
    [i = k] only.  The entry [0,0,1] of [tierce] is what the memory held,
    times 1/4. *)
Theorem tierce_repeated_index_entry (uninit2 : nat -> nat -> Q)
    (uninit3 : nat -> nat -> nat -> Q) :
  let ws := [8; 4; 2; 2] in
  let h1 := fst (init heap0 ws default_c) in
  let r := snd (transform ipower uninit2 uninit3 h1 "tierce"
                  (snd (init heap0 ws default_c))) in
  exists t, r = inr (Arr3 t) /\ get3 t 0 0 1 == uninit2 0%nat 0%nat * (1 # 4).
Proof.
  intros ws h1 r.
  assert (Hc : heap0 !! default_c = Some [1; 1; 1; 1]) by reflexivity.
  destruct (transform_reachable ipower uninit2 uninit3 heap0 ws default_c
              [1; 1; 1; 1] (snd (init heap0 ws default_c)) "tierce" Hc
              (reach_new _ _ _ _ _)) as (k & _ & Hrun); [simpl; tauto|].
  subst r. unfold h1. rewrite Hrun. cbn [snd].
  change (deref (fst (init heap0 ws default_c)) default_c) with [1; 1; 1; 1].
  unfold outcome. change (length ws) with 4%nat.
  cbn [String.eqb Ascii.eqb Bool.eqb Nat.leb].
  eexists. split; [reflexivity|].
  unfold order3. change (length ws) with 4%nat.
  rewrite level3_entry by lia. cbn [Nat.eqb].
  replace (Qeq_bool _ 0) with true by (vm_compute; reflexivity).
  apply Qmult_comp; [reflexivity|]. vm_compute. reflexivity.
Qed.

(** C4 at the same weights: the level-3 denominator at [0,0] is 0, and the
    [place] output is not determined by the input: with zeros in the
    memory that [np.divide] leaves untouched it is a vector that sums to 3,
    with ones it is another vector. *)
Theorem place_depends_on_memory :
  let ws := [8; 4; 2; 2] in
  let h1 := fst (init heap0 ws default_c) in
  let rw3 := rank_weight ipower ws 1 in
  let place u := snd (transform ipower (fun _ _ => u) (fun _ _ _ => 0) h1 "place"
                        (snd (init heap0 ws default_c))) in
  1 - get1 rw3 0 - get1 rw3 0 == 0 /\
  exists v0 v1, place 0 = inr (Arr1 v0) /\ place 1 = inr (Arr1 v1) /\
    vsum v0 == 3 /\ ~ vsum v1 == 3 /\ ~ get1 v0 1 == get1 v1 1.
Proof.
  split; [vm_compute; reflexivity|].
  eexists _, _. split; [reflexivity|]. split; [reflexivity|].
  split; [vm_compute; reflexivity|]. split; vm_compute; discriminate.
Qed.

End ScenarioClaims.

(** ** Facts about the Kelly calculator *)

Module KellyFacts.
Import NP NPFacts Kelly.

(** *** [argsort] gives indices of the keys *)

Lemma insert_by_Forall (P : nat -> Prop) (keys : vec) (i : nat) (sorted : list nat) :
  P i -> Forall P sorted -> Forall P (insert_by keys i sorted).
Proof.
  intros Hi Hs. induction Hs as [|j r Hj Hr IH]; simpl.
  - now constructor.
  - destruct (Qlt_bool _ _); repeat constructor; assumption.
Qed.

Lemma insert_by_length (keys : vec) (i : nat) (sorted : list nat) :
  length (insert_by keys i sorted) = S (length sorted).
Proof.
  induction sorted as [|j r IH]; simpl; [reflexivity|].
  destruct (Qlt_bool _ _); simpl; [reflexivity | now rewrite IH].
Qed.

Lemma argsort_loop (keys : vec) (P : nat -> Prop) (ks acc : list nat) :
  Forall P ks -> Forall P acc ->
  Forall P (fold_left (fun sorted i => insert_by keys i sorted) ks acc) /\
  length (fold_left (fun sorted i => insert_by keys i sorted) ks acc) =
  (length ks + length acc)%nat.
Proof.
  intros Hks. revert acc. induction Hks as [|i ks Hi _ IH]; intros acc Hacc; simpl.
  - now split.
  - destruct (IH (insert_by keys i acc)) as [IH1 IH2].
    + now apply insert_by_Forall.
    + split; [exact IH1|]. rewrite IH2, insert_by_length. lia.
Qed.

Lemma argsort_spec (keys : vec) :
  Forall (fun i => (i < length keys)%nat) (argsort keys) /\
  length (argsort keys) = length keys.
Proof.
  unfold argsort.
  destruct (argsort_loop keys (fun i => (i < length keys)%nat)
              (seq 0 (length keys)) []) as [H1 H2].
  - apply List.Forall_forall. intros i Hi. apply in_seq in Hi. lia.
  - constructor.
  - split; [exact H1|]. rewrite H2, List.length_seq. simpl. lia.
Qed.

(** *** The largest entry *)

Lemma maximum_loop (r : vec) (x : Q) :
  x <= fold_left (fun a b => if Qle_bool a b then b else a) r x /\
  Forall (fun y => y <= fold_left (fun a b => if Qle_bool a b then b else a) r x) r.
Proof.
  revert x. induction r as [|y r IH]; intros x; simpl.
  - split; [apply Qle_refl | constructor].
  - destruct (Qle_bool x y) eqn:Hxy.
    + apply Qle_bool_iff in Hxy. destruct (IH y) as [H1 H2].
      split; [now apply Qle_trans with y|]. now constructor.
    + assert (Hyx : y <= x).
      { destruct (Qlt_le_dec y x) as [Hlt|Hle]; [now apply Qlt_le_weak|].
        apply Qle_bool_iff in Hle. congruence. }
      destruct (IH x) as [H1 H2].
      split; [exact H1|]. constructor; [now apply Qle_trans with x | exact H2].
Qed.

Lemma maximum_upper (l : vec) (m : Q) (i : nat) :
  maximum l = Some m -> (i < length l)%nat -> get1 l i <= m.
Proof.
  destruct l as [|x r]; simpl; [discriminate|].
  intros [= <-] Hi. destruct (maximum_loop r x) as [H1 H2].
  destruct i as [|i]; [exact H1|].
  unfold get1. simpl. rewrite List.Forall_forall in H2.
  apply H2, nth_In. lia.
Qed.

(** *** The dictionary of zeros *)

Lemma zero_prop_spec (labels : list name) (ks : list nat) (prop : gmap name Q) :
  Forall (fun k => (k < length labels)%nat) ks ->
  exists prop', zero_prop labels ks prop = inr prop' /\
    (forall k nm, k ∈ ks -> labels !! k = Some nm -> prop' !! nm = Some 0) /\
    (forall nm, prop !! nm = Some 0 -> prop' !! nm = Some 0) /\
    (forall nm q, prop' !! nm = Some q ->
       (q = 0 /\ exists k, k ∈ ks /\ labels !! k = Some nm) \/
       prop !! nm = Some q).
Proof.
  intros Hks. revert prop. induction Hks as [|k ks Hk _ IH]; intros prop; simpl.
  - exists prop. split; [reflexivity|]. split; [|split].
    + intros k nm Hin. now apply not_elem_of_nil in Hin.
    + auto.
    + auto.
  - destruct (labels !! k) as [lbl|] eqn:Hl.
    2: { apply lookup_ge_None in Hl. lia. }
    destruct (IH (<[lbl := 0]> prop)) as (prop' & Hrun & HA & HZ & HB).
    exists prop'. split; [exact Hrun|]. split; [|split].
    + intros k0 nm Hin Hk0. apply elem_of_cons in Hin.
      destruct Hin as [->|Hin]; [|now apply (HA k0)].
      apply HZ. replace nm with lbl by congruence. apply lookup_insert_eq.
    + intros nm Hnm. apply HZ.
      destruct (decide (lbl = nm)) as [->|Hne];
        [apply lookup_insert_eq | now rewrite lookup_insert_ne].
    + intros nm q Hq. destruct (HB nm q Hq) as [(-> & k0 & Hin & Hk0)|Hins].
      * left. split; [reflexivity|]. exists k0.
        split; [now apply elem_of_cons; right | exact Hk0].
      * destruct (decide (lbl = nm)) as [->|Hne].
        -- rewrite lookup_insert_eq in Hins. injection Hins as <-.
           left. split; [reflexivity|]. exists k.
           split; [now apply elem_of_cons; left | exact Hl].
        -- rewrite lookup_insert_ne in Hins by assumption. now right.
Qed.

(** *** What the constructor checks *)

Lemma init_valid (odds_arg prob_arg : array_like) (label_arg : list name)
    (self : MultiKellyBettor) :
  init odds_arg prob_arg label_arg = inr self ->
  odds_arg = Seq1 (odds self) /\ prob_arg = Seq1 (prob self) /\
  length (odds self) = length (prob self) /\
  length (label self) = length (odds self) /\
  (forall i, (i < length (odds self))%nat -> 1 < get1 (odds self) i).
Proof.
  unfold init.
  destruct odds_arg as [x|o|rows]; try discriminate.
  destruct prob_arg as [x|p|rows]; try discriminate.
  destruct (Nat.eqb_spec (length o) (length p)) as [Hlen|]; simpl; [|discriminate].
  destruct (Qgt_bool _ _); [discriminate|].
  destruct (existsb _ o) eqn:Hodds; [discriminate|].
  assert (Ho : forall i, (i < length o)%nat -> 1 < get1 o i).
  { intros i Hi.
    destruct (Qlt_le_dec 1 (get1 o i)) as [Hlt|Hle]; [exact Hlt|].
    apply Qle_bool_iff in Hle.
    assert (Hex : existsb (fun x => Qle_bool x 1) o = true)
      by (apply existsb_exists; exists (get1 o i); split;
          [apply nth_In; lia | exact Hle]).
    congruence. }
  destruct label_arg as [|l0 ls].
  - intros [= <-]. simpl. rewrite List.length_map, List.length_seq. auto.
  - destruct (Nat.eqb_spec (length o) (length (l0 :: ls))) as [Hl|]; simpl;
      [|discriminate].
    intros [= <-]. simpl. simpl in Hl. auto.
Qed.

End KellyFacts.

Module KellyClaims.
Import NP NPFacts Kelly KellyFacts.

(** C8 at the odds 2, 2 and the probabilities 0.5, 0.6.  The probabilities
    sum to 1.1, off by 0.1, and the constructor returns the instance: its
    test is [np.sum(self.prob) - 1 > 1e6], which no such vector meets. *)
Theorem init_accepts_wrong_sum :
  let p := [0.5; 0.6] in
  1e-6 < Qabs (vsum p - 1) /\
  init (Seq1 [2; 2]) (Seq1 p) [] =
  inr (mkMultiKellyBettor [2; 2] p [inl 0%nat; inl 1%nat]).
Proof. split; [vm_compute | ]; reflexivity. Qed.

(** C9.  For an instance that the constructor has returned and whose largest
    expected return [odds[i] * prob[i]] exists and is at most 1,
    [transform()] returns a dictionary that gives every competitor's label
    the proportion 0, and holds nothing else. *)
Theorem no_edge_no_bet (odds_arg prob_arg : array_like) (label_arg : list name)
    (self : MultiKellyBettor) (m : Q) :
  init odds_arg prob_arg label_arg = inr self ->
  maximum (eret_of self) = Some m -> m <= 1 ->
  exists prop, transform self = inr prop /\
    (forall k nm, label self !! k = Some nm -> prop !! nm = Some 0) /\
    (forall nm q, prop !! nm = Some q -> q = 0 /\ nm ∈ label self).
Proof.
  intros Hinit Hmax Hm.
  destruct (init_valid _ _ _ _ Hinit) as (_ & _ & Hop & Hlab & _).
  unfold transform.
  destruct (zero_prop_spec (label self) (seq 0 (length (odds self))) ∅)
    as (prop & Hzero & HA & _ & HB).
  { apply List.Forall_forall. intros k Hk. apply in_seq in Hk. lia. }
  rewrite Hzero. fold (eret_of self).
  assert (Hn : length (eret_of self) = length (odds self)).
  { unfold eret_of. rewrite List.length_map, length_combine. lia. }
  destruct (argsort_spec (eret_of self)) as [Hidx Hlen].
  set (indices := rev (argsort (eret_of self))).
  assert (Hidx' : Forall (fun i => (i < length (eret_of self))%nat) indices)
    by (apply Forall_rev; exact Hidx).
  assert (Hlen' : length indices = length (eret_of self))
    by (unfold indices; now rewrite length_rev).
  destruct indices as [|i0 rest] eqn:Hind.
  { simpl in Hlen'. destruct (eret_of self); [discriminate Hmax | discriminate Hlen']. }
  cbn [take_at map].
  assert (Hi0 : (i0 < length (eret_of self))%nat) by (now inversion Hidx').
  assert (Hle : get1 (eret_of self) i0 <= 1)
    by (apply Qle_trans with m; [now apply maximum_upper | exact Hm]).
  apply Qle_bool_iff in Hle. rewrite Hle.
  exists prop. split; [reflexivity|]. split.
  - intros k nm Hk. apply (HA k); [|exact Hk].
    apply elem_of_seq. apply lookup_lt_Some in Hk. lia.
  - intros nm q Hq. destruct (HB nm q Hq) as [(-> & k & _ & Hk)|Hempty].
    + split; [reflexivity|]. now apply list_elem_of_lookup_2 in Hk.
    + rewrite lookup_empty in Hempty. discriminate.
Qed.

Lemma no_edge_no_bet_witness :
  exists prop,
    transform (mkMultiKellyBettor [2; 4] [0.5; 0.25] [inr "a"; inr "b"]%string)
    = inr prop /\
    (forall k nm, [inr "a"; inr "b"]%string !! k = Some nm -> prop !! nm = Some 0) /\
    (forall nm q, prop !! nm = Some q ->
       q = 0 /\ nm ∈ ([inr "a"; inr "b"]%string : list name)).
Proof.
  apply (no_edge_no_bet (Seq1 [2; 4]) (Seq1 [0.5; 0.25]) [inr "a"; inr "b"]%string
           (mkMultiKellyBettor [2; 4] [0.5; 0.25] [inr "a"; inr "b"]%string)
           (4 * 0.25)).
  - reflexivity.
  - reflexivity.
  - vm_compute. discriminate.
Defined.

End KellyClaims.

(** ** Facts about the pool outputs *)

Module PoolFacts.
Import NP Prob NPFacts LevelFacts.

(** *** Sums over triples and quadruples *)

Lemma sum3_ext (n : nat) (f g : nat -> nat -> nat -> Q) :
  (forall i j k, (i < n)%nat -> (j < n)%nat -> (k < n)%nat -> f i j k == g i j k) ->
  sum3 n f == sum3 n g.
Proof.
  intros H. unfold sum3.
  apply bigsum_ext; intros i Hi. apply bigsum_ext; intros j Hj.
  apply bigsum_ext; intros k Hk. now apply H.
Qed.

Lemma sum3_plus (n : nat) (f g : nat -> nat -> nat -> Q) :
  sum3 n (fun i j k => f i j k + g i j k) == sum3 n f + sum3 n g.
Proof.
  unfold sum3. rewrite <- bigsum_plus. apply bigsum_ext; intros i _.
  rewrite <- bigsum_plus. apply bigsum_ext; intros j _.
  apply bigsum_plus.
Qed.

Lemma sum3_swap12 (n : nat) (f : nat -> nat -> nat -> Q) :
  sum3 n (fun i j k => f j i k) == sum3 n f.
Proof. unfold sum3. apply (bigsum_swap n n (fun i j => bigsum n (fun k => f j i k))). Qed.

Lemma sum3_swap23 (n : nat) (f : nat -> nat -> nat -> Q) :
  sum3 n (fun i j k => f i k j) == sum3 n f.
Proof.
  unfold sum3. apply bigsum_ext; intros i _.
  apply (bigsum_swap n n (fun j k => f i k j)).
Qed.

Lemma sum4_ext (n : nat) (f g : nat -> nat -> nat -> nat -> Q) :
  (forall i j k l, (i < n)%nat -> (j < n)%nat -> (k < n)%nat -> (l < n)%nat ->
     f i j k l == g i j k l) ->
  sum4 n f == sum4 n g.
Proof.
  intros H. unfold sum4.
  apply bigsum_ext; intros i Hi. apply bigsum_ext; intros j Hj.
  apply bigsum_ext; intros k Hk. apply bigsum_ext; intros l Hl. now apply H.
Qed.

Lemma sum4_plus (n : nat) (f g : nat -> nat -> nat -> nat -> Q) :
  sum4 n (fun i j k l => f i j k l + g i j k l) == sum4 n f + sum4 n g.
Proof.
  unfold sum4. rewrite <- bigsum_plus. apply bigsum_ext; intros i _.
  rewrite <- bigsum_plus. apply bigsum_ext; intros j _.
  rewrite <- bigsum_plus. apply bigsum_ext; intros k _.
  apply bigsum_plus.
Qed.

Lemma sum4_swap12 (n : nat) (f : nat -> nat -> nat -> nat -> Q) :
  sum4 n (fun i j k l => f j i k l) == sum4 n f.
Proof.
  unfold sum4.
  apply (bigsum_swap n n (fun i j => bigsum n (fun k => bigsum n (fun l => f j i k l)))).
Qed.

Lemma sum4_swap23 (n : nat) (f : nat -> nat -> nat -> nat -> Q) :
  sum4 n (fun i j k l => f i k j l) == sum4 n f.
Proof.
  unfold sum4. apply bigsum_ext; intros i _.
  apply (bigsum_swap n n (fun j k => bigsum n (fun l => f i k j l))).
Qed.

Lemma sum4_swap34 (n : nat) (f : nat -> nat -> nat -> nat -> Q) :
  sum4 n (fun i j k l => f i j l k) == sum4 n f.
Proof.
  unfold sum4. apply bigsum_ext; intros i _. apply bigsum_ext; intros j _.
  apply (bigsum_swap n n (fun k l => f i j l k)).
Qed.

(** A sum over all triples or quadruples does not change when the indices
    are permuted: the permutation is undone by exchanges of neighbours. *)
Ltac unswap3 depth :=
  first
    [ reflexivity
    | lazymatch depth with
      | S ?d =>
          lazymatch goal with
          | |- sum3 ?n ?F == _ =>
              first
                [ transitivity (sum3 n (fun a b c => F b a c));
                  [ symmetry; exact (sum3_swap12 n F) | cbv beta; unswap3 d ]
                | transitivity (sum3 n (fun a b c => F a c b));
                  [ symmetry; exact (sum3_swap23 n F) | cbv beta; unswap3 d ] ]
          end
      end ].

Ltac unswap4 depth :=
  first
    [ reflexivity
    | lazymatch depth with
      | S ?d =>
          lazymatch goal with
          | |- sum4 ?n ?F == _ =>
              first
                [ transitivity (sum4 n (fun a b c e => F b a c e));
                  [ symmetry; exact (sum4_swap12 n F) | cbv beta; unswap4 d ]
                | transitivity (sum4 n (fun a b c e => F a c b e));
                  [ symmetry; exact (sum4_swap23 n F) | cbv beta; unswap4 d ]
                | transitivity (sum4 n (fun a b c e => F a b e c));
                  [ symmetry; exact (sum4_swap34 n F) | cbv beta; unswap4 d ] ]
          end
      end ].

Lemma sum3_perms (n : nat) (g : nat -> nat -> nat -> Q) :
  sum3 n (fun i j k => g i k j) == sum3 n g /\
  sum3 n (fun i j k => g j i k) == sum3 n g /\
  sum3 n (fun i j k => g j k i) == sum3 n g /\
  sum3 n (fun i j k => g k i j) == sum3 n g /\
  sum3 n (fun i j k => g k j i) == sum3 n g.
Proof. repeat split; unswap3 3%nat. Qed.

Lemma sum4_perms (n : nat) (g : nat -> nat -> nat -> nat -> Q) :
  sum4 n (fun i j k l => g i j l k) == sum4 n g /\
  sum4 n (fun i j k l => g i k j l) == sum4 n g /\
  sum4 n (fun i j k l => g i k l j) == sum4 n g /\
  sum4 n (fun i j k l => g i l j k) == sum4 n g /\
  sum4 n (fun i j k l => g i l k j) == sum4 n g /\
  sum4 n (fun i j k l => g j i k l) == sum4 n g /\
  sum4 n (fun i j k l => g j i l k) == sum4 n g /\
  sum4 n (fun i j k l => g j k i l) == sum4 n g /\
  sum4 n (fun i j k l => g j k l i) == sum4 n g /\
  sum4 n (fun i j k l => g j l i k) == sum4 n g /\
  sum4 n (fun i j k l => g j l k i) == sum4 n g /\
  sum4 n (fun i j k l => g k i j l) == sum4 n g /\
  sum4 n (fun i j k l => g k i l j) == sum4 n g /\
  sum4 n (fun i j k l => g k j i l) == sum4 n g /\
  sum4 n (fun i j k l => g k j l i) == sum4 n g /\
  sum4 n (fun i j k l => g k l i j) == sum4 n g /\
  sum4 n (fun i j k l => g k l j i) == sum4 n g /\
  sum4 n (fun i j k l => g l i j k) == sum4 n g /\
  sum4 n (fun i j k l => g l i k j) == sum4 n g /\
  sum4 n (fun i j k l => g l j i k) == sum4 n g /\
  sum4 n (fun i j k l => g l j k i) == sum4 n g /\
  sum4 n (fun i j k l => g l k i j) == sum4 n g /\
  sum4 n (fun i j k l => g l k j i) == sum4 n g.
Proof. repeat split; unswap4 6%nat. Qed.


Lemma vsum_tab (n : nat) (f : nat -> Q) : vsum (tab n f) == bigsum n f.
Proof.
  rewrite vsum_bigsum, length_tab. apply bigsum_ext.
  intros i Hi. now rewrite get1_tab.
Qed.

Lemma distinct_eq (l1 l2 : list nat) :
  (distinct l1 = true <-> distinct l2 = true) -> distinct l1 = distinct l2.
Proof. destruct (distinct l1), (distinct l2); intuition congruence. Qed.

Lemma count_succ (m : nat) :
  inject_Z (Z.of_nat (S m)) == inject_Z (Z.of_nat m) + 1.
Proof. rewrite Nat2Z.inj_succ, <- Z.add_1_r, inject_Z_plus. reflexivity. Qed.

(** *** quinella *)

Lemma quinella_sum (n : nat) (m : mat) :
  sum_distinct2 n (quinella_of n m) == 2 * sum_distinct2 n m.
Proof.
  unfold sum_distinct2, quinella_of, add2, transpose2.
  transitivity
    (bigsum n (fun i => bigsum n (fun j =>
       (if distinct [i; j] then get2 m i j else 0) +
       (if distinct [j; i] then get2 m j i else 0)))).
  { apply bigsum_ext; intros i Hi. apply bigsum_ext; intros j Hj.
    rewrite !get2_tab2 by assumption.
    replace (distinct [j; i]) with (distinct [i; j])
      by (apply distinct_eq; rewrite !distinct2_spec; lia).
    destruct (distinct [i; j]); ring. }
  transitivity
    (bigsum n (fun i => bigsum n (fun j => if distinct [i; j] then get2 m i j else 0)) +
     bigsum n (fun i => bigsum n (fun j => if distinct [j; i] then get2 m j i else 0))).
  { rewrite <- bigsum_plus. apply bigsum_ext; intros i _. apply bigsum_plus. }
  rewrite (bigsum_swap n n (fun i j => if distinct [j; i] then get2 m j i else 0)).
  ring.
Qed.

(** *** trio and first_4: sums of transposed tensors *)

Lemma fold_add3_entry (n : nat) (t : ten3) (ps : list (list nat)) (acc : ten3)
    (i j k : nat) :
  (i < n)%nat -> (j < n)%nat -> (k < n)%nat ->
  get3 (fold_left (fun a p => add3 n a (transpose3 n p t)) ps acc) i j k =
  fold_left (fun q p => q + get3 t (src p [i; j; k] 0) (src p [i; j; k] 1)
                                   (src p [i; j; k] 2))
            ps (get3 acc i j k).
Proof.
  intros Hi Hj Hk. revert acc. induction ps as [|p ps IH]; intros acc; simpl.
  - reflexivity.
  - rewrite IH. unfold add3 at 1, transpose3 at 1.
    now rewrite !get3_tab3 by assumption.
Qed.

Lemma fold_add4_entry (n : nat) (t : ten4) (ps : list (list nat)) (acc : ten4)
    (i j k l : nat) :
  (i < n)%nat -> (j < n)%nat -> (k < n)%nat -> (l < n)%nat ->
  get4 (fold_left (fun a p => add4 n a (transpose4 n p t)) ps acc) i j k l =
  fold_left (fun q p => q + get4 t (src p [i; j; k; l] 0) (src p [i; j; k; l] 1)
                                   (src p [i; j; k; l] 2) (src p [i; j; k; l] 3))
            ps (get4 acc i j k l).
Proof.
  intros Hi Hj Hk Hl. revert acc. induction ps as [|p ps IH]; intros acc; simpl.
  - reflexivity.
  - rewrite IH. unfold add4 at 1, transpose4 at 1.
    now rewrite !get4_tab4 by assumption.
Qed.

Lemma fold_plus_acc (A : Type) (f : A -> Q) (ps : list A) (a b : Q) :
  a == b -> fold_left (fun q p => q + f p) ps a == fold_left (fun q p => q + f p) ps b.
Proof.
  revert a b. induction ps as [|p ps IH]; intros a b Hab; simpl; [exact Hab|].
  apply IH. now rewrite Hab.
Qed.

(** Masking a sum of entries is the sum of the masked entries, when every
    entry has the mask of the tuple. *)
Lemma fold_masked (A : Type) (d : bool) (e : A -> bool) (f : A -> Q)
    (ps : list A) (a : Q) :
  Forall (fun p => e p = d) ps ->
  (if d then fold_left (fun q p => q + f p) ps a else 0) ==
  fold_left (fun q p => q + (if e p then f p else 0)) ps (if d then a else 0).
Proof.
  intros Hps. revert a. induction Hps as [|p ps Hp _ IH]; intros a; simpl.
  - reflexivity.
  - rewrite IH. apply fold_plus_acc. rewrite Hp. destruct d; simpl; ring.
Qed.

Lemma sum3_fold (n : nat) (G : nat -> nat -> nat -> Q) (ps : list (list nat))
    (acc : nat -> nat -> nat -> Q) :
  Forall (fun p => sum3 n (fun i j k =>
            G (src p [i; j; k] 0) (src p [i; j; k] 1) (src p [i; j; k] 2))
          == sum3 n G) ps ->
  sum3 n (fun i j k =>
    fold_left (fun q p => q + G (src p [i; j; k] 0) (src p [i; j; k] 1)
                                (src p [i; j; k] 2)) ps (acc i j k)) ==
  sum3 n acc + inject_Z (Z.of_nat (length ps)) * sum3 n G.
Proof.
  intros Hps. revert acc. induction Hps as [|p ps Hp _ IH]; intros acc.
  - cbn [fold_left length Z.of_nat]. change (inject_Z 0) with 0.
    rewrite Qmult_0_l, Qplus_0_r. reflexivity.
  - cbn [fold_left length].
    rewrite (IH (fun i j k => acc i j k + G (src p [i; j; k] 0)
                   (src p [i; j; k] 1) (src p [i; j; k] 2))).
    rewrite sum3_plus, Hp, count_succ. ring.
Qed.

Lemma sum4_fold (n : nat) (G : nat -> nat -> nat -> nat -> Q)
    (ps : list (list nat)) (acc : nat -> nat -> nat -> nat -> Q) :
  Forall (fun p => sum4 n (fun i j k l =>
            G (src p [i; j; k; l] 0) (src p [i; j; k; l] 1)
              (src p [i; j; k; l] 2) (src p [i; j; k; l] 3))
          == sum4 n G) ps ->
  sum4 n (fun i j k l =>
    fold_left (fun q p => q + G (src p [i; j; k; l] 0) (src p [i; j; k; l] 1)
                                (src p [i; j; k; l] 2) (src p [i; j; k; l] 3))
              ps (acc i j k l)) ==
  sum4 n acc + inject_Z (Z.of_nat (length ps)) * sum4 n G.
Proof.
  intros Hps. revert acc. induction Hps as [|p ps Hp _ IH]; intros acc.
  - cbn [fold_left length Z.of_nat]. change (inject_Z 0) with 0.
    rewrite Qmult_0_l, Qplus_0_r. reflexivity.
  - cbn [fold_left length].
    rewrite (IH (fun i j k l => acc i j k l + G (src p [i; j; k; l] 0)
                   (src p [i; j; k; l] 1) (src p [i; j; k; l] 2)
                   (src p [i; j; k; l] 3))).
    rewrite sum4_plus, Hp, count_succ. ring.
Qed.

(** The axis orders that [transform] goes through keep tuples distinct and
    sums over all tuples unchanged. *)
Ltac each_permutation :=
  match goal with
  | |- Forall _ ?ps =>
      let l := eval vm_compute in ps in
      change ps with l; repeat apply List.Forall_cons; try apply List.Forall_nil
  end.

Lemma permutations3_distinct :
  Forall (fun p => forall i j k,
            distinct [src p [i; j; k] 0; src p [i; j; k] 1; src p [i; j; k] 2]
            = distinct [i; j; k])
         (permutations (seq 0 3)).
Proof.
  each_permutation; intros i j k; cbn [src index_of nth Nat.eqb];
    apply distinct_eq; rewrite !distinct3_spec; lia.
Qed.

Lemma permutations3_sum (n : nat) (G : nat -> nat -> nat -> Q) :
  Forall (fun p => sum3 n (fun i j k =>
            G (src p [i; j; k] 0) (src p [i; j; k] 1) (src p [i; j; k] 2))
          == sum3 n G)
         (permutations (seq 0 3)).
Proof. each_permutation; cbn [src index_of nth Nat.eqb]; unswap3 3%nat. Qed.

Lemma permutations4_distinct :
  Forall (fun p => forall i j k l,
            distinct [src p [i; j; k; l] 0; src p [i; j; k; l] 1;
                      src p [i; j; k; l] 2; src p [i; j; k; l] 3]
            = distinct [i; j; k; l])
         (permutations (seq 0 4)).
Proof.
  each_permutation; intros i j k l; cbn [src index_of nth Nat.eqb];
    apply distinct_eq; rewrite !distinct4_spec; lia.
Qed.

Lemma permutations4_sum (n : nat) (G : nat -> nat -> nat -> nat -> Q) :
  Forall (fun p => sum4 n (fun i j k l =>
            G (src p [i; j; k; l] 0) (src p [i; j; k; l] 1)
              (src p [i; j; k; l] 2) (src p [i; j; k; l] 3))
          == sum4 n G)
         (permutations (seq 0 4)).
Proof. each_permutation; cbn [src index_of nth Nat.eqb]; unswap4 6%nat. Qed.

Lemma trio_sum (n : nat) (t : ten3) :
  sum_distinct3 n (trio_of n t) == 6 * sum_distinct3 n t.
Proof.
  pose (G := fun i j k => if distinct [i; j; k] then get3 t i j k else 0).
  change (sum_distinct3 n t) with (sum3 n G).
  change (sum_distinct3 n (trio_of n t)) with
    (sum3 n (fun i j k => if distinct [i; j; k] then get3 (trio_of n t) i j k else 0)).
  transitivity (sum3 n (fun i j k =>
    fold_left (fun q p => q + G (src p [i; j; k] 0) (src p [i; j; k] 1)
                                (src p [i; j; k] 2))
              (permutations (seq 0 3)) 0)).
  { apply sum3_ext. intros i j k Hi Hj Hk. unfold trio_of.
    rewrite fold_add3_entry, get3_tab3 by assumption.
    rewrite (fold_masked _ (distinct [i; j; k])
               (fun p => distinct [src p [i; j; k] 0; src p [i; j; k] 1;
                                   src p [i; j; k] 2])).
    - apply fold_plus_acc. destruct (distinct [i; j; k]); reflexivity.
    - eapply List.Forall_impl; [|exact permutations3_distinct].
      intros p Hp. apply Hp. }
  rewrite (sum3_fold n G _ (fun _ _ _ => 0) (permutations3_sum n G)).
  assert (Hz : sum3 n (fun _ _ _ => 0) == 0).
  { unfold sum3. repeat (apply bigsum_zero; intros). reflexivity. }
  rewrite Hz. change (inject_Z (Z.of_nat (length (permutations (seq 0 3))))) with 6.
  ring.
Qed.

Lemma first_4_sum (n : nat) (t : ten4) :
  sum_distinct4 n (first_4_of n t) == 24 * sum_distinct4 n t.
Proof.
  pose (G := fun i j k l => if distinct [i; j; k; l] then get4 t i j k l else 0).
  change (sum_distinct4 n t) with (sum4 n G).
  change (sum_distinct4 n (first_4_of n t)) with
    (sum4 n (fun i j k l =>
       if distinct [i; j; k; l] then get4 (first_4_of n t) i j k l else 0)).
  transitivity (sum4 n (fun i j k l =>
    fold_left (fun q p => q + G (src p [i; j; k; l] 0) (src p [i; j; k; l] 1)
                                (src p [i; j; k; l] 2) (src p [i; j; k; l] 3))
              (permutations (seq 0 4)) 0)).
  { apply sum4_ext. intros i j k l Hi Hj Hk Hl. unfold first_4_of.
    rewrite fold_add4_entry, get4_tab4 by assumption.
    rewrite (fold_masked _ (distinct [i; j; k; l])
               (fun p => distinct [src p [i; j; k; l] 0; src p [i; j; k; l] 1;
                                   src p [i; j; k; l] 2; src p [i; j; k; l] 3])).
    - apply fold_plus_acc. destruct (distinct [i; j; k; l]); reflexivity.
    - eapply List.Forall_impl; [|exact permutations4_distinct].
      intros p Hp. apply Hp. }
  rewrite (sum4_fold n G _ (fun _ _ _ _ => 0) (permutations4_sum n G)).
  assert (Hz : sum4 n (fun _ _ _ _ => 0) == 0).
  { unfold sum4. repeat (apply bigsum_zero; intros). reflexivity. }
  rewrite Hz. change (inject_Z (Z.of_nat (length (permutations (seq 0 4))))) with 24.
  ring.
Qed.


Lemma bigsum2_plus (n : nat) (f g : nat -> nat -> Q) :
  bigsum n (fun i => bigsum n (fun j => f i j + g i j)) ==
  bigsum n (fun i => bigsum n (fun j => f i j)) +
  bigsum n (fun i => bigsum n (fun j => g i j)).
Proof. rewrite <- bigsum_plus. apply bigsum_ext; intros i _. apply bigsum_plus. Qed.

(** Sums over all tuples and over the distinct ones agree for a tensor that
    is zero elsewhere. *)
Lemma sum2_full (n : nat) (m : mat) :
  (forall i, (i < n)%nat -> get2 m i i == 0) ->
  bigsum n (fun a => bigsum n (fun b => get2 m a b)) == sum_distinct2 n m.
Proof.
  intros Hz. unfold sum_distinct2.
  apply bigsum_ext; intros i Hi. apply bigsum_ext; intros j Hj.
  rewrite distinct2. destruct (Nat.eqb_spec i j) as [<-|]; simpl;
    [now apply Hz | reflexivity].
Qed.

Lemma sum3_full (n : nat) (t : ten3) :
  (forall i j k, (i < n)%nat -> (j < n)%nat -> (k < n)%nat ->
     distinct [i; j; k] = false -> get3 t i j k == 0) ->
  sum3 n (fun i j k => get3 t i j k) == sum_distinct3 n t.
Proof.
  intros Hz. apply sum3_ext. intros i j k Hi Hj Hk.
  destruct (distinct [i; j; k]) eqn:Hd; [reflexivity | now apply Hz].
Qed.

(** *** place *)

Lemma place_sum (n : nat) (pi : vec) (pij : mat) (pijk : ten3) :
  vsum (place_of n pi pij pijk) ==
  bigsum n (get1 pi) + bigsum n (fun a => bigsum n (fun b => get2 pij a b)) +
  sum3 n (fun i j k => get3 pijk i j k).
Proof.
  unfold place_of, add1. rewrite vsum_tab.
  transitivity (bigsum n (fun i =>
    get1 pi i + bigsum n (fun b => get2 pij i b) +
    bigsum n (fun a => bigsum n (fun j => get3 pijk a j i)))).
  { apply bigsum_ext; intros i Hi.
    unfold sum2_axis1, sum2_axis0, sum3_axis1.
    rewrite !get1_tab by assumption.
    apply Qplus_comp; [reflexivity|].
    apply bigsum_ext; intros a Ha. now rewrite get2_tab2. }
  rewrite !bigsum_plus.
  apply Qplus_comp; [reflexivity|].
  destruct (sum3_perms n (fun i j k => get3 pijk i j k)) as (_ & _ & H & _).
  exact H.
Qed.

(** *** place_q *)

Lemma place_q_sum (n : nat) (pij : mat) (pijk : ten3) :
  (forall i j k, (i < n)%nat -> (j < n)%nat -> (k < n)%nat ->
     distinct [i; j; k] = false -> get3 pijk i j k == 0) ->
  sum_distinct2 n (place_q_of n pij pijk) ==
  2 * sum_distinct2 n pij + 4 * sum_distinct3 n pijk.
Proof.
  intros Hz.
  pose (M := fun i j => if distinct [i; j] then get2 pij i j else 0).
  pose (G := fun i j k => if distinct [i; j; k] then get3 pijk i j k else 0).
  assert (HG : forall i j k, (i < n)%nat -> (j < n)%nat -> (k < n)%nat ->
                 get3 pijk i j k == G i j k).
  { intros i j k Hi Hj Hk. unfold G.
    destruct (distinct [i; j; k]) eqn:Hd; [reflexivity | now apply Hz]. }
  assert (HG0 : forall i j k, distinct [i; j] = false ->
                  G i k j == 0 /\ G j k i == 0 /\ G k i j == 0 /\ G k j i == 0).
  { intros i j k Hd. unfold G. rewrite distinct2 in Hd.
    destruct (Nat.eqb_spec i j) as [->|]; [|discriminate].
    rewrite !distinct3, Nat.eqb_refl, (Nat.eqb_sym k j).
    destruct (j =? k)%nat; simpl; repeat split; reflexivity. }
  change (sum_distinct2 n pij) with (bigsum n (fun i => bigsum n (fun j => M i j))).
  change (sum_distinct3 n pijk) with (sum3 n G).
  transitivity (bigsum n (fun i => bigsum n (fun j =>
    M i j + M j i + bigsum n (fun k => G i k j) + bigsum n (fun k => G j k i) +
    bigsum n (fun k => G k i j) + bigsum n (fun k => G k j i)))).
  { unfold sum_distinct2. apply bigsum_ext; intros i Hi. apply bigsum_ext; intros j Hj.
    unfold place_q_of, add2, transpose2, sum3_axis0, sum3_axis1.
    rewrite !get2_tab2 by assumption. unfold M.
    replace (distinct [j; i]) with (distinct [i; j])
      by (apply distinct_eq; rewrite !distinct2_spec; lia).
    destruct (distinct [i; j]) eqn:Hd.
    - repeat apply Qplus_comp; try reflexivity;
        apply bigsum_ext; intros k Hk; now apply HG.
    - rewrite !bigsum_zero; [ring | | | |]; intros k _; now apply (HG0 i j k). }
  rewrite !bigsum2_plus.
  rewrite (bigsum_swap n n (fun i j => M j i)).
  destruct (sum3_perms n G) as (H1 & _ & H3 & H4 & H5).
  unfold sum3 in H1, H3, H4, H5 |- *. rewrite H1, H3, H4, H5. ring.
Qed.

(** *** The tensors that [transform] computes are zero at repeated indices,
    unless [np.divide] left a place as it was *)

Lemma level2_diag (n : nat) (pi p_i2 : vec) (i : nat) :
  (i < n)%nat -> get2 (level2 n pi p_i2) i i = 0.
Proof. intros Hi. rewrite level2_entry by assumption. now rewrite Nat.eqb_refl. Qed.

Lemma level3_repeated (uninit2 : nat -> nat -> Q) (n : nat) (pij : mat)
    (p_i3 : vec) (i j k : nat) :
  (forall a, (a < n)%nat -> get2 pij a a == 0) ->
  (forall a, (a < n)%nat -> ~ 1 - get1 p_i3 a - get1 p_i3 a == 0) ->
  (i < n)%nat -> (j < n)%nat -> (k < n)%nat ->
  distinct [i; j; k] = false ->
  get3 (level3 uninit2 n pij p_i3) i j k == 0.
Proof.
  intros Hdiag Hden Hi Hj Hk Hd.
  rewrite level3_entry by assumption.
  destruct (Nat.eqb_spec k i) as [->|Hki]; [reflexivity|].
  destruct (Nat.eqb_spec k j) as [->|Hkj]; [reflexivity|].
  assert (Hij : i = j).
  { destruct (Nat.eq_dec i j) as [|Hne]; [assumption|].
    assert (distinct [i; j; k] = true) by (apply distinct3_spec; lia). congruence. }
  subst j.
  destruct (Qeq_bool _ 0) eqn:Hz.
  - apply Qeq_bool_eq in Hz. now apply Hden in Hz.
  - rewrite (Hdiag i Hi). unfold Qdiv. ring.
Qed.

Lemma level4_repeated (uninit3 : nat -> nat -> nat -> Q) (n : nat) (pijk : ten3)
    (p_i4 : vec) (a b c d : nat) :
  (a < n)%nat -> (b < n)%nat -> (c < n)%nat -> (d < n)%nat ->
  distinct [a; b; c; d] = false ->
  get4 (level4 uninit3 n pijk p_i4) a b c d = 0.
Proof.
  intros Ha Hb Hc Hd Hdis. rewrite level4_entry by assumption. now rewrite Hdis.
Qed.

End PoolFacts.

Module PoolClaims.
Import NP Prob Range NPFacts LevelFacts RunFacts RangeFacts OrderClaims PoolFacts.

Section Claims.

Variable power : Q -> Q -> Q.
Variable uninit2 : nat -> nat -> Q.
Variable uninit3 : nat -> nat -> nat -> Q.

Lemma outcome_values (ws : vec) (cs : list Q) :
  let n := length ws in
  let out := outcome power uninit2 uninit3 ws cs in
  out "win"%string = inr (Arr1 (order1 power ws cs)) /\
  ((2 < n)%nat ->
   out "quinella"%string = inr (Arr2 (quinella_of n (order2 power ws cs)))) /\
  ((3 < n)%nat ->
   out "tierce"%string = inr (Arr3 (order3 power uninit2 ws cs)) /\
   out "trio"%string = inr (Arr3 (trio_of n (order3 power uninit2 ws cs))) /\
   out "place"%string =
     inr (Arr1 (place_of n (order1 power ws cs) (order2 power ws cs)
                           (order3 power uninit2 ws cs))) /\
   out "place_q"%string =
     inr (Arr2 (place_q_of n (order2 power ws cs) (order3 power uninit2 ws cs)))) /\
  ((4 < n)%nat ->
   out "quartet"%string = inr (Arr4 (order4 power uninit2 uninit3 ws cs)) /\
   out "first_4"%string =
     inr (Arr4 (first_4_of n (order4 power uninit2 uninit3 ws cs)))).
Proof.
  intros n out. subst out. unfold outcome. fold n.
  cbn [String.eqb Ascii.eqb Bool.eqb].
  destruct (Nat.leb_spec n 2), (Nat.leb_spec n 3), (Nat.leb_spec n 4);
    repeat split; intros; try reflexivity; lia.
Qed.

(** C5, as the code has it, for weights in the range where rounding stays
    small.  For positive weights in that range and an instance made by the
    constructor and used by any calls of [transform], the entries of a
    pool's output at pairwise distinct index tuples sum to 1 for [win],
    [tierce] and [quartet], to 2 for [quinella], to 6 for [trio] and to 24
    for [first_4]: an output that is symmetric in its indices holds every
    unordered set once per order.  The [place] vector sums to 3 and the
    off-diagonal entries of [place_q] to 6, as long as no rank weight of
    level 3 is within 2^-20 of 1/2.  In the range no entry of [comp] at
    different indices is 0, and away from 1/2 none on its diagonal, in
    doubles as in exact arithmetic: [np.divide] writes every place.  The
    proof is in exact arithmetic. *)
Theorem pool_sums (h : heap) (ws : vec) (cref : nat) (cs : list Q)
    (s : ProbProber) :
  power_pos power -> all_pos ws -> h !! cref = Some cs ->
  let h1 := fst (init h ws cref) in
  well_conditioned power ws (deref h1 cref) = true ->
  reachable power uninit2 uninit3 h1 (snd (init h ws cref)) s ->
  let n := length ws in
  let out pool := snd (transform power uninit2 uninit3 h1 pool s) in
  ((1 <= n)%nat -> exists v, out "win"%string = inr (Arr1 v) /\ vsum v == 1) /\
  ((2 < n)%nat ->
   exists m, out "quinella"%string = inr (Arr2 m) /\ sum_distinct2 n m == 2) /\
  ((3 < n)%nat ->
   exists t, out "tierce"%string = inr (Arr3 t) /\ sum_distinct3 n t == 1) /\
  ((3 < n)%nat ->
   exists t, out "trio"%string = inr (Arr3 t) /\ sum_distinct3 n t == 6) /\
  ((3 < n)%nat -> away_from_half power ws (deref h1 cref) = true ->
   exists v, out "place"%string = inr (Arr1 v) /\ vsum v == 3) /\
  ((3 < n)%nat -> away_from_half power ws (deref h1 cref) = true ->
   exists m, out "place_q"%string = inr (Arr2 m) /\ sum_distinct2 n m == 6) /\
  ((4 < n)%nat ->
   exists t, out "quartet"%string = inr (Arr4 t) /\ sum_distinct4 n t == 1) /\
  ((4 < n)%nat ->
   exists t, out "first_4"%string = inr (Arr4 t) /\ sum_distinct4 n t == 24).
Proof.
  intros Hpow Hws Hc h1 _ Hreach n out. subst n.
  set (cs1 := deref h1 cref).
  pose (rw3 := rank_weight power ws (nth 2 cs1 1)).
  assert (Hout : forall pool, In pool pools ->
            out pool = outcome power uninit2 uninit3 ws cs1 pool).
  { intros pool Hin. subst out. cbv beta.
    destruct (transform_reachable power uninit2 uninit3 h ws cref cs s pool
                Hc Hreach Hin) as (k & _ & Hrun).
    unfold h1. now rewrite Hrun. }
  destruct (outcome_values ws cs1) as (Owin & Oquin & O3 & O4).
  assert (Hzero3 : (3 < length ws)%nat ->
            (forall i, (i < length ws)%nat -> ~ get1 rw3 i == 1 # 2) ->
            forall i j k, (i < length ws)%nat -> (j < length ws)%nat -> (k < length ws)%nat ->
              distinct [i; j; k] = false ->
              get3 (order3 power uninit2 ws cs1) i j k == 0).
  { intros Hn Hhalf i j k Hi Hj Hk Hd. unfold order3.
    apply level3_repeated; try assumption.
    - intros a Ha. unfold order2. now rewrite level2_diag.
    - intros a Ha Hden. apply (Hhalf a Ha).
      change (rank_weight power ws (nth 2 cs1 1)) with rw3 in Hden. lra. }
  repeat split.
  - intros Hn. exists (order1 power ws cs1).
    split; [rewrite Hout by (simpl; tauto); exact Owin|].
    now apply order1_sum.
  - intros Hn. eexists.
    split; [rewrite Hout by (simpl; tauto); exact (Oquin Hn)|].
    rewrite quinella_sum, order2_sum by (try assumption; lia). ring.
  - intros Hn. destruct (O3 Hn) as (Ot & _). eexists.
    split; [rewrite Hout by (simpl; tauto); exact Ot|].
    apply order3_sum; try assumption. lia.
  - intros Hn. destruct (O3 Hn) as (_ & Ot & _). eexists.
    split; [rewrite Hout by (simpl; tauto); exact Ot|].
    rewrite trio_sum, order3_sum by (try assumption; lia). ring.
  - intros Hn Hh.
    pose proof (fun i Hi => away_from_half_spec power ws cs1 i Hh Hi) as Hhalf.
    destruct (O3 Hn) as (_ & _ & Ot & _). eexists.
    split; [rewrite Hout by (simpl; tauto); exact Ot|].
    rewrite place_sum, sum2_full, (sum3_full (length ws) (order3 power uninit2 ws cs1)).
    + destruct (order1_prob_vec power ws cs1 Hpow Hws) as [_ H1]; [lia|].
      rewrite H1.
      rewrite order2_sum, order3_sum by (try assumption; lia). ring.
    + now apply Hzero3.
    + intros i Hi. unfold order2. now rewrite level2_diag.
  - intros Hn Hh.
    pose proof (fun i Hi => away_from_half_spec power ws cs1 i Hh Hi) as Hhalf.
    destruct (O3 Hn) as (_ & _ & _ & Ot). eexists.
    split; [rewrite Hout by (simpl; tauto); exact Ot|].
    rewrite place_q_sum by (now apply Hzero3).
    rewrite order2_sum, order3_sum by (try assumption; lia). ring.
  - intros Hn. destruct (O4 Hn) as (Ot & _). eexists.
    split; [rewrite Hout by (simpl; tauto); exact Ot|].
    apply order4_sum; try assumption. lia.
  - intros Hn. destruct (O4 Hn) as (_ & Ot). eexists.
    split; [rewrite Hout by (simpl; tauto); exact Ot|].
    rewrite first_4_sum, order4_sum by (try assumption; lia). ring.
Qed.

End Claims.

(** The off-diagonal entries of [quinella] for three equal weights sum
    to 2. *)
Lemma quinella_sums_to_two :
  let ws := [1; 1; 1] in
  let out := snd (transform ipower (fun _ _ => 0) (fun _ _ _ => 0)
                    (fst (init heap0 ws default_c)) "quinella"
                    (snd (init heap0 ws default_c))) in
  exists m, out = inr (Arr2 m) /\ sum_distinct2 3 m == 2 /\ ~ sum_distinct2 3 m == 1.
Proof.
  eexists. split; [reflexivity|]. split; vm_compute; [reflexivity | discriminate].
Qed.

End PoolClaims.

Module Witnesses.
Import NP Prob Range RunFacts OrderClaims PoolClaims.

Lemma order_tensors_sum_to_one_witness :
  let h := <[1%nat := [1; 2]]> heap0 in
  let ws := [1; 2; 3; 4; 5] in
  let h1 := fst (init h ws 1%nat) in
  let s1 := fst (transform ipower (fun _ _ => 0) (fun _ _ _ => 0) h1 "quartet"
                   (snd (init h ws 1%nat))) in
  ((1 <= 5)%nat -> exists v, p_i s1 = Some v /\ vsum v == 1) /\
  ((2 < 5)%nat -> "quartet"%string <> "win"%string ->
   exists m, p_ij s1 = Some m /\ sum_distinct2 5 m == 1) /\
  ((3 < 5)%nat ->
   In "quartet"%string
      ["tierce"; "trio"; "place"; "place_q"; "quartet"; "first_4"]%string ->
   exists t, p_ijk s1 = Some t /\ sum_distinct3 5 t == 1) /\
  ((4 < 5)%nat -> In "quartet"%string ["quartet"; "first_4"]%string ->
   exists t, p_ijkl s1 = Some t /\ sum_distinct4 5 t == 1).
Proof.
  apply (order_tensors_sum_to_one ipower (fun _ _ => 0) (fun _ _ _ => 0)
           (<[1%nat := [1; 2]]> heap0) [1; 2; 3; 4; 5] 1%nat [1; 2]
           (snd (init (<[1%nat := [1; 2]]> heap0) [1; 2; 3; 4; 5] 1%nat))
           "quartet").
  - exact ipower_pos.
  - repeat constructor.
  - reflexivity.
  - vm_compute. reflexivity.
  - constructor.
  - simpl. tauto.
Defined.

Lemma pool_sums_witness :
  let h := <[1%nat := [1; 2]]> heap0 in
  let ws := [1; 2; 3; 4; 5] in
  let h1 := fst (init h ws 1%nat) in
  let out pool := snd (transform ipower (fun _ _ => 0) (fun _ _ _ => 0) h1 pool
                         (snd (init h ws 1%nat))) in
  ((1 <= 5)%nat -> exists v, out "win"%string = inr (Arr1 v) /\ vsum v == 1) /\
  ((2 < 5)%nat ->
   exists m, out "quinella"%string = inr (Arr2 m) /\ sum_distinct2 5 m == 2) /\
  ((3 < 5)%nat ->
   exists t, out "tierce"%string = inr (Arr3 t) /\ sum_distinct3 5 t == 1) /\
  ((3 < 5)%nat ->
   exists t, out "trio"%string = inr (Arr3 t) /\ sum_distinct3 5 t == 6) /\
  ((3 < 5)%nat -> away_from_half ipower ws (deref h1 1%nat) = true ->
   exists v, out "place"%string = inr (Arr1 v) /\ vsum v == 3) /\
  ((3 < 5)%nat -> away_from_half ipower ws (deref h1 1%nat) = true ->
   exists m, out "place_q"%string = inr (Arr2 m) /\ sum_distinct2 5 m == 6) /\
  ((4 < 5)%nat ->
   exists t, out "quartet"%string = inr (Arr4 t) /\ sum_distinct4 5 t == 1) /\
  ((4 < 5)%nat ->
   exists t, out "first_4"%string = inr (Arr4 t) /\ sum_distinct4 5 t == 24).
Proof.
  apply (pool_sums ipower (fun _ _ => 0) (fun _ _ _ => 0)
           (<[1%nat := [1; 2]]> heap0) [1; 2; 3; 4; 5] 1%nat [1; 2]
           (snd (init (<[1%nat := [1; 2]]> heap0) [1; 2; 3; 4; 5] 1%nat))).
  - exact ipower_pos.
  - repeat constructor.
  - reflexivity.
  - vm_compute. reflexivity.
  - constructor.
Defined.

End Witnesses.

(** ** Calls of [transform]: errors, cache and coefficient list *)

Module CallFacts.
Import NP Prob NPFacts LevelFacts RunFacts.

Section Calls.

Variable power : Q -> Q -> Q.
Variable uninit2 : nat -> nat -> Q.
Variable uninit3 : nat -> nat -> nat -> Q.

(** With the levels that [pool] needs in the cache, [transform] reads
    neither the weights nor the coefficient list. *)
Lemma transform_cached (h' : heap) (ws : vec) (cref : nat) (cs : list Q)
    (pool : string) (k : nat) :
  In pool pools -> (reach pool (length ws) <= k <= 4)%nat ->
  transform power uninit2 uninit3 h' pool (state_at power uninit2 uninit3 ws cref cs k) =
  (state_at power uninit2 uninit3 ws cref cs k,
   outcome power uninit2 uninit3 ws cs pool).
Proof.
  intros Hpool Hk.
  assert (Hk' : k = 0%nat \/ k = 1%nat \/ k = 2%nat \/ k = 3%nat \/ k = 4%nat) by lia.
  unfold pools in Hpool. simpl in Hpool.
  unfold transform, outcome, state_at, load_p_i, load_p_ij, load_p_ijk,
    load_p_ijkl, coef, _check_dim, _check_pool, bind, gets, modify, ret, raise.
  unfold reach in Hk.
  destruct (length ws <=? 2)%nat eqn:E2, (length ws <=? 3)%nat eqn:E3,
    (length ws <=? 4)%nat eqn:E4;
    try (exfalso;
         repeat match goal with
                | H : (_ <=? _)%nat = true |- _ => apply Nat.leb_le in H
                | H : (_ <=? _)%nat = false |- _ => apply Nat.leb_gt in H
                end; lia);
    destruct Hk' as [->|[->|[->|[->| ->]]]];
    destruct Hpool as [<-|[<-|[<-|[<-|[<-|[<-|[<-|[<-|[]]]]]]]]];
    cbn in Hk; try lia;
    do 8 (cbn [existsb String.eqb Ascii.eqb Bool.eqb pools orb andb negb
               wos c p_i p_ij p_ijk p_ijkl Nat.leb Nat.max fst snd
               lookup list_lookup default nth];
          rewrite ?E2, ?E3, ?E4);
    reflexivity.
Qed.

Lemma outcome_error (ws : vec) (cs : list Q) (pool : string) (e : error) :
  outcome power uninit2 uninit3 ws cs pool = inl e ->
  exists b, e = NotEnoughCompetitors b.
Proof.
  unfold outcome.
  repeat match goal with
         | |- context [if ?b then _ else _] => destruct b
         end; intros H; inversion H; eauto.
Qed.

End Calls.
End CallFacts.

Module CallProps.
Import NP Prob NPFacts LevelFacts RunFacts CallFacts.

Section Props.

Variable power : Q -> Q -> Q.
Variable uninit2 : nat -> nat -> Q.
Variable uninit3 : nat -> nat -> nat -> Q.

(** X1.  [transform] raises the invalid-pool error exactly for the names
    that are not among the eight pools, whatever calls the instance has
    seen; the error carries the name, and the instance is left as it was:
    no level is computed for a name that is not a pool. *)
Theorem invalid_pool_iff (h : heap) (ws : vec) (cref : nat) (cs : list Q)
    (s : ProbProber) (pool : string) :
  h !! cref = Some cs ->
  let h1 := fst (init h ws cref) in
  reachable power uninit2 uninit3 h1 (snd (init h ws cref)) s ->
  let r := transform power uninit2 uninit3 h1 pool s in
  ((exists p, snd r = inl (InvalidPool p)) <-> ~ In pool pools) /\
  (~ In pool pools -> r = (s, inl (InvalidPool pool))).
Proof.
  intros Hc h1 Hreach r. split; [split|].
  - intros (p & Hp) Hin.
    destruct (transform_reachable power uninit2 uninit3 h ws cref cs s pool
                Hc Hreach Hin) as (k & _ & Hrun).
    subst r. unfold h1 in Hp. rewrite Hrun in Hp. cbn [snd] in Hp.
    apply outcome_error in Hp. destruct Hp as (b & Hb). discriminate.
  - intros Hnot. exists pool. subst r.
    now rewrite transform_invalid_pool.
  - intros Hnot. subst r. now apply transform_invalid_pool.
Qed.

(** X2.  The cache does not show in the results: on an instance that has
    seen any calls of [transform], a call gives what it gives on a new
    instance of the same weights and coefficient list, the memory that
    [np.divide] leaves unwritten holding the same in both. *)
Theorem result_independent_of_history (h : heap) (ws : vec) (cref : nat)
    (cs : list Q) (s : ProbProber) (pool : string) :
  h !! cref = Some cs ->
  let h1 := fst (init h ws cref) in
  reachable power uninit2 uninit3 h1 (snd (init h ws cref)) s ->
  snd (transform power uninit2 uninit3 h1 pool s) =
  snd (transform power uninit2 uninit3 h1 pool (snd (init h ws cref))).
Proof.
  intros Hc h1 Hreach.
  destruct (in_dec string_dec pool pools) as [Hin|Hnot].
  - destruct (transform_reachable power uninit2 uninit3 h ws cref cs s pool
                Hc Hreach Hin) as (k & _ & Hrun).
    destruct (transform_reachable power uninit2 uninit3 h ws cref cs
                (snd (init h ws cref)) pool Hc (reach_new _ _ _ _ _) Hin)
      as (k0 & _ & Hrun0).
    unfold h1. now rewrite Hrun, Hrun0.
  - now rewrite !transform_invalid_pool.
Qed.

(** X3.  What a call has computed is not computed again, and not read
    again from the coefficient list: after [transform(pool)], a second
    [transform(pool)] leaves the instance as it is and returns the same,
    whatever the caller has done to the coefficient list in between
    (heap [h'] is any heap). *)
Theorem second_call_uses_cache (h h' : heap) (ws : vec) (cref : nat)
    (cs : list Q) (s : ProbProber) (pool : string) :
  h !! cref = Some cs ->
  let h1 := fst (init h ws cref) in
  reachable power uninit2 uninit3 h1 (snd (init h ws cref)) s ->
  let s1 := fst (transform power uninit2 uninit3 h1 pool s) in
  transform power uninit2 uninit3 h' pool s1 =
  (s1, snd (transform power uninit2 uninit3 h1 pool s)).
Proof.
  intros Hc h1 Hreach s1.
  destruct (in_dec string_dec pool pools) as [Hin|Hnot].
  - destruct (transform_reachable power uninit2 uninit3 h ws cref cs s pool
                Hc Hreach Hin) as (k & Hk & Hrun).
    subst s1. unfold h1. rewrite Hrun. cbn [fst snd].
    now apply transform_cached.
  - subst s1. now rewrite !transform_invalid_pool.
Qed.

(** X4.  A call never empties a cache slot and never replaces what a slot
    holds. *)
Theorem cache_slots_kept (h : heap) (ws : vec) (cref : nat) (cs : list Q)
    (s : ProbProber) (pool : string) :
  h !! cref = Some cs ->
  let h1 := fst (init h ws cref) in
  reachable power uninit2 uninit3 h1 (snd (init h ws cref)) s ->
  let s1 := fst (transform power uninit2 uninit3 h1 pool s) in
  wos s1 = ws /\ c s1 = cref /\
  (forall v, p_i s = Some v -> p_i s1 = Some v) /\
  (forall m, p_ij s = Some m -> p_ij s1 = Some m) /\
  (forall t, p_ijk s = Some t -> p_ijk s1 = Some t) /\
  (forall t, p_ijkl s = Some t -> p_ijkl s1 = Some t).
Proof.
  intros Hc h1 Hreach s1.
  assert (Hlen : (4 <= length (deref h1 cref))%nat)
    by (now apply (init_coefficients_length h ws cref cs)).
  pose proof Hreach as Hs.
  rewrite (init_instance power uninit2 uninit3 h ws cref (deref h1 cref)) in Hs.
  destruct (reachable_state_at power uninit2 uninit3 h1 ws cref _ s eq_refl Hlen Hs)
    as (k & Hk4 & _ & Hsk).
  assert (Hs1 : exists k1, (k <= k1)%nat /\
            s1 = state_at power uninit2 uninit3 ws cref (deref h1 cref) k1).
  { destruct (in_dec string_dec pool pools) as [Hin|Hnot].
    - exists (Nat.max k (reach pool (length ws))). split; [lia|].
      subst s1 s. now rewrite transform_state_at.
    - exists k. split; [lia|]. subst s1. now rewrite transform_invalid_pool. }
  destruct Hs1 as (k1 & Hkk & Hs1). rewrite Hs1, Hsk. unfold state_at.
  cbn [wos c p_i p_ij p_ijk p_ijkl].
  split; [reflexivity|]. split; [reflexivity|].
  repeat split; intros x Hx;
    match goal with
    | H : (if (?a <=? k)%nat then _ else _) = Some _ |- _ =>
        destruct (Nat.leb_spec a k); [|discriminate];
        destruct (Nat.leb_spec a k1); [assumption|lia]
    end.
Qed.

(** X5.  A call that fails for lack of competitors has still changed the
    instance: with at most two competitors, [transform] of a pool other
    than [win] on a new instance raises the error with bound 2, and has
    stored the win probabilities in [p_i]; the other slots stay empty. *)
Theorem failed_call_caches_win (h : heap) (ws : vec) (cref : nat) (cs : list Q)
    (pool : string) :
  h !! cref = Some cs -> (length ws <= 2)%nat ->
  In pool pools -> pool <> "win"%string ->
  let h1 := fst (init h ws cref) in
  transform power uninit2 uninit3 h1 pool (snd (init h ws cref)) =
  (mkProbProber ws cref (Some (rank_weight power ws (nth 0 (deref h1 cref) 1)))
                None None None,
   inl (NotEnoughCompetitors 2)).
Proof.
  intros Hc Hn Hin Hwin h1.
  assert (Hlen : (4 <= length (deref h1 cref))%nat)
    by (now apply (init_coefficients_length h ws cref cs)).
  rewrite (init_instance power uninit2 uninit3 h ws cref (deref h1 cref)).
  rewrite (transform_state_at power uninit2 uninit3 h1 ws cref _ pool 0 eq_refl Hlen Hin)
    by lia.
  unfold reach, outcome.
  destruct (String.eqb_spec pool "win"); [contradiction|].
  destruct (Nat.leb_spec (length ws) 2); [|lia].
  reflexivity.
Qed.

(** X6.  The coefficients are read when a level is first computed, not when
    the instance is made.  If the caller changes the list after
    [transform('win')] (heap [h'], with [cs'] behind the reference), a later
    [transform('quinella')] combines the win probabilities of the old first
    coefficient with the rank weights of the new second coefficient. *)
Theorem quinella_after_coefficient_change (h h' : heap) (ws : vec) (cref : nat)
    (cs cs' : list Q) :
  h !! cref = Some cs -> h' !! cref = Some cs' -> (2 <= length cs')%nat ->
  (2 < length ws)%nat ->
  let h1 := fst (init h ws cref) in
  let s1 := fst (transform power uninit2 uninit3 h1 "win" (snd (init h ws cref))) in
  let c1_old := nth 0 (deref h1 cref) 1 in
  let c2_new := nth 1 cs' 1 in
  snd (transform power uninit2 uninit3 h' "quinella" s1) =
  inr (Arr2 (quinella_of (length ws)
               (level2 (length ws) (rank_weight power ws c1_old)
                                   (rank_weight power ws c2_new)))).
Proof.
  intros Hc Hc' Hlen' Hn h1 s1 c1_old c2_new.
  assert (Hlen : (4 <= length (deref h1 cref))%nat)
    by (now apply (init_coefficients_length h ws cref cs)).
  subst s1.
  rewrite (init_instance power uninit2 uninit3 h ws cref (deref h1 cref)).
  rewrite (transform_state_at power uninit2 uninit3 h1 ws cref _ "win" 0 eq_refl Hlen)
    by (simpl; tauto || lia).
  cbn [fst reach String.eqb Ascii.eqb Bool.eqb Nat.max].
  destruct cs' as [|a [|b rest]]; simpl in Hlen'; try lia.
  unfold transform, state_at, load_p_i, load_p_ij, coef, _check_dim, _check_pool,
    bind, gets, modify, ret, raise, deref.
  destruct (Nat.leb_spec (length ws) 2); [lia|].
  cbn [existsb String.eqb Ascii.eqb Bool.eqb pools orb andb negb
       wos c p_i p_ij p_ijk p_ijkl Nat.leb fst snd].
  destruct (Nat.leb_spec (length ws) 2); [lia|].
  do 4 (cbn [existsb String.eqb Ascii.eqb Bool.eqb pools orb andb negb
             wos c p_i p_ij p_ijk p_ijkl Nat.leb fst snd lookup list_lookup
             default nth];
        rewrite ?Hc').
  reflexivity.
Qed.

End Props.

Lemma invalid_pool_iff_witness :
  let ws := [1; 2; 3] in
  let h1 := fst (init heap0 ws default_c) in
  let r := transform ipower (fun _ _ => 0) (fun _ _ _ => 0) h1 "Win"
             (snd (init heap0 ws default_c)) in
  ((exists p, snd r = inl (InvalidPool p)) <-> ~ In "Win"%string pools) /\
  (~ In "Win"%string pools -> r = (snd (init heap0 ws default_c), inl (InvalidPool "Win"))).
Proof.
  apply (invalid_pool_iff ipower (fun _ _ => 0) (fun _ _ _ => 0)
           heap0 [1; 2; 3] default_c [1; 1; 1; 1]
           (snd (init heap0 [1; 2; 3] default_c)) "Win").
  - reflexivity.
  - apply reach_new.
Defined.

Lemma result_independent_of_history_witness :
  let ws := [1; 2; 3] in
  let h1 := fst (init heap0 ws default_c) in
  let s0 := snd (init heap0 ws default_c) in
  let s := fst (transform ipower (fun _ _ => 0) (fun _ _ _ => 0) h1 "quinella" s0) in
  snd (transform ipower (fun _ _ => 0) (fun _ _ _ => 0) h1 "win" s) =
  snd (transform ipower (fun _ _ => 0) (fun _ _ _ => 0) h1 "win" s0).
Proof.
  apply (result_independent_of_history ipower (fun _ _ => 0) (fun _ _ _ => 0)
           heap0 [1; 2; 3] default_c [1; 1; 1; 1]
           (fst (transform ipower (fun _ _ => 0) (fun _ _ _ => 0)
                   (fst (init heap0 [1; 2; 3] default_c)) "quinella"
                   (snd (init heap0 [1; 2; 3] default_c)))) "win").
  - reflexivity.
  - apply reach_call. apply reach_new.
Defined.

Lemma second_call_uses_cache_witness :
  let h := <[1%nat := [1; 2]]> heap0 in
  let h' := <[1%nat := [3; 4; 5; 6]]> heap0 in
  let ws := [1; 2; 3] in
  let h1 := fst (init h ws 1%nat) in
  let s0 := snd (init h ws 1%nat) in
  let s1 := fst (transform ipower (fun _ _ => 0) (fun _ _ _ => 0) h1 "quinella" s0) in
  transform ipower (fun _ _ => 0) (fun _ _ _ => 0) h' "quinella" s1 =
  (s1, snd (transform ipower (fun _ _ => 0) (fun _ _ _ => 0) h1 "quinella" s0)).
Proof.
  apply (second_call_uses_cache ipower (fun _ _ => 0) (fun _ _ _ => 0)
           (<[1%nat := [1; 2]]> heap0) (<[1%nat := [3; 4; 5; 6]]> heap0)
           [1; 2; 3] 1%nat [1; 2]
           (snd (init (<[1%nat := [1; 2]]> heap0) [1; 2; 3] 1%nat)) "quinella").
  - reflexivity.
  - apply reach_new.
Defined.

Lemma cache_slots_kept_witness :
  let ws := [1; 2; 3; 4; 5] in
  let h1 := fst (init heap0 ws default_c) in
  let s := fst (transform ipower (fun _ _ => 0) (fun _ _ _ => 0) h1 "quartet"
                  (snd (init heap0 ws default_c))) in
  let s1 := fst (transform ipower (fun _ _ => 0) (fun _ _ _ => 0) h1 "quinella" s) in
  (exists v m t q,
     p_i s = Some v /\ p_ij s = Some m /\ p_ijk s = Some t /\ p_ijkl s = Some q) /\
  wos s1 = ws /\ c s1 = default_c /\
  (forall v, p_i s = Some v -> p_i s1 = Some v) /\
  (forall m, p_ij s = Some m -> p_ij s1 = Some m) /\
  (forall t, p_ijk s = Some t -> p_ijk s1 = Some t) /\
  (forall t, p_ijkl s = Some t -> p_ijkl s1 = Some t).
Proof.
  split.
  - eexists _, _, _, _. repeat split; reflexivity.
  - apply (cache_slots_kept ipower (fun _ _ => 0) (fun _ _ _ => 0)
             heap0 [1; 2; 3; 4; 5] default_c [1; 1; 1; 1]
             (fst (transform ipower (fun _ _ => 0) (fun _ _ _ => 0)
                     (fst (init heap0 [1; 2; 3; 4; 5] default_c)) "quartet"
                     (snd (init heap0 [1; 2; 3; 4; 5] default_c)))) "quinella").
    + reflexivity.
    + apply reach_call. apply reach_new.
Defined.

Lemma failed_call_caches_win_witness :
  let ws := [1; 3] in
  let h1 := fst (init heap0 ws default_c) in
  transform ipower (fun _ _ => 0) (fun _ _ _ => 0) h1 "place"
    (snd (init heap0 ws default_c)) =
  (mkProbProber ws default_c
     (Some (rank_weight ipower ws (nth 0 (deref h1 default_c) 1))) None None None,
   inl (NotEnoughCompetitors 2)).
Proof.
  apply (failed_call_caches_win ipower (fun _ _ => 0) (fun _ _ _ => 0)
           heap0 [1; 3] default_c [1; 1; 1; 1] "place").
  - reflexivity.
  - simpl. lia.
  - simpl. tauto.
  - discriminate.
Defined.

Lemma quinella_after_coefficient_change_witness :
  let h := <[1%nat := [1; 1]]> heap0 in
  let h' := <[1%nat := [1; 2; 1; 1]]> heap0 in
  let ws := [1; 2; 3] in
  let h1 := fst (init h ws 1%nat) in
  let s1 := fst (transform ipower (fun _ _ => 0) (fun _ _ _ => 0) h1 "win"
                   (snd (init h ws 1%nat))) in
  let c1_old := nth 0 (deref h1 1%nat) 1 in
  let c2_new := nth 1 [1; 2; 1; 1] 1 in
  snd (transform ipower (fun _ _ => 0) (fun _ _ _ => 0) h' "quinella" s1) =
  inr (Arr2 (quinella_of (length ws)
               (level2 (length ws) (rank_weight ipower ws c1_old)
                                   (rank_weight ipower ws c2_new)))).
Proof.
  apply (quinella_after_coefficient_change ipower (fun _ _ => 0) (fun _ _ _ => 0)
           (<[1%nat := [1; 1]]> heap0) (<[1%nat := [1; 2; 1; 1]]> heap0)
           [1; 2; 3] 1%nat [1; 1] [1; 2; 1; 1]).
  - reflexivity.
  - reflexivity.
  - simpl. lia.
  - simpl. lia.
Defined.

End CallProps.

(** ** The pool outputs: symmetry and repeated indices *)

Module OutputFacts.
Import NP Prob Orders NPFacts LevelFacts RunFacts PoolFacts PoolClaims CallFacts.

Lemma quinella_entry (n : nat) (m : mat) (i j : nat) :
  (i < n)%nat -> (j < n)%nat ->
  get2 (quinella_of n m) i j = get2 m i j + get2 m j i.
Proof.
  intros Hi Hj. unfold quinella_of, add2, transpose2.
  now rewrite !get2_tab2 by assumption.
Qed.

Lemma place_q_entry (n : nat) (pij : mat) (pijk : ten3) (i j : nat) :
  (i < n)%nat -> (j < n)%nat ->
  get2 (place_q_of n pij pijk) i j =
  get2 pij i j + get2 pij j i +
  bigsum n (fun k => get3 pijk i k j) + bigsum n (fun k => get3 pijk j k i) +
  bigsum n (fun k => get3 pijk k i j) + bigsum n (fun k => get3 pijk k j i).
Proof.
  intros Hi Hj. unfold place_q_of, add2, transpose2, sum3_axis0, sum3_axis1.
  now rewrite !get2_tab2 by assumption.
Qed.

(** An entry of [trio] is the sum of the six entries of [p_ijk] at the
    orders of its index triple. *)
Lemma trio_entry (n : nat) (t : ten3) (i j k : nat) :
  (i < n)%nat -> (j < n)%nat -> (k < n)%nat ->
  get3 (trio_of n t) i j k ==
  get3 t i j k + get3 t i k j + get3 t j i k +
  get3 t j k i + get3 t k i j + get3 t k j i.
Proof.
  intros Hi Hj Hk. unfold trio_of.
  rewrite fold_add3_entry, get3_tab3 by assumption.
  let l := eval vm_compute in (permutations (seq 0 3)) in
  change (permutations (seq 0 3)) with l.
  cbn [fold_left src index_of nth Nat.eqb]. ring.
Qed.

(** An entry of [first_4] is the sum of the entries of [p_ijkl] at the 24
    orders of its index quadruple. *)
Lemma first_4_entry (n : nat) (t : ten4) (a b c d : nat) :
  (a < n)%nat -> (b < n)%nat -> (c < n)%nat -> (d < n)%nat ->
  get4 (first_4_of n t) a b c d == orders4 t a b c d.
Proof.
  intros Ha Hb Hc Hd. unfold first_4_of, orders4.
  rewrite fold_add4_entry, get4_tab4 by assumption.
  let l := eval vm_compute in (permutations (seq 0 4)) in
  change (permutations (seq 0 4)) with l.
  cbn [fold_left src index_of nth Nat.eqb]. ring.
Qed.

Section Results.

Variable power : Q -> Q -> Q.
Variable uninit2 : nat -> nat -> Q.
Variable uninit3 : nat -> nat -> nat -> Q.

(** What a call returns on an instance that has seen any calls. *)
Lemma transform_result (h : heap) (ws : vec) (cref : nat) (cs : list Q)
    (s : ProbProber) (pool : string) :
  h !! cref = Some cs ->
  let h1 := fst (init h ws cref) in
  reachable power uninit2 uninit3 h1 (snd (init h ws cref)) s ->
  In pool pools ->
  snd (transform power uninit2 uninit3 h1 pool s) =
  outcome power uninit2 uninit3 ws (deref h1 cref) pool.
Proof.
  intros Hc h1 Hreach Hin.
  destruct (transform_reachable power uninit2 uninit3 h ws cref cs s pool Hc Hreach Hin)
    as (k & _ & Hrun).
  unfold h1. now rewrite Hrun.
Qed.

End Results.
End OutputFacts.

Module OutputProps.
Import NP Prob Orders Range NPFacts LevelFacts RunFacts RangeFacts PoolFacts PoolClaims
  CallFacts OutputFacts.

Section Props.

Variable power : Q -> Q -> Q.
Variable uninit2 : nat -> nat -> Q.
Variable uninit3 : nat -> nat -> nat -> Q.

(** X7.  With more than two competitors, whatever the weights and the
    coefficients, the [quinella] output is a symmetric [n] by [n] matrix
    with a zero diagonal, and its entry [i,j] is the sum of the two entries
    [i,j] and [j,i] of [p_ij]. *)
Theorem quinella_symmetric (h : heap) (ws : vec) (cref : nat) (cs : list Q)
    (s : ProbProber) :
  h !! cref = Some cs ->
  let h1 := fst (init h ws cref) in
  reachable power uninit2 uninit3 h1 (snd (init h ws cref)) s ->
  let n := length ws in
  (2 < n)%nat ->
  let s1 := fst (transform power uninit2 uninit3 h1 "quinella" s) in
  exists m pij,
    snd (transform power uninit2 uninit3 h1 "quinella" s) = inr (Arr2 m) /\
    p_ij s1 = Some pij /\ length m = n /\
    forall i j, (i < n)%nat -> (j < n)%nat ->
      length (nth i m []) = n /\
      get2 m i j = get2 pij i j + get2 pij j i /\
      get2 m i j == get2 m j i /\
      get2 m i i == 0.
Proof.
  intros Hc h1 Hreach n Hn s1.
  assert (Hin : In "quinella"%string pools) by (simpl; tauto).
  destruct (transform_reachable power uninit2 uninit3 h ws cref cs s _ Hc Hreach Hin)
    as (k & Hk & Hrun).
  destruct (reach_lower "quinella" (length ws) Hin) as (H2 & _ & _).
  specialize (H2 ltac:(discriminate) Hn).
  destruct (outcome_values power uninit2 uninit3 ws (deref h1 cref))
    as (_ & Hq & _).
  subst s1. unfold h1 in *. rewrite Hrun. cbn [fst snd]. rewrite (Hq Hn).
  destruct (state_at_slots power uninit2 uninit3 ws cref
              (deref (fst (init h ws cref)) cref) k) as (_ & S2 & _).
  eexists _, _. split; [reflexivity|]. split; [apply S2; lia|].
  fold n. split; [apply length_tab|].
  intros i j Hi Hj. rewrite !quinella_entry by assumption.
  split; [|split; [reflexivity | split; [ring|]]].
  - unfold quinella_of, add2, tab2. rewrite nth_tab by assumption. apply length_tab.
  - unfold order2. fold n. rewrite level2_diag by assumption. reflexivity.
Qed.

(** X8.  With more than three competitors, whatever the weights and the
    coefficients, the [place_q] output is a symmetric matrix. *)
Theorem place_q_symmetric (h : heap) (ws : vec) (cref : nat) (cs : list Q)
    (s : ProbProber) :
  h !! cref = Some cs ->
  let h1 := fst (init h ws cref) in
  reachable power uninit2 uninit3 h1 (snd (init h ws cref)) s ->
  let n := length ws in
  (3 < n)%nat ->
  exists m,
    snd (transform power uninit2 uninit3 h1 "place_q" s) = inr (Arr2 m) /\
    forall i j, (i < n)%nat -> (j < n)%nat -> get2 m i j == get2 m j i.
Proof.
  intros Hc h1 Hreach n Hn.
  rewrite (transform_result power uninit2 uninit3 h ws cref cs s _ Hc Hreach)
    by (simpl; tauto).
  destruct (outcome_values power uninit2 uninit3 ws (deref h1 cref))
    as (_ & _ & Hq & _).
  unfold h1 in *.
  destruct (Hq Hn) as (_ & _ & _ & ->).
  eexists. split; [reflexivity|].
  intros i j Hi Hj. fold n. rewrite !place_q_entry by assumption. ring.
Qed.

(** X9.  With more than three competitors, whatever the weights and the
    coefficients, an entry of the [trio] output does not depend on the
    order of its three indices. *)
Theorem trio_symmetric (h : heap) (ws : vec) (cref : nat) (cs : list Q)
    (s : ProbProber) :
  h !! cref = Some cs ->
  let h1 := fst (init h ws cref) in
  reachable power uninit2 uninit3 h1 (snd (init h ws cref)) s ->
  let n := length ws in
  (3 < n)%nat ->
  exists t,
    snd (transform power uninit2 uninit3 h1 "trio" s) = inr (Arr3 t) /\
    forall i j k, (i < n)%nat -> (j < n)%nat -> (k < n)%nat ->
      get3 t i k j == get3 t i j k /\ get3 t j i k == get3 t i j k /\
      get3 t j k i == get3 t i j k /\ get3 t k i j == get3 t i j k /\
      get3 t k j i == get3 t i j k.
Proof.
  intros Hc h1 Hreach n Hn.
  rewrite (transform_result power uninit2 uninit3 h ws cref cs s _ Hc Hreach)
    by (simpl; tauto).
  destruct (outcome_values power uninit2 uninit3 ws (deref h1 cref))
    as (_ & _ & Hq & _).
  unfold h1 in *.
  destruct (Hq Hn) as (_ & -> & _).
  eexists. split; [reflexivity|].
  intros i j k Hi Hj Hk. fold n. rewrite !trio_entry by assumption.
  repeat split; ring.
Qed.

(** X10.  With more than four competitors, whatever the weights and the
    coefficients, an entry of the [first_4] output does not depend on the
    order of its four indices: it is the same after a swap of two
    neighbouring indices, and these swaps give every order. *)
Theorem first_4_symmetric (h : heap) (ws : vec) (cref : nat) (cs : list Q)
    (s : ProbProber) :
  h !! cref = Some cs ->
  let h1 := fst (init h ws cref) in
  reachable power uninit2 uninit3 h1 (snd (init h ws cref)) s ->
  let n := length ws in
  (4 < n)%nat ->
  exists t,
    snd (transform power uninit2 uninit3 h1 "first_4" s) = inr (Arr4 t) /\
    forall a b c d, (a < n)%nat -> (b < n)%nat -> (c < n)%nat -> (d < n)%nat ->
      get4 t b a c d == get4 t a b c d /\
      get4 t a c b d == get4 t a b c d /\
      get4 t a b d c == get4 t a b c d.
Proof.
  intros Hc h1 Hreach n Hn.
  rewrite (transform_result power uninit2 uninit3 h ws cref cs s _ Hc Hreach)
    by (simpl; tauto).
  destruct (outcome_values power uninit2 uninit3 ws (deref h1 cref))
    as (_ & _ & _ & Hq).
  unfold h1 in *.
  destruct (Hq Hn) as (_ & ->).
  eexists. split; [reflexivity|].
  intros a b c d Ha Hb Hc' Hd. fold n. rewrite !first_4_entry by assumption.
  unfold orders4. repeat split; ring.
Qed.

(** X11.  With more than four competitors, whatever the weights and the
    coefficients, the entries of the [quartet] output at index quadruples
    with a repeated competitor are exactly 0, and those of [first_4] are 0:
    the loop of prob.py 105-111 clears all six pairs of axes. *)
Theorem quartet_repeated_index_zero (h : heap) (ws : vec) (cref : nat)
    (cs : list Q) (s : ProbProber) :
  h !! cref = Some cs ->
  let h1 := fst (init h ws cref) in
  reachable power uninit2 uninit3 h1 (snd (init h ws cref)) s ->
  let n := length ws in
  (4 < n)%nat ->
  exists t f,
    snd (transform power uninit2 uninit3 h1 "quartet" s) = inr (Arr4 t) /\
    snd (transform power uninit2 uninit3 h1 "first_4" s) = inr (Arr4 f) /\
    forall a b c d, (a < n)%nat -> (b < n)%nat -> (c < n)%nat -> (d < n)%nat ->
      distinct [a; b; c; d] = false ->
      get4 t a b c d = 0 /\ get4 f a b c d == 0.
Proof.
  intros Hc h1 Hreach n Hn.
  rewrite !(transform_result power uninit2 uninit3 h ws cref cs s _ Hc Hreach)
    by (simpl; tauto).
  destruct (outcome_values power uninit2 uninit3 ws (deref h1 cref))
    as (_ & _ & _ & Hq).
  unfold h1 in *.
  destruct (Hq Hn) as (-> & ->).
  eexists _, _. split; [reflexivity|]. split; [reflexivity|].
  intros a b c d Ha Hb Hc' Hd Hrep. fold n.
  assert (Hz : forall x y z w, (x < n)%nat -> (y < n)%nat -> (z < n)%nat ->
             (w < n)%nat -> distinct [x; y; z; w] = distinct [a; b; c; d] ->
             get4 (order4 power uninit2 uninit3 ws (deref h1 cref)) x y z w = 0).
  { intros x y z w Hx Hy Hz Hw Hxy. unfold order4. fold n.
    apply level4_repeated; try assumption. now rewrite Hxy. }
  split; [apply Hz; auto|].
  rewrite first_4_entry by assumption. unfold orders4.
  rewrite !Hz; try assumption; try reflexivity;
    apply distinct_eq; rewrite !distinct4_spec; intuition congruence.
Qed.

(** X12.  With more than three competitors, whatever the weights and the
    coefficients, the entry [i,j,k] of the [tierce] output is exactly 0
    when [k] is [i] or [j]: prob.py 76-77 assign it.  For weights in the
    range where rounding stays small and no level-3 rank weight within
    2^-20 of 1/2, every entry of [tierce] and of [trio] at an index triple
    with a repeated competitor is 0: where [i = j] the entry is the 0 on the
    diagonal of [p_ij], over a difference that is not 0. *)
Theorem tierce_repeated_index_zero (h : heap) (ws : vec) (cref : nat)
    (cs : list Q) (s : ProbProber) :
  h !! cref = Some cs ->
  let h1 := fst (init h ws cref) in
  reachable power uninit2 uninit3 h1 (snd (init h ws cref)) s ->
  let n := length ws in
  (3 < n)%nat ->
  exists t f,
    snd (transform power uninit2 uninit3 h1 "tierce" s) = inr (Arr3 t) /\
    snd (transform power uninit2 uninit3 h1 "trio" s) = inr (Arr3 f) /\
    (forall i j k, (i < n)%nat -> (j < n)%nat -> (k < n)%nat ->
       k = i \/ k = j -> get3 t i j k = 0) /\
    (well_conditioned power ws (deref h1 cref) = true ->
     away_from_half power ws (deref h1 cref) = true ->
     forall i j k, (i < n)%nat -> (j < n)%nat -> (k < n)%nat ->
       distinct [i; j; k] = false ->
       get3 t i j k == 0 /\ get3 f i j k == 0).
Proof.
  intros Hc h1 Hreach n Hn. subst h1.
  rewrite !(transform_result power uninit2 uninit3 h ws cref cs s _ Hc Hreach)
    by (simpl; tauto).
  destruct (outcome_values power uninit2 uninit3 ws (deref (fst (init h ws cref)) cref))
    as (_ & _ & Hq & _).
  destruct (Hq Hn) as (-> & -> & _).
  eexists _, _. split; [reflexivity|]. split; [reflexivity|]. split.
  - intros i j k Hi Hj Hk Hrep. unfold order3. fold n.
    rewrite level3_entry by assumption.
    destruct (Nat.eqb_spec k i); [reflexivity|].
    destruct (Nat.eqb_spec k j); [reflexivity|]. lia.
  - intros _ Hh.
    pose proof (fun i Hi => away_from_half_spec power ws _ i Hh Hi) as Hhalf.
    assert (Hz : forall x y z, (x < n)%nat -> (y < n)%nat -> (z < n)%nat ->
               distinct [x; y; z] = false ->
               get3 (order3 power uninit2 ws (deref (fst (init h ws cref)) cref)) x y z == 0).
    { intros x y z Hx Hy Hz Hxy. unfold order3. fold n.
      apply level3_repeated; try assumption.
      - intros a Ha. unfold order2. fold n. rewrite level2_diag by assumption.
        reflexivity.
      - intros a Ha Hd. apply (Hhalf a Ha). lra. }
    intros i j k Hi Hj Hk Hrep. split; [now apply Hz|].
    fold n. rewrite trio_entry by assumption.
    rewrite !Hz; try assumption; try reflexivity;
      apply not_true_is_false; intros Hd;
      apply not_true_iff_false in Hrep; apply Hrep;
      rewrite distinct3_spec in *; intuition congruence.
Qed.

End Props.
End OutputProps.

(** ** The pool outputs: values *)

Module ValueFacts.
Import NP Prob Reduced NPFacts LevelFacts RunFacts PoolFacts PoolClaims CallFacts
  OutputFacts InstanceClaims ScenarioClaims.

Lemma Qdiv_pos (a b : Q) : 0 < a -> 0 < b -> 0 < a / b.
Proof. intros Ha Hb. apply Qlt_shift_div_l; [assumption|]. now rewrite Qmult_0_l. Qed.

Lemma Qeq_bool_pos (d : Q) : 0 < d -> Qeq_bool d 0 = false.
Proof.
  intros Hd. destruct (Qeq_bool d 0) eqn:E; [|reflexivity].
  apply Qeq_bool_eq in E. lra.
Qed.

Lemma level2_pos (n : nat) (pi p_i2 : vec) (i j : nat) :
  prob_vec n pi -> prob_vec n p_i2 -> (2 <= n)%nat ->
  (i < n)%nat -> (j < n)%nat -> i <> j ->
  0 < get2 (level2 n pi p_i2) i j.
Proof.
  intros Hp Hr Hn Hi Hj Hij. rewrite level2_entry by assumption.
  destruct (Nat.eqb_spec i j); [contradiction|].
  apply Qmult_lt_0_compat; [now apply Hr|].
  apply Qdiv_pos; [now apply Hp | now apply (prob_vec_rest1 n)].
Qed.

Lemma level3_pos (u : nat -> nat -> Q) (n : nat) (pij : mat) (p_i3 : vec)
    (i j k : nat) :
  (forall a b, (a < n)%nat -> (b < n)%nat -> a <> b -> 0 < get2 pij a b) ->
  prob_vec n p_i3 -> (3 <= n)%nat ->
  (i < n)%nat -> (j < n)%nat -> (k < n)%nat -> distinct [i; j; k] = true ->
  0 < get3 (level3 u n pij p_i3) i j k.
Proof.
  intros Hp Hr Hn Hi Hj Hk Hd. apply distinct3_spec in Hd. destruct Hd as (Hij & Hik & Hjk).
  rewrite level3_entry by assumption.
  destruct (Nat.eqb_spec k i); [congruence|].
  destruct (Nat.eqb_spec k j); [congruence|].
  assert (HD : 0 < 1 - get1 p_i3 i - get1 p_i3 j) by now apply (prob_vec_rest2 n).
  rewrite (Qeq_bool_pos _ HD).
  apply Qmult_lt_0_compat; [|now apply Hr].
  apply Qdiv_pos; [now apply Hp | assumption].
Qed.

Lemma level4_pos (u : nat -> nat -> nat -> Q) (n : nat) (pijk : ten3) (p_i4 : vec)
    (a b c d : nat) :
  (forall x y z, (x < n)%nat -> (y < n)%nat -> (z < n)%nat ->
     distinct [x; y; z] = true -> 0 < get3 pijk x y z) ->
  prob_vec n p_i4 -> (4 <= n)%nat ->
  (a < n)%nat -> (b < n)%nat -> (c < n)%nat -> (d < n)%nat ->
  distinct [a; b; c; d] = true ->
  0 < get4 (level4 u n pijk p_i4) a b c d.
Proof.
  intros Hp Hr Hn Ha Hb Hc Hd Hdis. rewrite level4_entry by assumption.
  rewrite Hdis. apply distinct4_spec in Hdis.
  destruct Hdis as (Hab & Hac & Had & Hbc & Hbd & Hcd).
  assert (HD : 0 < 1 - get1 p_i4 c - get1 p_i4 a - get1 p_i4 b)
    by (apply (prob_vec_rest3 n); auto).
  rewrite (Qeq_bool_pos _ HD).
  apply Qmult_lt_0_compat; [|now apply Hr].
  apply Qdiv_pos; [|assumption].
  apply Hp; try assumption. apply distinct3_spec. auto.
Qed.

(** The rank weights of weights scaled by a positive factor, where
    [np.power] is multiplicative in the base. *)
Lemma vsum_power_scale (power : Q -> Q -> Q) (l e : Q) (ws : vec) :
  (forall x y e, power (x * y) e == power x e * power y e) ->
  vsum (map (fun w => power w e) (map (Qmult l) ws)) ==
  power l e * vsum (map (fun w => power w e) ws).
Proof.
  intros Hmul. induction ws as [|w ws IH]; simpl; [ring|].
  rewrite IH, Hmul. ring.
Qed.

Lemma rank_weight_scale (power : Q -> Q -> Q) (l e : Q) (ws : vec) :
  power_pos power ->
  (forall x y e, power (x * y) e == power x e * power y e) ->
  all_pos ws -> 0 < l ->
  veq (length ws) (rank_weight power (map (Qmult l) ws) e) (rank_weight power ws e).
Proof.
  intros Hpos Hmul Hws Hl i Hi.
  rewrite !rank_weight_entry by (rewrite ?List.length_map; assumption).
  rewrite vsum_power_scale by assumption.
  rewrite get1_map by assumption. rewrite Hmul.
  assert (Hpl : 0 < power l e) by now apply Hpos.
  assert (Hs : 0 < vsum (map (fun w => power w e) ws)).
  { apply vsum_pos.
    - destruct ws; [simpl in Hi; lia | discriminate].
    - intros k Hk. rewrite List.length_map in Hk. rewrite get1_map by assumption.
      apply Hpos. now apply all_pos_entry. }
  field. split; lra.
Qed.

End ValueFacts.

Module ValueProps.
Import NP Prob Reduced Range NPFacts LevelFacts RunFacts PoolFacts PoolClaims
  CallFacts OutputFacts InstanceClaims ScenarioClaims ValueFacts.

Section Props.

Variable power : Q -> Q -> Q.
Variable uninit2 : nat -> nat -> Q.
Variable uninit3 : nat -> nat -> nat -> Q.

(** X13.  For positive weights in the range where rounding stays small and
    any coefficients, every ordered outcome of different competitors has a
    positive probability: the entries of [win] are positive and at most 1,
    and the entries of [quinella], of [tierce] and of [quartet] at pairwise
    different indices are positive.  In the range the sums of the powers
    neither overflow nor wrap, the differences at different indices are
    positive in doubles too, and a product of four rank weights is far
    above the smallest double.  The proof is in exact arithmetic. *)
Theorem distinct_outcomes_positive (h : heap) (ws : vec) (cref : nat)
    (cs : list Q) (s : ProbProber) :
  power_pos power -> all_pos ws -> h !! cref = Some cs ->
  let h1 := fst (init h ws cref) in
  well_conditioned power ws (deref h1 cref) = true ->
  reachable power uninit2 uninit3 h1 (snd (init h ws cref)) s ->
  let n := length ws in
  let out pool := snd (transform power uninit2 uninit3 h1 pool s) in
  ((1 <= n)%nat ->
   exists v, out "win"%string = inr (Arr1 v) /\
     forall i, (i < n)%nat -> 0 < get1 v i <= 1) /\
  ((2 < n)%nat ->
   exists m, out "quinella"%string = inr (Arr2 m) /\
     forall i j, (i < n)%nat -> (j < n)%nat -> i <> j -> 0 < get2 m i j) /\
  ((3 < n)%nat ->
   exists t, out "tierce"%string = inr (Arr3 t) /\
     forall i j k, (i < n)%nat -> (j < n)%nat -> (k < n)%nat ->
       distinct [i; j; k] = true -> 0 < get3 t i j k) /\
  ((4 < n)%nat ->
   exists t, out "quartet"%string = inr (Arr4 t) /\
     forall a b c d, (a < n)%nat -> (b < n)%nat -> (c < n)%nat -> (d < n)%nat ->
       distinct [a; b; c; d] = true -> 0 < get4 t a b c d).
Proof.
  intros Hpow Hws Hc h1 _ Hreach n out. subst out h1.
  set (cs1 := deref (fst (init h ws cref)) cref).
  assert (Hout : forall pool, In pool pools ->
            snd (transform power uninit2 uninit3 (fst (init h ws cref)) pool s) =
            outcome power uninit2 uninit3 ws cs1 pool).
  { intros pool Hin.
    now apply (transform_result power uninit2 uninit3 h ws cref cs s pool Hc Hreach). }
  destruct (outcome_values power uninit2 uninit3 ws cs1) as (O1 & O2 & O3 & O4).
  fold n in O2, O3, O4.
  assert (Hrw : forall ck, (1 <= n)%nat -> prob_vec n (rank_weight power ws ck)).
  { intros ck Hn. apply rank_weight_prob_vec; try assumption.
    intros Hnil. subst n. rewrite Hnil in Hn. simpl in Hn. lia. }
  assert (P2 : (2 <= n)%nat -> forall a b, (a < n)%nat -> (b < n)%nat -> a <> b ->
            0 < get2 (order2 power ws cs1) a b).
  { intros Hn a b Ha Hb Hab. unfold order2, order1. fold n.
    apply level2_pos; try assumption; first [apply Hrw; lia | lia]. }
  assert (P3 : (3 <= n)%nat -> forall x y z, (x < n)%nat -> (y < n)%nat ->
            (z < n)%nat -> distinct [x; y; z] = true ->
            0 < get3 (order3 power uninit2 ws cs1) x y z).
  { intros Hn x y z Hx Hy Hz Hd. unfold order3. fold n.
    apply level3_pos; try assumption; first [apply P2; lia | apply Hrw; lia | lia]. }
  split; [|split; [|split]].
  - intros Hn. rewrite Hout by (simpl; tauto). rewrite O1.
    eexists. split; [reflexivity|]. intros i Hi.
    destruct (Hrw (nth 0 cs1 1) Hn) as (Hp & Hs). unfold order1.
    split; [now apply Hp|].
    assert (Hge : get1 (rank_weight power ws (nth 0 cs1 1)) i <=
                  bigsum n (get1 (rank_weight power ws (nth 0 cs1 1)))).
    { apply (bigsum_ge_term n i (get1 (rank_weight power ws (nth 0 cs1 1))));
        [|assumption].
      intros k Hk. apply Qlt_le_weak. now apply Hp. }
    lra.
  - intros Hn. rewrite Hout by (simpl; tauto). rewrite (O2 Hn).
    eexists. split; [reflexivity|]. intros i j Hi Hj Hij.
    rewrite quinella_entry by assumption.
    assert (0 < get2 (order2 power ws cs1) i j) by (apply P2; auto; lia).
    assert (0 < get2 (order2 power ws cs1) j i) by (apply P2; auto; lia).
    lra.
  - intros Hn. rewrite Hout by (simpl; tauto). destruct (O3 Hn) as (-> & _).
    eexists. split; [reflexivity|]. apply P3. lia.
  - intros Hn. rewrite Hout by (simpl; tauto).
    assert (Hn3 : (3 < n)%nat) by lia. destruct (O4 Hn) as (-> & _).
    eexists. split; [reflexivity|]. intros a b c d Ha Hb Hc' Hd Hdis.
    unfold order4. fold n.
    apply level4_pos; try assumption; first [apply P3; lia | apply Hrw; lia | lia].
Qed.

(** X14.  With the default coefficients (all 1) and positive weights in the
    range where rounding stays small, the win probabilities are the weights
    over their sum, and for different [i], [j], [k] the entry
    [tierce[i,j,k]] is Harville's probability that [j] is first, [i] second
    and [k] third, [p_j * p_i / (1 - p_j) * p_k / (1 - p_j - p_i)]: the
    first two indices are the other way round than the comment of
    prob.py 31 has them (see C1).  All that is asked of [np.power] is that
    the exponent 1 leaves a number as it is.  The proof is in exact
    arithmetic. *)
Theorem harville_default_coefficients (h : heap) (ws : vec) (cref : nat)
    (s : ProbProber) :
  (forall x, power x 1 = x) -> all_pos ws -> h !! cref = Some [1; 1; 1; 1] ->
  let h1 := fst (init h ws cref) in
  well_conditioned power ws (deref h1 cref) = true ->
  reachable power uninit2 uninit3 h1 (snd (init h ws cref)) s ->
  let n := length ws in
  (3 < n)%nat ->
  exists p t,
    snd (transform power uninit2 uninit3 h1 "win" s) = inr (Arr1 p) /\
    snd (transform power uninit2 uninit3 h1 "tierce" s) = inr (Arr3 t) /\
    (forall i, (i < n)%nat -> get1 p i == get1 ws i / vsum ws) /\
    (forall i j k, (i < n)%nat -> (j < n)%nat -> (k < n)%nat ->
       distinct [i; j; k] = true ->
       ~ 1 - get1 p j == 0 /\ ~ 1 - get1 p j - get1 p i == 0 /\
       get3 t i j k ==
       get1 p j * (get1 p i / (1 - get1 p j)) * (get1 p k / (1 - get1 p j - get1 p i))).
Proof.
  intros Hpow Hws Hc h1 _ Hreach n Hn. subst h1.
  rewrite !(transform_result power uninit2 uninit3 h ws cref _ s _ Hc Hreach)
    by (simpl; tauto).
  assert (Hcs : deref (fst (init h ws cref)) cref = [1; 1; 1; 1]).
  { unfold deref. now rewrite (init_coefficients h ws cref _ Hc). }
  rewrite Hcs.
  destruct (outcome_values power uninit2 uninit3 ws [1; 1; 1; 1]) as (O1 & _ & O3 & _).
  rewrite O1. destruct (O3 Hn) as (-> & _).
  eexists _, _. split; [reflexivity|]. split; [reflexivity|].
  unfold order3, order2, order1. cbn [nth]. fold n.
  set (r := rank_weight power ws 1).
  assert (Hr : prob_vec n r).
  { unfold r. rewrite (rank_weight_ext power (fun x _ => x)) by (intros; apply Hpow).
    apply rank_weight_prob_vec; try assumption.
    - intros x e Hx. exact Hx.
    - intros Hnil. subst n. rewrite Hnil in Hn. simpl in Hn. lia. }
  split.
  - intros i Hi. unfold r. rewrite rank_weight_entry by assumption.
    rewrite Hpow.
    assert (Hmap : map (fun w => power w 1) ws = ws).
    { rewrite <- (map_id ws) at 2. apply map_ext. intros; apply Hpow. }
    rewrite Hmap. reflexivity.
  - intros i j k Hi Hj Hk Hd. apply distinct3_spec in Hd.
    destruct Hd as (Hij & Hik & Hjk).
    assert (H1 : 0 < 1 - get1 r j) by (apply (prob_vec_rest1 n); auto; lia).
    assert (H2 : 0 < 1 - get1 r i - get1 r j) by (apply (prob_vec_rest2 n); auto; lia).
    split; [lra | split; [lra|]].
    rewrite level3_entry by assumption.
    destruct (Nat.eqb_spec k i); [congruence|].
    destruct (Nat.eqb_spec k j); [congruence|].
    rewrite (Qeq_bool_pos _ H2).
    rewrite level2_entry by assumption.
    destruct (Nat.eqb_spec i j); [contradiction|].
    field. split; lra.
Qed.

(** X15.  Multiplying all weights by one positive number changes nothing,
    as long as the weights and the scaled weights are in the range where
    rounding stays small: where [np.power] is multiplicative in the base,
    the [win] and [quinella] outputs for the scaled weights are, entry by
    entry, those for the weights, and so are the entries of [tierce] at
    pairwise different indices, with any coefficients.  In the range
    [np.divide] writes every place at different indices, so that the memory
    of the two instances ([u2], [u3] for the second one) plays no part.
    The proof is in exact arithmetic. *)
Theorem scaling_the_weights (h : heap) (ws : vec) (cref : nat) (cs : list Q)
    (l : Q) (u2 : nat -> nat -> Q) (u3 : nat -> nat -> nat -> Q) :
  power_pos power ->
  (forall x y e, power (x * y) e == power x e * power y e) ->
  all_pos ws -> 0 < l -> h !! cref = Some cs ->
  let n := length ws in
  (3 < n)%nat ->
  let ws' := map (Qmult l) ws in
  well_conditioned power ws (deref (fst (init h ws cref)) cref) = true ->
  well_conditioned power ws' (deref (fst (init h ws' cref)) cref) = true ->
  let out pool := snd (transform power uninit2 uninit3 (fst (init h ws cref)) pool
                         (snd (init h ws cref))) in
  let out' pool := snd (transform power u2 u3 (fst (init h ws' cref)) pool
                          (snd (init h ws' cref))) in
  (exists v v', out "win"%string = inr (Arr1 v) /\
     out' "win"%string = inr (Arr1 v') /\
     forall i, (i < n)%nat -> get1 v' i == get1 v i) /\
  (exists m m', out "quinella"%string = inr (Arr2 m) /\
     out' "quinella"%string = inr (Arr2 m') /\
     forall i j, (i < n)%nat -> (j < n)%nat -> get2 m' i j == get2 m i j) /\
  (exists t t', out "tierce"%string = inr (Arr3 t) /\
     out' "tierce"%string = inr (Arr3 t') /\
     forall i j k, (i < n)%nat -> (j < n)%nat -> (k < n)%nat ->
       distinct [i; j; k] = true -> get3 t' i j k == get3 t i j k).
Proof.
  intros Hpos Hmul Hws Hl Hc n Hn ws' _ _ out out'. subst out out'.
  assert (Hlen : length ws' = n) by (unfold ws'; now rewrite List.length_map).
  set (cs1 := deref (fst (init h ws cref)) cref).
  assert (Hout : forall v2 v3 w pool, In pool pools ->
            snd (transform power v2 v3 (fst (init h w cref)) pool
                   (snd (init h w cref))) =
            outcome power v2 v3 w cs1 pool).
  { intros v2 v3 w pool Hin.
    apply (transform_result power v2 v3 h w cref cs _ pool Hc
             (reach_new _ _ _ _ _) Hin). }
  destruct (outcome_values power uninit2 uninit3 ws cs1) as (O1 & O2 & O3 & _).
  destruct (outcome_values power u2 u3 ws' cs1) as (O1' & O2' & O3' & _).
  rewrite Hlen in O2', O3'. fold n in O2, O3.
  destruct (O3 Hn) as (T & _). destruct (O3' Hn) as (T' & _).
  assert (Hn2 : (2 < n)%nat) by lia.
  assert (E1 : veq n (order1 power ws' cs1) (order1 power ws cs1))
    by (now apply rank_weight_scale).
  assert (E2 : meq n (order2 power ws' cs1) (order2 power ws cs1)).
  { unfold order2. rewrite Hlen. fold n.
    apply level2_comp; [exact E1 | now apply rank_weight_scale]. }
  assert (Hrw : forall ck, prob_vec n (rank_weight power ws ck)).
  { intros ck. apply rank_weight_prob_vec; try assumption.
    intros Hnil. subst n. rewrite Hnil in Hn. simpl in Hn. lia. }
  split; [|split].
  - rewrite !Hout by (simpl; tauto). rewrite O1, O1'.
    eexists _, _. split; [reflexivity|]. split; [reflexivity|]. exact E1.
  - rewrite !Hout by (simpl; tauto). rewrite (O2 Hn2), (O2' Hn2).
    eexists _, _. split; [reflexivity|]. split; [reflexivity|].
    intros i j Hi Hj. rewrite !quinella_entry by assumption.
    now rewrite (E2 i j), (E2 j i).
  - rewrite !Hout by (simpl; tauto). rewrite T, T'.
    eexists _, _. split; [reflexivity|]. split; [reflexivity|].
    intros i j k Hi Hj Hk Hd. apply distinct3_spec in Hd.
    destruct Hd as (Hij & Hik & Hjk).
    unfold order3. rewrite Hlen. fold n.
    rewrite !level3_entry by assumption.
    destruct (Nat.eqb_spec k i); [congruence|].
    destruct (Nat.eqb_spec k j); [congruence|].
    set (r := rank_weight power ws (nth 2 cs1 1)).
    set (r' := rank_weight power ws' (nth 2 cs1 1)).
    assert (Er : veq n r' r) by (now apply rank_weight_scale).
    assert (HD : 0 < 1 - get1 r i - get1 r j)
      by (apply (prob_vec_rest2 n); try assumption; first [apply Hrw | lia]).
    assert (HD' : 0 < 1 - get1 r' i - get1 r' j)
      by (rewrite (Er i Hi), (Er j Hj); exact HD).
    rewrite (Qeq_bool_pos _ HD), (Qeq_bool_pos _ HD').
    now rewrite (E2 i j Hi Hj), (Er i Hi), (Er j Hj), (Er k Hk).
Qed.

End Props.
End ValueProps.

Module OutputWitnesses.
Import NP Prob Reduced Range NPFacts LevelFacts RunFacts OutputProps ValueProps.

Lemma quinella_symmetric_witness :
  let ws := [1; 2; 3] in
  let h1 := fst (init heap0 ws default_c) in
  let s := snd (init heap0 ws default_c) in
  let s1 := fst (transform ipower (fun _ _ => 0) (fun _ _ _ => 0) h1 "quinella" s) in
  exists m pij,
    snd (transform ipower (fun _ _ => 0) (fun _ _ _ => 0) h1 "quinella" s)
    = inr (Arr2 m) /\
    p_ij s1 = Some pij /\ length m = 3%nat /\
    forall i j, (i < 3)%nat -> (j < 3)%nat ->
      length (nth i m []) = 3%nat /\
      get2 m i j = get2 pij i j + get2 pij j i /\
      get2 m i j == get2 m j i /\
      get2 m i i == 0.
Proof.
  apply (quinella_symmetric ipower (fun _ _ => 0) (fun _ _ _ => 0)
           heap0 [1; 2; 3] default_c [1; 1; 1; 1]
           (snd (init heap0 [1; 2; 3] default_c))).
  - reflexivity.
  - apply reach_new.
  - simpl. lia.
Defined.

Lemma place_q_symmetric_witness :
  let ws := [1; 2; 3; 4] in
  let h1 := fst (init heap0 ws default_c) in
  exists m,
    snd (transform ipower (fun _ _ => 0) (fun _ _ _ => 0) h1 "place_q"
           (snd (init heap0 ws default_c))) = inr (Arr2 m) /\
    forall i j, (i < 4)%nat -> (j < 4)%nat -> get2 m i j == get2 m j i.
Proof.
  apply (place_q_symmetric ipower (fun _ _ => 0) (fun _ _ _ => 0)
           heap0 [1; 2; 3; 4] default_c [1; 1; 1; 1]
           (snd (init heap0 [1; 2; 3; 4] default_c))).
  - reflexivity.
  - apply reach_new.
  - simpl. lia.
Defined.

Lemma trio_symmetric_witness :
  let ws := [1; 2; 3; 4] in
  let h1 := fst (init heap0 ws default_c) in
  exists t,
    snd (transform ipower (fun _ _ => 0) (fun _ _ _ => 0) h1 "trio"
           (snd (init heap0 ws default_c))) = inr (Arr3 t) /\
    forall i j k, (i < 4)%nat -> (j < 4)%nat -> (k < 4)%nat ->
      get3 t i k j == get3 t i j k /\ get3 t j i k == get3 t i j k /\
      get3 t j k i == get3 t i j k /\ get3 t k i j == get3 t i j k /\
      get3 t k j i == get3 t i j k.
Proof.
  apply (trio_symmetric ipower (fun _ _ => 0) (fun _ _ _ => 0)
           heap0 [1; 2; 3; 4] default_c [1; 1; 1; 1]
           (snd (init heap0 [1; 2; 3; 4] default_c))).
  - reflexivity.
  - apply reach_new.
  - simpl. lia.
Defined.

Lemma first_4_symmetric_witness :
  let ws := [1; 2; 3; 4; 5] in
  let h1 := fst (init heap0 ws default_c) in
  exists t,
    snd (transform ipower (fun _ _ => 0) (fun _ _ _ => 0) h1 "first_4"
           (snd (init heap0 ws default_c))) = inr (Arr4 t) /\
    forall a b c d, (a < 5)%nat -> (b < 5)%nat -> (c < 5)%nat -> (d < 5)%nat ->
      get4 t b a c d == get4 t a b c d /\
      get4 t a c b d == get4 t a b c d /\
      get4 t a b d c == get4 t a b c d.
Proof.
  apply (first_4_symmetric ipower (fun _ _ => 0) (fun _ _ _ => 0)
           heap0 [1; 2; 3; 4; 5] default_c [1; 1; 1; 1]
           (snd (init heap0 [1; 2; 3; 4; 5] default_c))).
  - reflexivity.
  - apply reach_new.
  - simpl. lia.
Defined.

Lemma quartet_repeated_index_zero_witness :
  let ws := [1; 2; 3; 4; 5] in
  let h1 := fst (init heap0 ws default_c) in
  let s := snd (init heap0 ws default_c) in
  exists t f,
    snd (transform ipower (fun _ _ => 0) (fun _ _ _ => 0) h1 "quartet" s)
    = inr (Arr4 t) /\
    snd (transform ipower (fun _ _ => 0) (fun _ _ _ => 0) h1 "first_4" s)
    = inr (Arr4 f) /\
    forall a b c d, (a < 5)%nat -> (b < 5)%nat -> (c < 5)%nat -> (d < 5)%nat ->
      distinct [a; b; c; d] = false ->
      get4 t a b c d = 0 /\ get4 f a b c d == 0.
Proof.
  apply (quartet_repeated_index_zero ipower (fun _ _ => 0) (fun _ _ _ => 0)
           heap0 [1; 2; 3; 4; 5] default_c [1; 1; 1; 1]
           (snd (init heap0 [1; 2; 3; 4; 5] default_c))).
  - reflexivity.
  - apply reach_new.
  - simpl. lia.
Defined.

Lemma tierce_repeated_index_zero_witness :
  let ws := [1; 2; 3; 4] in
  let h1 := fst (init heap0 ws default_c) in
  let s := snd (init heap0 ws default_c) in
  exists t f,
    snd (transform ipower (fun _ _ => 0) (fun _ _ _ => 0) h1 "tierce" s)
    = inr (Arr3 t) /\
    snd (transform ipower (fun _ _ => 0) (fun _ _ _ => 0) h1 "trio" s)
    = inr (Arr3 f) /\
    (forall i j k, (i < 4)%nat -> (j < 4)%nat -> (k < 4)%nat ->
       k = i \/ k = j -> get3 t i j k = 0) /\
    (forall i j k, (i < 4)%nat -> (j < 4)%nat -> (k < 4)%nat ->
       distinct [i; j; k] = false ->
       get3 t i j k == 0 /\ get3 f i j k == 0).
Proof.
  destruct (tierce_repeated_index_zero ipower (fun _ _ => 0) (fun _ _ _ => 0)
              heap0 [1; 2; 3; 4] default_c [1; 1; 1; 1]
              (snd (init heap0 [1; 2; 3; 4] default_c))
              eq_refl (reach_new _ _ _ _ _) ltac:(simpl; lia))
    as (t & f & Ht & Hf & H1 & H2).
  exists t, f. split; [exact Ht|]. split; [exact Hf|]. split; [exact H1|].
  apply H2; vm_compute; reflexivity.
Defined.

Lemma distinct_outcomes_positive_witness :
  let h := <[1%nat := [1; 2]]> heap0 in
  let ws := [1; 2; 3; 4; 5] in
  let h1 := fst (init h ws 1%nat) in
  let out pool := snd (transform ipower (fun _ _ => 0) (fun _ _ _ => 0) h1 pool
                         (snd (init h ws 1%nat))) in
  ((1 <= 5)%nat ->
   exists v, out "win"%string = inr (Arr1 v) /\
     forall i, (i < 5)%nat -> 0 < get1 v i <= 1) /\
  ((2 < 5)%nat ->
   exists m, out "quinella"%string = inr (Arr2 m) /\
     forall i j, (i < 5)%nat -> (j < 5)%nat -> i <> j -> 0 < get2 m i j) /\
  ((3 < 5)%nat ->
   exists t, out "tierce"%string = inr (Arr3 t) /\
     forall i j k, (i < 5)%nat -> (j < 5)%nat -> (k < 5)%nat ->
       distinct [i; j; k] = true -> 0 < get3 t i j k) /\
  ((4 < 5)%nat ->
   exists t, out "quartet"%string = inr (Arr4 t) /\
     forall a b c d, (a < 5)%nat -> (b < 5)%nat -> (c < 5)%nat -> (d < 5)%nat ->
       distinct [a; b; c; d] = true -> 0 < get4 t a b c d).
Proof.
  apply (distinct_outcomes_positive ipower (fun _ _ => 0) (fun _ _ _ => 0)
           (<[1%nat := [1; 2]]> heap0) [1; 2; 3; 4; 5] 1%nat [1; 2]
           (snd (init (<[1%nat := [1; 2]]> heap0) [1; 2; 3; 4; 5] 1%nat))).
  - exact ipower_pos.
  - repeat constructor.
  - reflexivity.
  - vm_compute. reflexivity.
  - apply reach_new.
Defined.

Lemma harville_default_coefficients_witness :
  let ws := [1; 2; 3; 4] in
  let h1 := fst (init heap0 ws default_c) in
  let s := snd (init heap0 ws default_c) in
  exists p t,
    snd (transform ipower (fun _ _ => 0) (fun _ _ _ => 0) h1 "win" s)
    = inr (Arr1 p) /\
    snd (transform ipower (fun _ _ => 0) (fun _ _ _ => 0) h1 "tierce" s)
    = inr (Arr3 t) /\
    (forall i, (i < 4)%nat -> get1 p i == get1 ws i / vsum ws) /\
    (forall i j k, (i < 4)%nat -> (j < 4)%nat -> (k < 4)%nat ->
       distinct [i; j; k] = true ->
       ~ 1 - get1 p j == 0 /\ ~ 1 - get1 p j - get1 p i == 0 /\
       get3 t i j k ==
       get1 p j * (get1 p i / (1 - get1 p j)) * (get1 p k / (1 - get1 p j - get1 p i))).
Proof.
  apply (harville_default_coefficients ipower (fun _ _ => 0) (fun _ _ _ => 0)
           heap0 [1; 2; 3; 4] default_c (snd (init heap0 [1; 2; 3; 4] default_c))).
  - intros x. reflexivity.
  - repeat constructor.
  - reflexivity.
  - vm_compute. reflexivity.
  - apply reach_new.
  - simpl. lia.
Defined.

Lemma scaling_the_weights_witness :
  let h := <[1%nat := [1; 2]]> heap0 in
  let ws := [1; 2; 3; 4] in
  let ws' := map (Qmult 10) ws in
  let out pool := snd (transform ipower (fun _ _ => 0) (fun _ _ _ => 0)
                         (fst (init h ws 1%nat)) pool (snd (init h ws 1%nat))) in
  let out' pool := snd (transform ipower (fun _ _ => 1) (fun _ _ _ => 1)
                          (fst (init h ws' 1%nat)) pool (snd (init h ws' 1%nat))) in
  (exists v v', out "win"%string = inr (Arr1 v) /\
     out' "win"%string = inr (Arr1 v') /\
     forall i, (i < 4)%nat -> get1 v' i == get1 v i) /\
  (exists m m', out "quinella"%string = inr (Arr2 m) /\
     out' "quinella"%string = inr (Arr2 m') /\
     forall i j, (i < 4)%nat -> (j < 4)%nat -> get2 m' i j == get2 m i j) /\
  (exists t t', out "tierce"%string = inr (Arr3 t) /\
     out' "tierce"%string = inr (Arr3 t') /\
     forall i j k, (i < 4)%nat -> (j < 4)%nat -> (k < 4)%nat ->
       distinct [i; j; k] = true -> get3 t' i j k == get3 t i j k).
Proof.
  apply (scaling_the_weights ipower (fun _ _ => 0) (fun _ _ _ => 0)
           (<[1%nat := [1; 2]]> heap0) [1; 2; 3; 4] 1%nat [1; 2] 10
           (fun _ _ => 1) (fun _ _ _ => 1)).
  - exact ipower_pos.
  - intros x y e. unfold ipower. apply Qmult_power.
  - repeat constructor.
  - reflexivity.
  - reflexivity.
  - simpl. lia.
  - vm_compute. reflexivity.
  - vm_compute. reflexivity.
Defined.

End OutputWitnesses.

(** ** kelly.py: the stakes *)

Module StakeFacts.
Import NP NPFacts Kelly KellyFacts.

Lemma lookup_map_Some {A B : Type} (f : A -> B) (l : list A) (k : nat) (y : B) :
  map f l !! k = Some y -> exists x, l !! k = Some x /\ y = f x.
Proof.
  revert k. induction l as [|a l IH]; intros [|k] H; simpl in H |- *; try discriminate.
  - injection H as <-. now exists a.
  - now apply IH.
Qed.

Lemma lookup_combine_Some {A B : Type} (l : list A) (l' : list B) (k : nat)
    (x : A) (y : B) :
  combine l l' !! k = Some (x, y) -> l !! k = Some x /\ l' !! k = Some y.
Proof.
  revert l' k. induction l as [|a l IH]; intros [|b l'] [|k] H; simpl in H |- *;
    try discriminate.
  - injection H as <- <-. now split.
  - now apply IH.
Qed.

Lemma lookup_get1 (l : vec) (k : nat) (x : Q) : l !! k = Some x -> get1 l k = x.
Proof.
  revert k. induction l as [|a l IH]; intros [|k] H; simpl in H |- *; try discriminate.
  - now injection H.
  - now apply IH.
Qed.

Lemma length_cumsum_from (acc : Q) (l : vec) : length (cumsum_from acc l) = length l.
Proof. revert acc. induction l as [|x l IH]; intros acc; simpl; [|rewrite IH]; reflexivity. Qed.

Lemma length_take_at (a : vec) (indices : list nat) :
  length (take_at a indices) = length indices.
Proof. unfold take_at. apply List.length_map. Qed.

Lemma length_indices (keys : vec) : length (rev (argsort keys)) = length keys.
Proof. rewrite length_rev. apply argsort_spec. Qed.

Lemma indices_bound (keys : vec) (k i : nat) :
  rev (argsort keys) !! k = Some i -> (i < length keys)%nat.
Proof.
  intros Hk. destruct (argsort_spec keys) as [Hall _].
  rewrite List.Forall_forall in Hall. apply Hall.
  apply In_rev. apply list_elem_of_In. now apply (list_elem_of_lookup_2 _ k).
Qed.

(** The minimum of positive values is positive. *)
Lemma ext_min_pos (x y : ext) :
  ext_pos x = true -> ext_pos y = true -> ext_pos (ext_min x y) = true.
Proof.
  destruct x as [a| | |], y as [b| | |]; simpl; try discriminate; auto.
  destruct (Qle_bool a b); auto.
Qed.

Lemma fold_ext_min_pos (ts : list ext) (t0 : ext) :
  Forall (fun x => ext_pos x = true) ts -> ext_pos t0 = true ->
  ext_pos (fold_left ext_min ts t0) = true.
Proof.
  intros Hts. revert t0. induction Hts as [|t ts Ht _ IH]; intros t0 H0; simpl.
  - exact H0.
  - apply IH. now apply ext_min_pos.
Qed.

Lemma Qlt_bool_true (x y : Q) : Qlt_bool x y = true <-> x < y.
Proof.
  unfold Qlt_bool. rewrite negb_true_iff. split.
  - intros H. apply Qnot_le_lt. intros Hle. apply Qle_bool_iff in Hle. congruence.
  - intros H. apply not_true_is_false. intros Hle. apply Qle_bool_iff in Hle. lra.
Qed.

Lemma Qlt_bool_false (x y : Q) : Qlt_bool x y = false <-> y <= x.
Proof.
  unfold Qlt_bool. rewrite negb_false_iff. apply Qle_bool_iff.
Qed.

(** A stake is never negative, and below the probability if it is not 0. *)
Lemma bet_fraction_bounds (v : ext) (p o : Q) :
  ext_pos v = true -> 0 < o ->
  0 <= bet_fraction v p o /\ (bet_fraction v p o = 0 \/ bet_fraction v p o < p).
Proof.
  intros Hv Ho. destruct v as [q| | |]; simpl in *; try discriminate.
  - apply Qlt_bool_true in Hv.
    destruct (Qlt_bool (p - q / o) 0) eqn:E.
    + split; [apply Qle_refl | now left].
    + apply Qlt_bool_false in E. split; [exact E | right].
      assert (0 < q / o) by (apply Qlt_shift_div_l; [assumption | now rewrite Qmult_0_l]).
      lra.
  - split; [apply Qle_refl | now left].
Qed.

(** The loop that writes the stakes. *)
Lemma assign_spec (labels : list name) (indices : list nat) (bf : vec)
    (ks : list nat) (prop : gmap name Q) :
  Forall (fun k => (k < length indices)%nat /\ (k < length bf)%nat) ks ->
  (forall k i, indices !! k = Some i -> (i < length labels)%nat) ->
  exists prop', assign labels indices bf ks prop = inr prop' /\
    (forall nm, is_Some (prop !! nm) -> is_Some (prop' !! nm)) /\
    (forall nm q, prop' !! nm = Some q ->
       prop !! nm = Some q \/
       exists k i, k ∈ ks /\ indices !! k = Some i /\ labels !! i = Some nm /\
                   bf !! k = Some q).
Proof.
  intros Hks Hind. revert prop. induction Hks as [|k ks [Hk1 Hk2] _ IH]; intros prop;
    simpl.
  - exists prop. split; [reflexivity|]. split; auto.
  - destruct (indices !! k) as [i|] eqn:Hi.
    2: { apply lookup_ge_None in Hi. lia. }
    destruct (labels !! i) as [lbl|] eqn:Hl.
    2: { apply lookup_ge_None in Hl. specialize (Hind k i Hi). lia. }
    destruct (bf !! k) as [b|] eqn:Hb.
    2: { apply lookup_ge_None in Hb. lia. }
    destruct (IH (<[lbl := b]> prop)) as (prop' & Hrun & Hdom & Hval).
    exists prop'. split; [exact Hrun|]. split.
    + intros nm Hnm. apply Hdom.
      destruct (decide (lbl = nm)) as [->|Hne].
      * rewrite lookup_insert_eq. eauto.
      * now rewrite lookup_insert_ne.
    + intros nm q Hq. destruct (Hval nm q Hq) as [Hins|(k' & i' & Hin & H1 & H2 & H3)].
      * destruct (decide (lbl = nm)) as [->|Hne].
        -- rewrite lookup_insert_eq in Hins. injection Hins as <-.
           right. exists k, i. split; [now apply elem_of_cons; left|]. auto.
        -- rewrite lookup_insert_ne in Hins by assumption. now left.
      * right. exists k', i'. split; [now apply elem_of_cons; right|]. auto.
Qed.

End StakeFacts.

Module StakeRun.
Import NP NPFacts Kelly KellyFacts StakeFacts.

(** What [transform] does on an instance that the constructor accepted. *)
Lemma transform_run (self : MultiKellyBettor) :
  length (odds self) = length (prob self) ->
  length (label self) = length (odds self) ->
  (forall i, (i < length (odds self))%nat -> 1 < get1 (odds self) i) ->
  (odds self = [] /\ transform self = inl IndexError) \/
  (odds self <> [] /\
   (transform self = inl EmptyMin \/
    exists prop, transform self = inr prop /\
      (forall nm, is_Some (prop !! nm) <-> nm ∈ label self) /\
      (forall nm q, prop !! nm = Some q ->
         0 <= q /\
         (q = 0 \/ exists i, label self !! i = Some nm /\ q < get1 (prob self) i)))).
Proof.
  intros Hlen Hlab Hodds. destruct self as [o p lab]. simpl in *.
  unfold transform. cbn [odds prob label].
  destruct (zero_prop_spec lab (seq 0 (length o)) ∅) as (prop0 & -> & HA & _ & HB).
  { apply List.Forall_forall. intros k Hk. apply in_seq in Hk. lia. }
  assert (Hdom0 : forall nm, is_Some (prop0 !! nm) <-> nm ∈ lab).
  { intros nm. split.
    - intros [q Hq]. destruct (HB nm q Hq) as [(_ & k & _ & Hk)|Hemp].
      + now apply (list_elem_of_lookup_2 _ k).
      + rewrite lookup_empty in Hemp. discriminate.
    - intros Hin. apply list_elem_of_lookup_1 in Hin. destruct Hin as (k & Hk).
      exists 0. apply (HA k); [|exact Hk].
      apply list_elem_of_In, in_seq. apply lookup_lt_Some in Hk. lia. }
  assert (Hval0 : forall nm q, prop0 !! nm = Some q -> q = 0).
  { intros nm q Hq. destruct (HB nm q Hq) as [(-> & _)|Hemp]; [reflexivity|].
    rewrite lookup_empty in Hemp. discriminate. }
  set (eret := map (fun op => fst op * snd op) (combine o p)).
  set (indices := rev (argsort eret)).
  assert (Hne : length eret = length o).
  { unfold eret. rewrite List.length_map, length_combine. lia. }
  assert (Hni : length indices = length o).
  { unfold indices. now rewrite length_indices. }
  destruct o as [|o0 o'].
  { left. split; [reflexivity|]. reflexivity. }
  right. split; [discriminate|].
  destruct (take_at eret indices) as [|e0 es] eqn:He.
  { apply (f_equal (@length Q)) in He. rewrite length_take_at, Hni in He.
    simpl in He. lia. }
  destruct (Qle_bool e0 1).
  { right. exists prop0. split; [reflexivity|]. split; [exact Hdom0|].
    intros nm q Hq. rewrite (Hval0 nm q Hq). split; [apply Qle_refl | now left]. }
  set (odds' := take_at (o0 :: o') indices).
  set (prob' := take_at p indices).
  set (tmp := map (fun ab => fdiv (1 - fst ab) (1 - snd ab))
                  (combine (cumsum prob') (cumsum (map (fun x => 1 / x) odds')))).
  assert (Hnt : length tmp = length (o0 :: o')).
  { unfold tmp, cumsum, odds', prob'.
    rewrite List.length_map, length_combine, !length_cumsum_from, List.length_map,
      !length_take_at. lia. }
  pose proof (length_filter (fun x => ext_pos x = true) tmp) as Hnf.
  assert (Hpos : Forall (fun x => ext_pos x = true) (filter (fun x => ext_pos x = true) tmp)).
  { apply Forall_forall. intros x Hx. now apply list_elem_of_filter in Hx. }
  destruct (filter (fun x => ext_pos x = true) tmp) as [|t0 ts] eqn:Hf.
  { now left. }
  right.
  set (v := fold_left ext_min ts t0).
  assert (Hv : ext_pos v = true).
  { inversion Hpos; subst. now apply fold_ext_min_pos. }
  set (bf := map (fun po => bet_fraction v (fst po) (snd po)) (combine prob' odds')).
  assert (Hnb : length bf = length (o0 :: o')).
  { unfold bf, odds', prob'.
    rewrite List.length_map, length_combine, !length_take_at. lia. }
  destruct (assign_spec lab indices bf (seq 0 (length (t0 :: ts))) prop0)
    as (prop' & Hrun & Hdom & Hval).
  { apply List.Forall_forall. intros k Hk. apply in_seq in Hk. lia. }
  { intros k i Hk. apply indices_bound in Hk. lia. }
  exists prop'. split; [exact Hrun|]. split.
  - intros nm. split.
    + intros [q Hq]. destruct (Hval nm q Hq) as [H0|(k & i & _ & _ & Hl & _)].
      * apply Hdom0. eauto.
      * now apply (list_elem_of_lookup_2 _ i).
    + intros Hin. apply Hdom. now apply Hdom0.
  - intros nm q Hq. destruct (Hval nm q Hq) as [H0|(k & i & _ & Hi & Hl & Hb)].
    + rewrite (Hval0 nm q H0). split; [apply Qle_refl | now left].
    + unfold bf in Hb. apply lookup_map_Some in Hb.
      destruct Hb as ([pk ok] & Hpo & ->). cbn [fst snd].
      apply lookup_combine_Some in Hpo. destruct Hpo as (Hpk & Hok).
      unfold prob', odds', take_at in Hpk, Hok.
      apply lookup_map_Some in Hpk. destruct Hpk as (i1 & Hi1 & ->).
      apply lookup_map_Some in Hok. destruct Hok as (i2 & Hi2 & ->).
      assert (i1 = i) by congruence. assert (i2 = i) by congruence. subst i1 i2.
      assert (Hio : (i < length (o0 :: o'))%nat).
      { apply indices_bound in Hi. lia. }
      assert (Ho : 0 < get1 (o0 :: o') i) by (specialize (Hodds i Hio); lra).
      destruct (bet_fraction_bounds v (get1 p i) (get1 (o0 :: o') i) Hv Ho)
        as (Hge & [Hz|Hlt]).
      * split; [exact Hge | now left].
      * split; [exact Hge | right]. exists i. now split.
Qed.

End StakeRun.

Module StakeProps.
Import NP NPFacts Kelly KellyFacts StakeFacts StakeRun.

(** X16.  What the constructor lets through: [odds] and [prob] are
    one-dimensional and equally long, every odd is above 1, and there is
    one label for each competitor; an empty label list counts as none
    given, and the labels are then 0, 1, ..., n-1. *)
Theorem constructed_instance (odds_arg prob_arg : array_like)
    (label_arg : list name) (self : MultiKellyBettor) :
  init odds_arg prob_arg label_arg = inr self ->
  odds_arg = Seq1 (odds self) /\ prob_arg = Seq1 (prob self) /\
  length (prob self) = length (odds self) /\
  length (label self) = length (odds self) /\
  (forall i, (i < length (odds self))%nat -> 1 < get1 (odds self) i) /\
  (label_arg = [] -> label self = map inl (seq 0 (length (odds self)))) /\
  (label_arg <> [] -> label self = label_arg).
Proof.
  intros Hinit.
  destruct (init_valid _ _ _ _ Hinit) as (Ho & Hp & Hlen & Hlab & Hodds).
  repeat split; try assumption; try (symmetry; assumption).
  - intros ->. subst odds_arg prob_arg. unfold init in Hinit.
    destruct (negb _); [discriminate|]. destruct (Qgt_bool _ _); [discriminate|].
    destruct (existsb _ _); [discriminate|]. now injection Hinit as <-.
  - intros Hne. subst odds_arg prob_arg. unfold init in Hinit.
    destruct (negb _); [discriminate|]. destruct (Qgt_bool _ _); [discriminate|].
    destruct (existsb _ _); [discriminate|].
    destruct label_arg as [|l0 ls]; [contradiction|].
    destruct (negb _); [discriminate|]. now injection Hinit as <-.
Qed.

(** X17.  The dictionary that [transform] returns has the labels as its
    keys, all of them and no others. *)
Theorem result_keys (odds_arg prob_arg : array_like) (label_arg : list name)
    (self : MultiKellyBettor) (prop : gmap name Q) (nm : name) :
  init odds_arg prob_arg label_arg = inr self ->
  transform self = inr prop ->
  is_Some (prop !! nm) <-> nm ∈ label self.
Proof.
  intros Hinit Hrun. revert nm.
  destruct (init_valid _ _ _ _ Hinit) as (_ & _ & Hlen & Hlab & Hodds).
  destruct (transform_run self Hlen Hlab Hodds)
    as [(_ & He)|(_ & [He|(prop' & Hp & Hkeys & _)])]; try congruence.
  rewrite Hp in Hrun. injection Hrun as <-. exact Hkeys.
Qed.

(** X18.  No stake is negative, and no stake is above the probability of a
    competitor of that label: a stake is 0 or [prob - v / odds] with a
    positive [v].  (In exact arithmetic the stake is below the probability;
    in doubles [v / odds] can be less than an ulp of it.) *)
Theorem stake_bounds (odds_arg prob_arg : array_like) (label_arg : list name)
    (self : MultiKellyBettor) (prop : gmap name Q) (nm : name) (q : Q) :
  init odds_arg prob_arg label_arg = inr self ->
  transform self = inr prop ->
  prop !! nm = Some q ->
  0 <= q /\
  (q = 0 \/ exists i, label self !! i = Some nm /\ q <= get1 (prob self) i).
Proof.
  intros Hinit Hrun Hq.
  destruct (init_valid _ _ _ _ Hinit) as (_ & _ & Hlen & Hlab & Hodds).
  destruct (transform_run self Hlen Hlab Hodds)
    as [(_ & He)|(_ & [He|(prop' & Hp & _ & Hval)])]; try congruence.
  rewrite Hp in Hrun. injection Hrun as <-.
  destruct (Hval nm q Hq) as (H0 & [Hz|(i & Hi & Hlt)]).
  - split; [exact H0 | now left].
  - split; [exact H0 | right]. exists i. split; [exact Hi | now apply Qlt_le_weak].
Qed.

(** X19.  How [transform] can fail on a constructed instance: with no
    competitors at all, [eret[0]] is an index error, and only then; the one
    other failure is the minimum of an empty array, when no entry of [tmp]
    is positive. *)
Theorem transform_failures (odds_arg prob_arg : array_like)
    (label_arg : list name) (self : MultiKellyBettor) :
  init odds_arg prob_arg label_arg = inr self ->
  (transform self = inl IndexError <-> odds self = []) /\
  (forall e, transform self = inl e -> e = IndexError \/ e = EmptyMin).
Proof.
  intros Hinit.
  destruct (init_valid _ _ _ _ Hinit) as (_ & _ & Hlen & Hlab & Hodds).
  destruct (transform_run self Hlen Hlab Hodds)
    as [(Ho & He)|(Ho & [He|(prop' & Hp & _)])].
  - split; [now split|]. intros e H. left. congruence.
  - split; [split; [congruence | contradiction]|]. intros e H. right. congruence.
  - split; [split; [congruence | contradiction]|]. intros e H. congruence.
Qed.

(** X20.  One competitor with an edge: for odds [o] and a probability [p]
    below 1 with [o * p > 1], the stake is Kelly's fraction
    [(o * p - 1) / (o - 1)]. *)
Theorem single_outcome_kelly (o p : Q) (label_arg : list name)
    (self : MultiKellyBettor) :
  init (Seq1 [o]) (Seq1 [p]) label_arg = inr self ->
  1 < o * p -> p < 1 ->
  exists nm q, label self = [nm] /\ transform self = inr {[ nm := q ]} /\
    q == (o * p - 1) / (o - 1).
Proof.
  intros Hinit Hedge Hp.
  destruct (init_valid _ _ _ _ Hinit) as (Ho & Hpr & _ & Hlab & Hodds).
  destruct self as [os ps lab]. simpl in *.
  injection Ho as <-. injection Hpr as <-.
  destruct lab as [|nm [|nm' lab]]; simpl in Hlab; try lia.
  specialize (Hodds 0%nat ltac:(simpl; lia)). unfold get1 in Hodds. simpl in Hodds.
  assert (Ho1 : 0 < 1 - (0 + 1 / o)).
  { assert (1 / o < 1); [|lra]. apply Qlt_shift_div_r; lra. }
  set (x := (1 - (0 + p)) / (1 - (0 + 1 / o))).
  assert (Hx : 0 < x).
  { unfold x. apply Qlt_shift_div_l; [assumption|]. lra. }
  assert (Hb : p - x / o == (o * p - 1) / (o - 1)).
  { unfold x. field. repeat split; lra. }
  assert (Hb0 : 0 < (o * p - 1) / (o - 1)).
  { apply Qlt_shift_div_l; lra. }
  exists nm, (p - x / o). split; [reflexivity|]. split; [|exact Hb].
  unfold transform. cbn [odds prob label length seq zero_prop lookup list_lookup].
  cbn [combine map fst snd argsort fold_left insert_by rev app take_at get1 nth length seq].
  replace (Qle_bool (o * p) 1) with false
    by (symmetry; apply not_true_is_false; intros H; apply Qle_bool_iff in H; lra).
  cbn [cumsum cumsum_from map combine fst snd].
  unfold fdiv.
  replace (Qeq_bool (1 - (0 + 1 / o)) 0) with false
    by (symmetry; apply not_true_is_false; intros H; apply Qeq_bool_eq in H; lra).
  fold x. rewrite filter_cons, filter_nil.
  destruct (decide (ext_pos (Fin x) = true)) as [_|Hn].
  2: { exfalso. apply Hn. simpl. now apply Qlt_bool_true. }
  cbn [fold_left map combine fst snd bet_fraction length seq].
  replace (Qlt_bool (p - x / o) 0) with false
    by (symmetry; apply Qlt_bool_false; lra).
  cbn [assign lookup list_lookup].
  now rewrite insert_insert_eq, insert_empty.
Qed.

(** X21.  One competitor that is sure to win: with a probability of 1 (or
    more) the only entry of [tmp] is not positive, and [transform] fails
    on the minimum of an empty array; it returns no stake. *)
Theorem sure_winner_fails (o p : Q) (label_arg : list name)
    (self : MultiKellyBettor) :
  init (Seq1 [o]) (Seq1 [p]) label_arg = inr self ->
  1 <= p ->
  transform self = inl EmptyMin.
Proof.
  intros Hinit Hp.
  destruct (init_valid _ _ _ _ Hinit) as (Ho & Hpr & _ & Hlab & Hodds).
  destruct self as [os ps lab]. simpl in *.
  injection Ho as <-. injection Hpr as <-.
  destruct lab as [|nm [|nm' lab]]; simpl in Hlab; try lia.
  specialize (Hodds 0%nat ltac:(simpl; lia)). unfold get1 in Hodds. simpl in Hodds.
  assert (Hedge : 1 < o * p).
  { assert (0 <= (o - 1) * (p - 1)) by (apply Qmult_le_0_compat; lra).
    assert ((o - 1) * (p - 1) == o * p - o - p + 1) by ring. lra. }
  assert (Ho1 : 0 < 1 - (0 + 1 / o)).
  { assert (1 / o < 1); [|lra]. apply Qlt_shift_div_r; lra. }
  set (x := (1 - (0 + p)) / (1 - (0 + 1 / o))).
  assert (Hx : x <= 0).
  { unfold x. apply Qle_shift_div_r; [assumption|]. lra. }
  unfold transform. cbn [odds prob label length seq zero_prop lookup list_lookup].
  cbn [combine map fst snd argsort fold_left insert_by rev app take_at get1 nth length seq].
  replace (Qle_bool (o * p) 1) with false
    by (symmetry; apply not_true_is_false; intros H; apply Qle_bool_iff in H; lra).
  cbn [cumsum cumsum_from map combine fst snd].
  unfold fdiv.
  replace (Qeq_bool (1 - (0 + 1 / o)) 0) with false
    by (symmetry; apply not_true_is_false; intros H; apply Qeq_bool_eq in H; lra).
  fold x. rewrite filter_cons, filter_nil.
  destruct (decide (ext_pos (Fin x) = true)) as [Hy|_]; [|reflexivity].
  simpl in Hy. apply Qlt_bool_true in Hy. lra.
Qed.

End StakeProps.

Module StakeWitnesses.
Import NP NPFacts Kelly KellyFacts StakeProps.

Lemma constructed_instance_witness :
  let self := mkMultiKellyBettor [2; 4] [0.5; 0.25] [inl 0%nat; inl 1%nat] in
  Seq1 [2; 4] = Seq1 (odds self) /\ Seq1 [0.5; 0.25] = Seq1 (prob self) /\
  length (prob self) = length (odds self) /\
  length (label self) = length (odds self) /\
  (forall i, (i < length (odds self))%nat -> 1 < get1 (odds self) i) /\
  (@nil name = [] -> label self = map inl (seq 0 (length (odds self)))) /\
  (@nil name <> [] -> label self = []).
Proof.
  apply (constructed_instance (Seq1 [2; 4]) (Seq1 [0.5; 0.25]) []
           (mkMultiKellyBettor [2; 4] [0.5; 0.25] [inl 0%nat; inl 1%nat])).
  reflexivity.
Defined.

Lemma result_keys_witness :
  let self := mkMultiKellyBettor [2; 4] [0.5; 0.25] [inr "a"; inr "b"]%string in
  is_Some (({[ inr "a"%string := 0; inr "b"%string := 0 ]} : gmap name Q)
             !! inr "b"%string)
  <-> inr "b"%string ∈ label self.
Proof.
  apply (result_keys (Seq1 [2; 4]) (Seq1 [0.5; 0.25]) [inr "a"; inr "b"]%string
           (mkMultiKellyBettor [2; 4] [0.5; 0.25] [inr "a"; inr "b"]%string)
           {[ inr "a"%string := 0; inr "b"%string := 0 ]} (inr "b"%string)).
  - reflexivity.
  - vm_compute. reflexivity.
Defined.

Lemma stake_bounds_witness :
  let self := mkMultiKellyBettor [1.87; 3.4; 3.4] [0.592; 0.285; 0.123]
                [inr "horse1"; inr "horse2"; inr "horse3"]%string in
  let prop := match transform self with inr m => m | inl _ => ∅ end in
  let q := default 0 (prop !! inr "horse1"%string) in
  0 <= q /\
  (q = 0 \/ exists i, label self !! i = Some (inr "horse1"%string) /\
                      q <= get1 (prob self) i).
Proof.
  apply (stake_bounds (Seq1 [1.87; 3.4; 3.4]) (Seq1 [0.592; 0.285; 0.123])
           [inr "horse1"; inr "horse2"; inr "horse3"]%string
           (mkMultiKellyBettor [1.87; 3.4; 3.4] [0.592; 0.285; 0.123]
              [inr "horse1"; inr "horse2"; inr "horse3"]%string)
           (match transform (mkMultiKellyBettor [1.87; 3.4; 3.4] [0.592; 0.285; 0.123]
                               [inr "horse1"; inr "horse2"; inr "horse3"]%string)
            with inr m => m | inl _ => ∅ end)
           (inr "horse1"%string)).
  - reflexivity.
  - vm_compute. reflexivity.
  - vm_compute. reflexivity.
Defined.

Lemma transform_failures_witness :
  let self := mkMultiKellyBettor [] [] [] in
  (transform self = inl IndexError <-> odds self = []) /\
  (forall e, transform self = inl e -> e = IndexError \/ e = EmptyMin).
Proof.
  apply (transform_failures (Seq1 []) (Seq1 []) [] (mkMultiKellyBettor [] [] [])).
  reflexivity.
Defined.

Lemma single_outcome_kelly_witness :
  exists nm q,
    label (mkMultiKellyBettor [2] [0.6] [inl 0%nat]) = [nm] /\
    transform (mkMultiKellyBettor [2] [0.6] [inl 0%nat]) = inr {[ nm := q ]} /\
    q == (2 * 0.6 - 1) / (2 - 1).
Proof.
  apply (single_outcome_kelly 2 0.6 [] (mkMultiKellyBettor [2] [0.6] [inl 0%nat])).
  - reflexivity.
  - reflexivity.
  - reflexivity.
Defined.

Lemma sure_winner_fails_witness :
  transform (mkMultiKellyBettor [2] [1] [inr "a"%string]) = inl EmptyMin.
Proof.
  apply (sure_winner_fails 2 1 [inr "a"%string]
           (mkMultiKellyBettor [2] [1] [inr "a"%string])).
  - reflexivity.
  - discriminate.
Defined.

End StakeWitnesses.

(** ** The coefficient list after the construction *)

Module ListProps.
Import NP Prob NPFacts LevelFacts RunFacts CallFacts.

Section Props.

Variable power : Q -> Q -> Q.
Variable uninit2 : nat -> nat -> Q.
Variable uninit3 : nat -> nat -> nat -> Q.

(** X24.  The instance reads the caller's list at every level it computes.
    If the caller has shortened the list after the construction to [m]
    entries, fewer than the levels that [transform(pool)] needs, the call on
    the new instance fails with an index error at [self.c[m]], after it has
    computed and stored the [m] levels before. *)
Theorem shortened_list_index_error (h h' : heap) (ws : vec) (cref : nat)
    (pool : string) :
  In pool pools ->
  let cs' := deref h' cref in
  (length cs' < reach pool (length ws))%nat ->
  transform power uninit2 uninit3 h' pool (snd (init h ws cref)) =
  (state_at power uninit2 uninit3 ws cref cs' (length cs'), inl IndexError).
Proof.
  intros Hpool cs' Hm. subst cs'.
  rewrite (init_instance power uninit2 uninit3 h ws cref (deref h' cref)).
  remember (deref h' cref) as cs eqn:Hcs.
  unfold pools in Hpool. simpl in Hpool.
  unfold transform, state_at, load_p_i, load_p_ij, load_p_ijk,
    load_p_ijkl, coef, _check_dim, _check_pool, bind, gets, modify, ret, raise.
  unfold reach in Hm.
  destruct (length ws <=? 2)%nat eqn:E2, (length ws <=? 3)%nat eqn:E3,
    (length ws <=? 4)%nat eqn:E4;
    try (exfalso;
         repeat match goal with
                | H : (_ <=? _)%nat = true |- _ => apply Nat.leb_le in H
                | H : (_ <=? _)%nat = false |- _ => apply Nat.leb_gt in H
                end; lia);
    destruct cs as [|c1 [|c2 [|c3 [|c4 rest]]]];
    destruct Hpool as [<-|[<-|[<-|[<-|[<-|[<-|[<-|[<-|[]]]]]]]]];
    cbn in Hm; try lia;
    do 8 (cbn [existsb String.eqb Ascii.eqb Bool.eqb pools orb andb negb
               wos c p_i p_ij p_ijk p_ijkl Nat.leb Nat.max fst snd length
               lookup list_lookup default nth];
          rewrite <- ?Hcs, ?E2, ?E3, ?E4);
    reflexivity.
Qed.

End Props.

Lemma shortened_list_index_error_witness :
  let h := <[1%nat := [1; 2; 1; 1]]> heap0 in
  let h' := <[1%nat := [1]]> heap0 in
  let ws := [1; 2; 3] in
  transform ipower (fun _ _ => 0) (fun _ _ _ => 0) h' "quinella"
    (snd (init h ws 1%nat)) =
  (state_at ipower (fun _ _ => 0) (fun _ _ _ => 0) ws 1%nat (deref h' 1%nat)
     (length (deref h' 1%nat)),
   inl IndexError).
Proof.
  apply (shortened_list_index_error ipower (fun _ _ => 0) (fun _ _ _ => 0)
           (<[1%nat := [1; 2; 1; 1]]> heap0) (<[1%nat := [1]]> heap0)
           [1; 2; 3] 1%nat "quinella").
  - simpl. tauto.
  - vm_compute. lia.
Defined.

End ListProps.

(** ** The place probabilities are probabilities *)

Module PlaceFacts.
Import NP Prob NPFacts LevelFacts RunFacts PoolFacts ValueFacts.

Lemma bigsum_le (n : nat) (f g : nat -> Q) :
  (forall i, (i < n)%nat -> f i <= g i) -> bigsum n f <= bigsum n g.
Proof.
  induction n as [|n IH]; intros H; simpl; [apply Qle_refl|].
  apply Qplus_le_compat; [apply IH; intros; apply H; lia | apply H; lia].
Qed.

Lemma bigsum_if (n : nat) (c : bool) (f : nat -> Q) :
  bigsum n (fun j => if c then f j else 0) == if c then bigsum n f else 0.
Proof.
  destruct c; [reflexivity|]. apply bigsum_zero. intros; reflexivity.
Qed.

Lemma place_entry (n : nat) (pi : vec) (pij : mat) (pijk : ten3) (i : nat) :
  (i < n)%nat ->
  get1 (place_of n pi pij pijk) i ==
  get1 pi i + bigsum n (fun b => get2 pij i b) +
  bigsum n (fun a => bigsum n (fun j => get3 pijk a j i)).
Proof.
  intros Hi. unfold place_of, add1, sum2_axis1, sum2_axis0, sum3_axis1.
  rewrite !get1_tab by assumption.
  apply Qplus_comp; [reflexivity|].
  apply bigsum_ext; intros a Ha. now rewrite get2_tab2.
Qed.

Section Place.

Variable u : nat -> nat -> Q.
Variable n : nat.
Variables p1 r2 r3 : vec.
Hypothesis Hp1 : prob_vec n p1.
Hypothesis Hr2 : prob_vec n r2.
Hypothesis Hr3 : prob_vec n r3.
Hypothesis Hhalf : forall a, (a < n)%nat -> ~ get1 r3 a == 1 # 2.
Hypothesis Hn : (4 <= n)%nat.

Let pij := level2 n p1 r2.
Let t := level3 u n pij r3.

Lemma pij_nonneg (a b : nat) : (a < n)%nat -> (b < n)%nat -> 0 <= get2 pij a b.
Proof using Hp1 Hr2 Hn.
  intros Ha Hb. destruct (Nat.eq_dec a b) as [->|Hab].
  - unfold pij. rewrite level2_diag by assumption. apply Qle_refl.
  - apply Qlt_le_weak. apply level2_pos; try assumption. lia.
Qed.

(** The entries of [p_ijk] with [i] on the last axis: nothing where [i] is
    also on another axis, and elsewhere at most the entry of [p_ij]. *)
Lemma third_place_entry (i a j : nat) :
  (i < n)%nat -> (a < n)%nat -> (j < n)%nat ->
  0 <= get3 t a j i <=
  (if (a =? i)%nat || (j =? i)%nat then 0 else get2 pij a j).
Proof using Hp1 Hr2 Hr3 Hhalf Hn.
  intros Hi Ha Hj. unfold t. rewrite level3_entry by assumption.
  rewrite (Nat.eqb_sym a i), (Nat.eqb_sym j i).
  destruct (Nat.eqb_spec i a) as [->|Hia]; [split; apply Qle_refl|].
  destruct (Nat.eqb_spec i j) as [->|Hij]; [split; apply Qle_refl|].
  cbn [orb].
  assert (Hri : 0 < get1 r3 i) by now apply Hr3.
  destruct (Nat.eq_dec a j) as [->|Haj].
  - assert (Hz : get2 pij j j = 0) by (unfold pij; now apply level2_diag).
    rewrite !Hz.
    replace (Qeq_bool (1 - get1 r3 j - get1 r3 j) 0) with false.
    + assert (E : 0 / (1 - get1 r3 j - get1 r3 j) * get1 r3 i == 0)
        by (unfold Qdiv; ring).
      rewrite E. split; apply Qle_refl.
    + symmetry. apply not_true_is_false. intros H. apply Qeq_bool_eq in H.
      apply (Hhalf j Hj). lra.
  - assert (HD : 0 < 1 - get1 r3 a - get1 r3 j)
      by (apply (prob_vec_rest2 n); auto; lia).
    assert (HD3 : 0 < 1 - get1 r3 a - get1 r3 j - get1 r3 i)
      by (apply (prob_vec_rest3 n); auto).
    rewrite (Qeq_bool_pos _ HD).
    assert (Hp : 0 < get2 pij a j) by (apply level2_pos; try assumption; lia).
    assert (Hq : 0 < get1 r3 i / (1 - get1 r3 a - get1 r3 j)) by now apply Qdiv_pos.
    assert (Hq1 : get1 r3 i / (1 - get1 r3 a - get1 r3 j) <= 1)
      by (apply Qle_shift_div_r; [assumption | lra]).
    assert (E : get2 pij a j / (1 - get1 r3 a - get1 r3 j) * get1 r3 i ==
                get2 pij a j * (get1 r3 i / (1 - get1 r3 a - get1 r3 j)))
      by (field; lra).
    rewrite E. split.
    + apply Qlt_le_weak. now apply Qmult_lt_0_compat.
    + rewrite <- (Qmult_1_r (get2 pij a j)) at 2.
      apply Qmult_le_l; assumption.
Qed.

(** The sum of a column of [p_ij] is the entry of [p_i]. *)
Lemma column_sum (i : nat) :
  (i < n)%nat -> bigsum n (fun a => get2 pij a i) == get1 p1 i.
Proof using Hr2 Hn.
  intros Hi.
  transitivity (bigsum n (fun a =>
    (get1 p1 i / (1 - get1 r2 i)) * (if distinct [i; a] then get1 r2 a else 0))).
  { apply bigsum_ext. intros a Ha. unfold pij.
    rewrite level2_entry, distinct2, (Nat.eqb_sym i a) by assumption.
    destruct (a =? i)%nat; simpl; ring. }
  rewrite bigsum_scale, (bigsum_except1 n i (get1 r2) Hi).
  destruct Hr2 as [Hpos Hsum]. rewrite Hsum.
  assert (0 < 1 - get1 r2 i) by (apply (prob_vec_rest1 n); [split| |]; auto; lia).
  field. lra.
Qed.

Lemma full_sum : bigsum n (fun a => bigsum n (fun b => get2 pij a b)) == 1.
Proof using Hp1 Hr2 Hn.
  rewrite sum2_full.
  - unfold pij. apply level2_sum; [lia | apply Hp1 | exact Hr2].
  - intros i Hi. unfold pij. rewrite level2_diag by assumption. reflexivity.
Qed.

(** What is left of [p_ij] without the row and the column of [i]. *)
Lemma rest_sum (i : nat) :
  (i < n)%nat ->
  bigsum n (fun a => bigsum n (fun j =>
    if (a =? i)%nat || (j =? i)%nat then 0 else get2 pij a j)) ==
  1 - bigsum n (fun b => get2 pij i b) - get1 p1 i.
Proof using Hp1 Hr2 Hn.
  intros Hi.
  pose (M := fun a j => if (a =? i)%nat || (j =? i)%nat then 0 else get2 pij a j).
  pose (R := fun a j => if (a =? i)%nat then get2 pij a j else 0).
  pose (C := fun a j => if (j =? i)%nat then get2 pij a j else 0).
  assert (Hsplit : bigsum n (fun a => bigsum n (fun j => get2 pij a j)) ==
            bigsum n (fun a => bigsum n (fun j => M a j)) +
            bigsum n (fun a => bigsum n (fun j => R a j)) +
            bigsum n (fun a => bigsum n (fun j => C a j))).
  { rewrite <- !bigsum2_plus. apply bigsum_ext; intros a Ha.
    apply bigsum_ext; intros j Hj. unfold M, R, C.
    destruct (Nat.eqb_spec a i) as [->|Ha'], (Nat.eqb_spec j i) as [->|Hj'];
      cbn [orb]; try ring.
    unfold pij. rewrite level2_diag by assumption. ring. }
  assert (HR : bigsum n (fun a => bigsum n (fun j => R a j)) ==
               bigsum n (fun b => get2 pij i b)).
  { transitivity (bigsum n (fun a =>
      if (a =? i)%nat then bigsum n (fun j => get2 pij a j) else 0)).
    - apply bigsum_ext; intros a Ha. unfold R. apply bigsum_if.
    - now rewrite (bigsum_delta n i (fun a => bigsum n (fun j => get2 pij a j))). }
  assert (HC : bigsum n (fun a => bigsum n (fun j => C a j)) == get1 p1 i).
  { rewrite <- (column_sum i Hi). apply bigsum_ext; intros a Ha. unfold C.
    now rewrite (bigsum_delta n i (fun j => get2 pij a j)). }
  rewrite full_sum, HR, HC in Hsplit. unfold M in Hsplit. lra.
Qed.

Lemma place_bounds (i : nat) :
  (i < n)%nat ->
  get1 p1 i <= get1 (place_of n p1 pij t) i <= 1.
Proof using Hp1 Hr2 Hr3 Hhalf Hn.
  intros Hi. rewrite place_entry by assumption.
  assert (Hrow : 0 <= bigsum n (fun b => get2 pij i b)).
  { apply bigsum_nonneg. intros b Hb. now apply pij_nonneg. }
  assert (HT0 : 0 <= bigsum n (fun a => bigsum n (fun j => get3 t a j i))).
  { apply bigsum_nonneg. intros a Ha. apply bigsum_nonneg. intros j Hj.
    now apply third_place_entry. }
  assert (HT1 : bigsum n (fun a => bigsum n (fun j => get3 t a j i)) <=
                1 - bigsum n (fun b => get2 pij i b) - get1 p1 i).
  { rewrite <- (rest_sum i Hi). apply bigsum_le. intros a Ha.
    apply bigsum_le. intros j Hj. now apply third_place_entry. }
  split; lra.
Qed.

End Place.
End PlaceFacts.

Module PlaceProps.
Import NP Prob Range NPFacts LevelFacts RunFacts RangeFacts PoolFacts PoolClaims
  OutputFacts ValueFacts PlaceFacts.

Section Props.

Variable power : Q -> Q -> Q.
Variable uninit2 : nat -> nat -> Q.
Variable uninit3 : nat -> nat -> nat -> Q.

(** X23.  For positive weights in the range where rounding stays small,
    more than three competitors and any coefficients, if no level-3 rank
    weight is within 2^-20 of 1/2, every entry of the [place] output lies
    between the win probability of the competitor, which is positive, and
    1.  The proof is in exact arithmetic. *)
Theorem place_between_win_and_one (h : heap) (ws : vec) (cref : nat)
    (cs : list Q) (s : ProbProber) :
  power_pos power -> all_pos ws -> h !! cref = Some cs ->
  let h1 := fst (init h ws cref) in
  reachable power uninit2 uninit3 h1 (snd (init h ws cref)) s ->
  let n := length ws in
  (3 < n)%nat ->
  well_conditioned power ws (deref h1 cref) = true ->
  away_from_half power ws (deref h1 cref) = true ->
  exists w v,
    snd (transform power uninit2 uninit3 h1 "win" s) = inr (Arr1 w) /\
    snd (transform power uninit2 uninit3 h1 "place" s) = inr (Arr1 v) /\
    forall i, (i < n)%nat -> 0 < get1 w i /\ get1 w i <= get1 v i /\ get1 v i <= 1.
Proof.
  intros Hpow Hws Hc h1 Hreach n Hn _ Hh. subst h1.
  rewrite !(transform_result power uninit2 uninit3 h ws cref cs s _ Hc Hreach)
    by (simpl; tauto).
  set (cs1 := deref (fst (init h ws cref)) cref) in *.
  pose proof (fun i Hi => away_from_half_spec power ws cs1 i Hh Hi) as Hhalf.
  destruct (outcome_values power uninit2 uninit3 ws cs1) as (O1 & _ & O3 & _).
  rewrite O1. destruct (O3 Hn) as (_ & _ & -> & _).
  eexists _, _. split; [reflexivity|]. split; [reflexivity|].
  assert (Hrw : forall ck, prob_vec n (rank_weight power ws ck)).
  { intros ck. apply rank_weight_prob_vec; try assumption.
    intros Hnil. subst n. rewrite Hnil in Hn. simpl in Hn. lia. }
  intros i Hi. split; [now apply (Hrw (nth 0 cs1 1))|].
  unfold order3, order2, order1. fold n.
  apply (place_bounds uninit2 n _ _ _ (Hrw _) (Hrw _) (Hrw _) Hhalf); [lia | exact Hi].
Qed.

End Props.

Lemma place_between_win_and_one_witness :
  let h := <[1%nat := [1; 2]]> heap0 in
  let ws := [1; 2; 3; 4; 5] in
  let h1 := fst (init h ws 1%nat) in
  let s := snd (init h ws 1%nat) in
  exists w v,
    snd (transform ipower (fun _ _ => 0) (fun _ _ _ => 0) h1 "win" s) = inr (Arr1 w) /\
    snd (transform ipower (fun _ _ => 0) (fun _ _ _ => 0) h1 "place" s) = inr (Arr1 v) /\
    forall i, (i < 5)%nat -> 0 < get1 w i /\ get1 w i <= get1 v i /\ get1 v i <= 1.
Proof.
  apply (place_between_win_and_one ipower (fun _ _ => 0) (fun _ _ _ => 0)
           (<[1%nat := [1; 2]]> heap0) [1; 2; 3; 4; 5] 1%nat [1; 2]
           (snd (init (<[1%nat := [1; 2]]> heap0) [1; 2; 3; 4; 5] 1%nat))).
  - exact ipower_pos.
  - repeat constructor.
  - reflexivity.
  - apply reach_new.
  - simpl. lia.
  - vm_compute. reflexivity.
  - vm_compute. reflexivity.
Defined.

End PlaceProps.

(** ** kelly.py: the competitor with the largest expected return *)

Module SortFacts.
Import Sorted NP NPFacts Kelly KellyFacts StakeFacts.

(** *** [argsort] gives a permutation of the indices, in ascending order of
    the keys *)

Lemma insert_by_perm (keys : vec) (i : nat) (sorted : list nat) :
  Permutation (insert_by keys i sorted) (i :: sorted).
Proof.
  induction sorted as [|j r IH]; simpl; [reflexivity|].
  destruct (Qlt_bool _ _); [reflexivity|].
  rewrite IH. apply perm_swap.
Qed.

Lemma argsort_fold_perm (keys : vec) (ks acc : list nat) :
  Permutation (fold_left (fun sorted i => insert_by keys i sorted) ks acc) (ks ++ acc).
Proof.
  revert acc. induction ks as [|k ks IH]; intros acc; simpl; [reflexivity|].
  rewrite IH, insert_by_perm. symmetry. apply Permutation_middle.
Qed.

Lemma argsort_perm (keys : vec) :
  Permutation (argsort keys) (seq 0 (length keys)).
Proof. unfold argsort. rewrite argsort_fold_perm. now rewrite app_nil_r. Qed.

Lemma insert_by_sorted (keys : vec) (i : nat) (sorted : list nat) :
  StronglySorted (fun a b => get1 keys a <= get1 keys b) sorted ->
  StronglySorted (fun a b => get1 keys a <= get1 keys b) (insert_by keys i sorted).
Proof.
  intros Hs. induction Hs as [|j r Hr IH Hj]; simpl.
  - repeat constructor.
  - destruct (Qlt_bool (get1 keys i) (get1 keys j)) eqn:E.
    + apply Qlt_bool_true in E. constructor; [now constructor|].
      constructor; [lra|].
      eapply List.Forall_impl; [|exact Hj]. intros a Ha. simpl in Ha. lra.
    + apply Qlt_bool_false in E. constructor; [exact IH|].
      apply insert_by_Forall; assumption.
Qed.

Lemma argsort_sorted (keys : vec) :
  StronglySorted (fun a b => get1 keys a <= get1 keys b) (argsort keys).
Proof.
  unfold argsort.
  assert (H : forall ks acc,
            StronglySorted (fun a b => get1 keys a <= get1 keys b) acc ->
            StronglySorted (fun a b => get1 keys a <= get1 keys b)
              (fold_left (fun sorted i => insert_by keys i sorted) ks acc)).
  { induction ks as [|k ks IH]; intros acc Hacc; simpl; [exact Hacc|].
    apply IH. now apply insert_by_sorted. }
  apply H. constructor.
Qed.

Lemma sorted_before_last (keys : vec) (l : list nat) (m : nat) :
  StronglySorted (fun a b => get1 keys a <= get1 keys b) (l ++ [m]) ->
  forall x, x ∈ l -> get1 keys x <= get1 keys m.
Proof.
  induction l as [|a l IH]; intros Hs x Hx; [now apply not_elem_of_nil in Hx|].
  simpl in Hs. apply StronglySorted_inv in Hs. destruct Hs as [Hs Ha].
  apply elem_of_cons in Hx. destruct Hx as [->|Hx]; [|now apply IH].
  rewrite List.Forall_forall in Ha. apply Ha. apply in_or_app. right. now left.
Qed.

(** The first of [np.argsort(keys)[::-1]] is an index of a largest key, and
    no index comes twice. *)
Lemma indices_head (keys : vec) :
  keys <> [] ->
  exists i0 rest, rev (argsort keys) = i0 :: rest /\
    (i0 < length keys)%nat /\
    (forall i, (i < length keys)%nat -> get1 keys i <= get1 keys i0) /\
    NoDup (i0 :: rest).
Proof.
  intros Hne.
  assert (Hnd : NoDup (rev (argsort keys))).
  { apply NoDup_ListNoDup. apply NoDup_rev. apply NoDup_ListNoDup.
    rewrite argsort_perm. apply NoDup_seq. }
  destruct (rev (argsort keys)) as [|i0 rest] eqn:Hrev.
  { apply (f_equal (@length nat)) in Hrev. rewrite length_indices in Hrev.
    destruct keys; [congruence | discriminate]. }
  exists i0, rest. split; [reflexivity|].
  assert (Hl : argsort keys = rev rest ++ [i0]).
  { rewrite <- (rev_involutive (argsort keys)), Hrev. reflexivity. }
  split; [|split; [|exact Hnd]].
  - apply (indices_bound keys 0). now rewrite Hrev.
  - intros i Hi.
    assert (Hin : i ∈ argsort keys).
    { rewrite argsort_perm. apply list_elem_of_In, in_seq. lia. }
    pose proof (argsort_sorted keys) as Hs. rewrite Hl in Hs, Hin.
    apply elem_of_app in Hin. destruct Hin as [Hin|Hin].
    + now apply (sorted_before_last keys (rev rest) i0 Hs).
    + apply list_elem_of_singleton in Hin. subst i. apply Qle_refl.
Qed.

Lemma fold_ext_min_fin (ts : list ext) (a : Q) :
  exists v, fold_left ext_min ts (Fin a) = Fin v /\ v <= a.
Proof.
  revert a. induction ts as [|t ts IH]; intros a; simpl.
  - exists a. split; [reflexivity | apply Qle_refl].
  - destruct t as [b| | |]; simpl; try apply IH.
    destruct (Qle_bool a b) eqn:E; [apply IH|].
    destruct (IH b) as (v & Hv & Hle). exists v. split; [exact Hv|].
    assert (b <= a); [|lra].
    destruct (Qlt_le_dec a b) as [Hlt|Hge]; [|exact Hge].
    apply Qlt_le_weak, Qle_bool_iff in Hlt. congruence.
Qed.

Lemma eret_entry (o p : vec) (i : nat) :
  length o = length p -> (i < length o)%nat ->
  get1 (map (fun op => fst op * snd op) (combine o p)) i = get1 o i * get1 p i.
Proof.
  revert p i. induction o as [|x o IH]; intros [|y p] i Hlen Hi; simpl in *;
    try lia.
  destruct i as [|i]; [reflexivity|].
  change (get1 (map (fun op => fst op * snd op) (combine o p)) i = get1 o i * get1 p i).
  apply IH; lia.
Qed.

End SortFacts.

Module BestReturn.
Import NP NPFacts Kelly KellyFacts StakeFacts SortFacts.

(** X22.  If some competitor has an edge (odds times probability above 1),
    the labels are pairwise different and every probability is below 1, then
    [transform] returns, and a competitor with the largest expected return
    gets at least the stake of Kelly's formula for a single bet,
    [(o * p - 1) / (o - 1)], which is positive. *)
Theorem best_return_is_staked (odds_arg prob_arg : array_like)
    (label_arg : list name) (self : MultiKellyBettor) (j : nat) :
  init odds_arg prob_arg label_arg = inr self ->
  NoDup (label self) ->
  (j < length (odds self))%nat ->
  1 < get1 (odds self) j * get1 (prob self) j ->
  (forall i, (i < length (odds self))%nat -> get1 (prob self) i < 1) ->
  exists prop i0 nm q,
    transform self = inr prop /\ (i0 < length (odds self))%nat /\
    (forall i, (i < length (odds self))%nat ->
       get1 (odds self) i * get1 (prob self) i <=
       get1 (odds self) i0 * get1 (prob self) i0) /\
    label self !! i0 = Some nm /\ prop !! nm = Some q /\
    0 < (get1 (odds self) i0 * get1 (prob self) i0 - 1) / (get1 (odds self) i0 - 1)
      <= q.
Proof.
  intros Hinit Hnd Hj Hedge Hprob.
  destruct (init_valid _ _ _ _ Hinit) as (_ & _ & Hlen & Hlab & Hodds).
  destruct self as [o p lab]. cbn [odds prob label] in *.
  set (eret := map (fun op => fst op * snd op) (combine o p)).
  assert (Hne : length eret = length o).
  { unfold eret. rewrite List.length_map, length_combine. lia. }
  destruct (indices_head eret) as (i0 & rest & Hrev & Hi0 & Hmax & Hndi).
  { intros E. rewrite E in Hne. simpl in Hne. lia. }
  rewrite Hne in Hi0.
  assert (Hent : forall i, (i < length o)%nat -> get1 eret i = get1 o i * get1 p i).
  { intros i Hi. now apply eret_entry. }
  assert (Hbest : forall i, (i < length o)%nat ->
            get1 o i * get1 p i <= get1 o i0 * get1 p i0).
  { intros i Hi. rewrite <- !Hent by assumption. apply Hmax. now rewrite Hne. }
  assert (Ho0 : 1 < get1 o i0) by now apply Hodds.
  assert (Hp0 : get1 p i0 < 1) by now apply Hprob.
  assert (He0 : 1 < get1 o i0 * get1 p i0).
  { specialize (Hbest j Hj). lra. }
  assert (Hnr : length (i0 :: rest) = length o).
  { rewrite <- Hrev, length_indices. exact Hne. }
  destruct (lab !! i0) as [nm|] eqn:Hnm.
  2: { apply lookup_ge_None in Hnm. lia. }
  unfold transform. cbn [odds prob label]. fold eret.
  destruct (zero_prop_spec lab (seq 0 (length o)) ∅) as (prop0 & -> & HA & _ & _).
  { apply List.Forall_forall. intros k Hk. apply in_seq in Hk. lia. }
  rewrite Hrev. cbn [take_at map].
  replace (Qle_bool (get1 eret i0) 1) with false
    by (symmetry; apply not_true_is_false; intros H; apply Qle_bool_iff in H;
        rewrite Hent in H by assumption; lra).
  cbn [cumsum cumsum_from map combine fst snd].
  set (tmp_rest := map (fun ab => fdiv (1 - fst ab) (1 - snd ab)) _).
  set (x0 := (1 - (0 + get1 p i0)) / (1 - (0 + 1 / get1 o i0))).
  assert (Ho1 : 0 < 1 - (0 + 1 / get1 o i0)).
  { assert (1 / get1 o i0 < 1); [|lra]. apply Qlt_shift_div_r; lra. }
  assert (Hx0 : 0 < x0).
  { unfold x0. apply Qlt_shift_div_l; [assumption|]. lra. }
  assert (Hf : fdiv (1 - (0 + get1 p i0)) (1 - (0 + 1 / get1 o i0)) = Fin x0).
  { unfold fdiv.
    replace (Qeq_bool (1 - (0 + 1 / get1 o i0)) 0) with false; [reflexivity|].
    symmetry. apply not_true_is_false. intros H. apply Qeq_bool_eq in H. lra. }
  rewrite Hf, filter_cons.
  destruct (decide (ext_pos (Fin x0) = true)) as [_|Hn].
  2: { exfalso. apply Hn. simpl. now apply Qlt_bool_true. }
  set (ts := filter (fun x => ext_pos x = true) tmp_rest).
  assert (Hts : Forall (fun x => ext_pos x = true) ts).
  { apply Forall_forall. intros x Hx. now apply list_elem_of_filter in Hx. }
  destruct (fold_ext_min_fin ts x0) as (v & Hv & Hvx). rewrite Hv.
  assert (Hv0 : 0 < v).
  { apply Qlt_bool_true. change (ext_pos (Fin v) = true). rewrite <- Hv.
    apply fold_ext_min_pos; [exact Hts|]. simpl. now apply Qlt_bool_true. }
  set (kf := (get1 o i0 * get1 p i0 - 1) / (get1 o i0 - 1)).
  assert (Hkf : 0 < kf) by (unfold kf; apply Qlt_shift_div_l; lra).
  assert (Hb0 : kf <= get1 p i0 - v / get1 o i0).
  { assert (Hk : get1 p i0 - x0 / get1 o i0 == kf)
      by (unfold kf, x0; field; repeat split; lra).
    assert (v / get1 o i0 <= x0 / get1 o i0).
    { unfold Qdiv. apply Qmult_le_compat_r; [exact Hvx|].
      apply Qinv_le_0_compat. lra. }
    lra. }
  set (bf_rest := map (fun po => bet_fraction (Fin v) (fst po) (snd po)) _).
  cbn [bet_fraction].
  replace (Qlt_bool (get1 p i0 - v / get1 o i0) 0) with false
    by (symmetry; apply Qlt_bool_false; lra).
  cbn [length seq assign lookup list_lookup]. rewrite Hnm.
  assert (Hlt : (length ts <= length rest)%nat).
  { unfold ts. etransitivity; [apply length_filter|].
    unfold tmp_rest.
    rewrite List.length_map, length_combine, !length_cumsum_from, !List.length_map.
    lia. }
  assert (Hlb : length bf_rest = length rest).
  { unfold bf_rest. rewrite List.length_map, length_combine, !List.length_map. lia. }
  destruct (assign_spec lab (i0 :: rest)
              ((get1 p i0 - v / get1 o i0) :: bf_rest) (seq 1 (length ts))
              (<[nm := get1 p i0 - v / get1 o i0]> prop0))
    as (prop' & Hrun & Hdom & Hval).
  { apply List.Forall_forall. intros k Hk. apply in_seq in Hk. simpl. lia. }
  { intros k i Hk. rewrite <- Hrev in Hk. apply indices_bound in Hk. lia. }
  destruct (Hdom nm) as (q & Hq); [rewrite lookup_insert_eq; eauto|].
  exists prop', i0, nm, q.
  split; [exact Hrun|]. split; [exact Hi0|]. split; [exact Hbest|].
  split; [exact Hnm|]. split; [exact Hq|].
  fold kf. split; [exact Hkf|].
  destruct (Hval nm q Hq) as [Hins|(k & i & Hk & Hki & Hli & _)].
  - rewrite lookup_insert_eq in Hins. injection Hins as <-. exact Hb0.
  - exfalso.
    assert (i = i0) by (apply (NoDup_lookup lab i i0 nm); assumption). subst i.
    assert (k = 0%nat).
    { apply (NoDup_lookup (i0 :: rest) k 0%nat i0); [exact Hndi | exact Hki | reflexivity]. }
    subst k. apply list_elem_of_In, in_seq in Hk. lia.
Qed.
Lemma best_return_is_staked_witness :
  let self := mkMultiKellyBettor [1.87; 3.4; 3.4] [0.592; 0.285; 0.123]
                [inr "horse1"; inr "horse2"; inr "horse3"]%string in
  exists prop i0 nm q,
    transform self = inr prop /\ (i0 < length (odds self))%nat /\
    (forall i, (i < length (odds self))%nat ->
       get1 (odds self) i * get1 (prob self) i <=
       get1 (odds self) i0 * get1 (prob self) i0) /\
    label self !! i0 = Some nm /\ prop !! nm = Some q /\
    0 < (get1 (odds self) i0 * get1 (prob self) i0 - 1) / (get1 (odds self) i0 - 1)
      <= q.
Proof.
  apply (best_return_is_staked (Seq1 [1.87; 3.4; 3.4]) (Seq1 [0.592; 0.285; 0.123])
           [inr "horse1"; inr "horse2"; inr "horse3"]%string
           (mkMultiKellyBettor [1.87; 3.4; 3.4] [0.592; 0.285; 0.123]
              [inr "horse1"; inr "horse2"; inr "horse3"]%string) 0%nat).
  - reflexivity.
  - apply (bool_decide_unpack _). vm_compute. exact I.
  - simpl. lia.
  - reflexivity.
  - intros i Hi. simpl in Hi.
    destruct i as [|[|[|i]]]; [reflexivity | reflexivity | reflexivity | lia].
Defined.

End BestReturn.
